(** * RustyButter Avatar: the avatar state store and the batch expression player

    A shallow embedding of [src/index.ts] (the Express server holding the
    current expression, the avatar state and the batch state), of the
    in-process MCP module that calls back into it, and of the script of
    [public/index.html] (the polling client that plays a batch), followed by
    the properties of the specification that are stated about them. *)

From Stdlib Require Import ZArith Floats Ascii String.
From stdpp Require Import gmap strings list pretty.

Set Default Proof Using "Type".

(* A decimal literal such as [0.1] denotes the nearest binary64 value, in
   JavaScript as in Rocq. *)
Set Warnings "-inexact-float".

(** ** JavaScript values used by the program *)

(** A JavaScript [number] is an IEEE 754 binary64 value: Rocq's primitive
    [float].  The built-ins below follow the algorithms of ECMA-262. *)
Module JS.

Abbreviation number := float.

Definition isNaN (x : number) : bool := PrimFloat.is_nan x.

(** [ToBoolean] on a number: [+0], [-0] and [NaN] are falsy. *)
Definition truthy (x : number) : bool :=
  negb (PrimFloat.is_zero x || PrimFloat.is_nan x).

Definition is_pos_zero (x : number) : bool :=
  PrimFloat.is_zero x && negb (PrimFloat.get_sign x).

Definition is_neg_zero (x : number) : bool :=
  PrimFloat.is_zero x && PrimFloat.get_sign x.

(** [Math.min(...args)]: start from [+Infinity]; a [NaN] argument gives
    [NaN]; [-0] is below [+0]. *)
Fixpoint min_loop (lowest : number) (args : list number) : number :=
  match args with
  | [] => lowest
  | n :: rest =>
      if PrimFloat.is_nan n then PrimFloat.nan
      else if is_neg_zero n && is_pos_zero lowest then min_loop n rest
      else if PrimFloat.ltb n lowest then min_loop n rest
      else min_loop lowest rest
  end.

Definition Math_min (a b : number) : number :=
  min_loop PrimFloat.infinity [a; b].

(** [Math.max(...args)]: start from [-Infinity]; a [NaN] argument gives
    [NaN]; [+0] is above [-0]. *)
Fixpoint max_loop (highest : number) (args : list number) : number :=
  match args with
  | [] => highest
  | n :: rest =>
      if PrimFloat.is_nan n then PrimFloat.nan
      else if is_pos_zero n && is_neg_zero highest then max_loop n rest
      else if PrimFloat.ltb highest n then max_loop n rest
      else max_loop highest rest
  end.

Definition Math_max (a b : number) : number :=
  max_loop PrimFloat.neg_infinity [a; b].

(** *** Reading numbers out of strings

    A string of the embedding is the UTF-8 encoding of the string of the
    program.  The signs, digits and letters [parseInt] and [parseFloat]
    look for are one byte each; the white space they skip
    ([StrWhiteSpaceChar]: [WhiteSpace] and [LineTerminator]) has members of
    one, two and three bytes. *)

(** TAB, LF, VT, FF, CR and SP. *)
Definition is_space (c : ascii) : bool :=
  match nat_of_ascii c with
  | 9 | 10 | 11 | 12 | 13 | 32 => true
  | _ => false
  end.

(** U+00A0 (no-break space): [C2 A0]. *)
Definition is_space2 (c1 c2 : ascii) : bool :=
  (N_of_ascii c1 =? 194)%N && (N_of_ascii c2 =? 160)%N.

(** U+1680: [E1 9A 80]; U+2000 to U+200A: [E2 80 80] to [E2 80 8A];
    U+2028 and U+2029 (the line and paragraph separators): [E2 80 A8] and
    [E2 80 A9]; U+202F: [E2 80 AF]; U+205F: [E2 81 9F]; U+3000:
    [E3 80 80]; U+FEFF (the byte order mark): [EF BB BF]. *)
Definition is_space3 (c1 c2 c3 : ascii) : bool :=
  let b1 := N_of_ascii c1 in
  let b2 := N_of_ascii c2 in
  let b3 := N_of_ascii c3 in
  ((b1 =? 225) && (b2 =? 154) && (b3 =? 128)
   || (b1 =? 226) && (b2 =? 128)
      && ((128 <=? b3) && (b3 <=? 138) || (b3 =? 168) || (b3 =? 169) || (b3 =? 175))
   || (b1 =? 226) && (b2 =? 129) && (b3 =? 159)
   || (b1 =? 227) && (b2 =? 128) && (b3 =? 128)
   || (b1 =? 239) && (b2 =? 187) && (b3 =? 191))%N.

Fixpoint trim_start (s : string) : string :=
  match s with
  | String c1 rest1 =>
      if is_space c1 then trim_start rest1
      else
        match rest1 with
        | String c2 rest2 =>
            if is_space2 c1 c2 then trim_start rest2
            else
              match rest2 with
              | String c3 rest3 =>
                  if is_space3 c1 c2 c3 then trim_start rest3 else s
              | EmptyString => s
              end
        | EmptyString => s
        end
  | EmptyString => s
  end.

Definition digit_of (c : ascii) : option Z :=
  let n := Z.of_nat (nat_of_ascii c) in
  if (48 <=? n)%Z && (n <=? 57)%Z then Some (n - 48)%Z else None.

(** The longest prefix of decimal digits, most significant first, and the
    rest of the string. *)
Fixpoint read_digits (s : string) : list Z * string :=
  match s with
  | String c rest =>
      match digit_of c with
      | Some d => let '(ds, tl) := read_digits rest in (d :: ds, tl)
      | None => ([], s)
      end
  | EmptyString => ([], s)
  end.

Definition digits_value (ds : list Z) : Z :=
  fold_left (fun acc d => (10 * acc + d)%Z) ds 0%Z.

(** An optional sign: [true] for a minus. *)
Definition read_sign (s : string) : bool * string :=
  match s with
  | String "-" rest => (true, rest)
  | String "+" rest => (false, rest)
  | _ => (false, s)
  end.

(** The number value of [(-1)^neg * m * 10^e], rounded to nearest, ties to
    even, as the conversion of a decimal literal is. *)
Definition decimal_to_number (neg : bool) (m e : Z) : number :=
  match m with
  | Zpos p =>
      match e with
      | Zneg k =>
          SF2Prim (SFdiv prec emax (S754_finite neg p 0)
                     (S754_finite false (10 ^ k)%positive 0))
      | _ => SF2Prim (binary_normalize prec emax
                        (if neg then Z.neg (p * Z.to_pos (10 ^ e)) else Z.pos (p * Z.to_pos (10 ^ e)))
                        0 false)
      end
  | _ => if neg then PrimFloat.neg_zero else PrimFloat.zero
  end.

(** [parseInt(string, 10)]: skip white space, read a sign, take the longest
    run of decimal digits; no digit at all gives [NaN]. *)
Definition parseInt10 (s : string) : number :=
  let '(neg, s1) := read_sign (trim_start s) in
  let '(ds, _) := read_digits s1 in
  match ds with
  | [] => PrimFloat.nan
  | _ => decimal_to_number neg (digits_value ds) 0
  end.

(** The exponent part [e[+-]digits] of a decimal literal, when complete. *)
Definition read_exponent (s : string) : Z :=
  match s with
  | String c rest =>
      if Ascii.eqb c "e" || Ascii.eqb c "E" then
        let '(eneg, s1) := read_sign rest in
        let '(ds, _) := read_digits s1 in
        match ds with
        | [] => 0%Z
        | _ => if eneg then (- digits_value ds)%Z else digits_value ds
        end
      else 0%Z
  | EmptyString => 0%Z
  end.

(** [parseFloat(string)]: the longest prefix of the trimmed string that is
    a [StrDecimalLiteral]; [NaN] when there is none. *)
Definition parseFloat (s : string) : number :=
  let '(neg, s1) := read_sign (trim_start s) in
  if String.prefix "Infinity" s1 then
    (if neg then PrimFloat.neg_infinity else PrimFloat.infinity)
  else
    let '(ip, s2) := read_digits s1 in
    let '(fp, s3) :=
      match s2 with
      | String "." rest => read_digits rest
      | _ => ([], s2)
      end in
    match ip ++ fp with
    | [] => PrimFloat.nan
    | ds =>
        decimal_to_number neg (digits_value ds)
          (read_exponent s3 - Z.of_nat (length fp))
    end.

End JS.

(** *** Completions

    A call either returns normally or throws; [try_catch] runs the handler
    when the block throws. *)
Inductive Completion (A : Type) : Type :=
  | Normal (a : A)
  | Throw (message : string).
Arguments Normal {A} a.
Arguments Throw {A} message.

Definition bind {A B : Type} (c : Completion A) (k : A -> Completion B) : Completion B :=
  match c with
  | Normal a => k a
  | Throw m => Throw m
  end.

Definition try_catch {A : Type} (block : Completion A) (handler : string -> A) : A :=
  match block with
  | Normal a => a
  | Throw m => handler m
  end.

(** [parseInt(s, 10)] and [parseFloat(s)] as calls: on a string argument
    they complete normally, with [NaN] when nothing can be read. *)
Definition parseInt (s : string) : Completion JS.number := Normal (JS.parseInt10 s).
Definition parseFloat (s : string) : Completion JS.number := Normal (JS.parseFloat s).

(** ** Shared types ([types.ts]) *)

Inductive Direction : Set := Right | Left.

Global Instance Direction_eq_dec : EqDecision Direction.
Proof. solve_decision. Defined.

Record Expression : Set := {
  name : string;
  imageUrl : string;
  description : string;
  useCases : string
}.

Record AvatarState : Set := {
  direction : Direction;
  posX : JS.number;
  posY : JS.number;
  rotation : JS.number;
  scale : JS.number
}.

(** [ExpressionAction] and [BatchExpressions] of [types.ts]: an action is an
    avatar state with an [expression] and a [duration].  [random] is
    optional in the declaration; [batchId] is declared a [string], and is
    optional here because the server reads it through
    [batchExpressions.batchId || uuidv4()], which provides for a descriptor
    that comes without one. *)
Module Action.
Record t : Set := {
  expression : string;
  duration : JS.number;
  direction : Direction;
  posX : JS.number;
  posY : JS.number;
  rotation : JS.number;
  scale : JS.number
}.
End Action.

Record BatchExpressions : Set := {
  loop : bool;
  random : option bool;
  actions : list Action.t;
  batchId : option string
}.

(** [ToBoolean] on an optional string: [undefined] and the empty string are
    falsy. *)
Definition truthy_string (x : option string) : bool :=
  match x with
  | Some s => negb (bool_decide (s = ""))
  | None => false
  end.

(** [x || fallback] on an optional string. *)
Definition string_or (x : option string) (fallback : string) : string :=
  match x with
  | Some s => if truthy_string x then s else fallback
  | None => fallback
  end.

(** [x || fallback] on an optional number: [undefined], [0] and [NaN] are
    falsy. *)
Definition number_or (x : option JS.number) (fallback : JS.number) : JS.number :=
  match x with
  | Some n => if JS.truthy n then n else fallback
  | None => fallback
  end.

(** [x || false] on an optional boolean. *)
Definition bool_or_false (x : option bool) : bool := default false x.

(** ** The Express server ([src/index.ts]) *)
Module Server.

(** The module-level variables of the server, with the number of
    identifiers drawn from [uuidv4] so far. *)
Record Store : Set := {
  currentExpression : string;
  avatarState : AvatarState;
  batchExpressionsState : option BatchExpressions;
  uuidCalls : nat
}.

Definition initialStore : Store := {|
  currentExpression := "joyful";
  avatarState := {| direction := Right; posX := 0; posY := 0; rotation := 0; scale := 1 |};
  batchExpressionsState := None;
  uuidCalls := 0
|}.

(** Assignments to one field of [avatarState]. *)
Definition set_direction (d : Direction) (s : AvatarState) : AvatarState :=
  {| direction := d; posX := posX s; posY := posY s; rotation := rotation s; scale := scale s |}.
Definition set_posX (x : JS.number) (s : AvatarState) : AvatarState :=
  {| direction := direction s; posX := x; posY := posY s; rotation := rotation s; scale := scale s |}.
Definition set_posY (y : JS.number) (s : AvatarState) : AvatarState :=
  {| direction := direction s; posX := posX s; posY := y; rotation := rotation s; scale := scale s |}.
Definition set_rotation (r : JS.number) (s : AvatarState) : AvatarState :=
  {| direction := direction s; posX := posX s; posY := posY s; rotation := r; scale := scale s |}.
Definition set_scale (k : JS.number) (s : AvatarState) : AvatarState :=
  {| direction := direction s; posX := posX s; posY := posY s; rotation := rotation s; scale := k |}.

(** [d === 'left' || d === 'right'] *)
Definition as_direction (d : string) : option Direction :=
  if bool_decide (d = "left") then Some Left
  else if bool_decide (d = "right") then Some Right
  else None.

(** The avatar state an action carries. *)
Definition state_of_action (action : Action.t) : AvatarState := {|
  direction := Action.direction action;
  posX := Action.posX action;
  posY := Action.posY action;
  rotation := Action.rotation action;
  scale := Action.scale action
|}.

(** [`Batch expressions set with ${count} actions, loop=${loop}`] *)
Definition batchSet (count : nat) (loop : bool) : string :=
  "Batch expressions set with " +:+ pretty count +:+ " actions, loop="
  +:+ (if loop then "true" else "false").

(** The query string of [GET /api/set-expression]: each parameter is
    either absent ([undefined]) or a string. *)
Module Query.
Record t : Set := {
  name : option string;
  direction : option string;
  pos_x : option string;
  pos_y : option string;
  rotation : option string;
  scale : option string
}.
End Query.

(** An element of the [actions] argument of the [setBatchExpressions]
    tool, before it is checked: a missing property is [None]; [duration]
    is [None] too when it is not of type [number]. *)
Module RawAction.
Record t : Set := {
  expression : option string;
  duration : option JS.number;
  direction : option string;
  posX : option JS.number;
  posY : option JS.number;
  rotation : option JS.number;
  scale : option JS.number
}.
End RawAction.

(** HTTP responses. *)
Inductive Response (A : Type) : Type :=
  | Ok200 (body : A)
  | BadRequest400 (error : string) (availableExpressions : list string)
  | NotFound404 (error : string).
Arguments Ok200 {A} body.
Arguments BadRequest400 {A} error availableExpressions.
Arguments NotFound404 {A} error.

(** The body of [GET /api/current-expression]: the catalog entry spread
    into it, the five fields of the avatar state, and [batchExpressions]
    when a batch is stored. *)
Record CurrentExpression : Set := {
  entry : Expression;
  state : AvatarState;
  batchExpressions : option BatchExpressions
}.

(** The body of a successful [GET /api/set-expression]. *)
Record SetExpression : Set := {
  success : bool;
  set_entry : Expression;
  set_state : AvatarState
}.

(** What the legacy tools return. *)
Record SetAvatarResult : Set := {
  avatar_success : bool;
  avatar_message : string;
  avatar_expression : Expression;
  avatar_state : AvatarState
}.

Record SetBatchResult : Set := {
  batch_success : bool;
  batch_message : string;
  batch_batchId : option string
}.

(** Of the console output, the lines by which
    [handleBatchExpressionsUpdate] reports what it did with a batch. *)
Inductive ConsoleLine : Set :=
  | BatchUpdatedViaMcp (batch : BatchExpressions)
  | InvalidExpressionInBatch (expression : string)
  | NoValidExpressions
  | SomeFilteredOut (dropped : nat)
  | SingleActionConverted (expression : string).

(** *** Starting up *)

(** The [options] object [parseArgs] fills. *)
Module Options.
Record t : Set := {
  port : option string;
  mcp : option string
}.
End Options.

(** The variables of the environment the server reads ([PORT],
    [MCP_MODE]) and the one more the command line wrapper reads ([MCP]). *)
Module Env.
Record t : Set := {
  PORT : option string;
  MCP_MODE : option string;
  MCP : option string
}.
End Env.

(** The loop of [parseArgs]; [args] is what is left from [args[i]] on.
    After [--port] has taken its value the index stands on the value, and
    the test for [--mcp] that follows reads the value. *)
Fixpoint parseArgs_loop (args : list string) (options : Options.t) : Options.t :=
  match args with
  | [] => options
  | arg :: rest =>
      match rest with
      | value :: after =>
          if bool_decide (arg = "--port") then
            let options := {| Options.port := Some value; Options.mcp := Options.mcp options |} in
            let options :=
              if bool_decide (value = "--mcp")
              then {| Options.port := Options.port options; Options.mcp := Some "true" |}
              else options in
            parseArgs_loop after options
          else
            let options :=
              if bool_decide (arg = "--mcp")
              then {| Options.port := Options.port options; Options.mcp := Some "true" |}
              else options in
            parseArgs_loop rest options
      | [] =>
          if bool_decide (arg = "--mcp")
          then {| Options.port := Options.port options; Options.mcp := Some "true" |}
          else options
      end
  end.

(** [parseArgs()], with [process.argv] as its argument. *)
Definition parseArgs (argv : list string) : Options.t :=
  parseArgs_loop (drop 2 argv) {| Options.port := None; Options.mcp := None |}.

(** [options.port || process.env.PORT || 3000]: a string, or the number. *)
Inductive Port : Set :=
  | PortText (text : string)
  | PortNumber (number : Z).

Definition PORT (options : Options.t) (env : Env.t) : Port :=
  if truthy_string (Options.port options) then PortText (default "" (Options.port options))
  else if truthy_string (Env.PORT env) then PortText (default "" (Env.PORT env))
  else PortNumber 3000.

(** [options.mcp === 'true' || process.env.MCP_MODE === 'true'] *)
Definition isMcpMode (options : Options.t) (env : Env.t) : bool :=
  bool_decide (Options.mcp options = Some "true")
  || bool_decide (Env.MCP_MODE env = Some "true").

(** The catalog used when [expressions.json] cannot be read or parsed. *)
Definition fallbackExpressions : list Expression := [
  {| name := "joyful";
     imageUrl := "/images/joyful.png";
     description := "Happy and celebratory expression";
     useCases := "When tests pass, code works correctly, or celebrating achievements" |}
].

(** The [try] that loads the catalog: [file] is what reading and parsing
    [expressions.json] comes to. *)
Definition loadExpressions (file : Completion (list Expression)) : list Expression :=
  try_catch file (fun _ => fallbackExpressions).

Section Index.

(** The catalog read from [expressions.json] (or the built-in fallback)
    and the identifiers [uuidv4()] returns, in the order of the calls. *)
Variable expressions : list Expression.
Variable uuidv4 : nat -> string.

(** [expressions.reduce((map, exp) => { map[exp.name] = exp; return map }, {})].
    A lookup finds the last entry of the catalog with the name.  The map is
    the one of the program for the names no object inherits, in a catalog
    without an entry named [__proto__]: in JavaScript a lookup of an
    inherited name ([constructor], [toString], ...) finds the inherited
    property, and an entry named [__proto__] becomes the prototype of the
    map.  The properties that depend on a lookup failing say so
    ([Invariants.own_name], [Invariants.plain_catalog]). *)
Definition expressionMap : gmap string Expression :=
  foldl (fun map exp => <[name exp := exp]> map) ∅ expressions.

(** [Object.keys(expressionMap)]: the names in the order of their first
    insertion.  (JavaScript lists the names that are array indices, such as
    ["7"], before the others; the order here is the one of the program for
    catalogs without such names.) *)
Definition Object_keys : list string :=
  foldl (fun keys exp => if bool_decide (name exp ∈ keys) then keys else keys ++ [name exp])
        [] expressions.

(** The message of the errors the tools throw for an unknown name. *)
Definition invalidExpression (name : string) : string :=
  "Invalid expression: " +:+ name +:+ ". Available expressions: "
  +:+ String.concat ", " Object_keys.

(** [handleExpressionUpdate]: the callback the MCP module calls after it
    has set an expression. *)
Definition handleExpressionUpdate (name : string) (state : AvatarState) (st : Store) : Store :=
  match expressionMap !! name with
  | Some _ =>
      {| batchExpressionsState := None;
         currentExpression := name;
         avatarState := state;
         uuidCalls := uuidCalls st |}
  | None => st
  end.

(** The actions of a batch that name a catalog entry. *)
Definition validActions (batchExpressions : BatchExpressions) : list Action.t :=
  filter (fun action => is_Some (expressionMap !! Action.expression action))
         (actions batchExpressions).

Definition invalidActions (batchExpressions : BatchExpressions) : list Action.t :=
  filter (fun action => ¬ is_Some (expressionMap !! Action.expression action))
         (actions batchExpressions).

(** [handleBatchExpressionsUpdate]: the callback that receives a batch.
    It returns nothing; the result here is the store it leaves and what
    it wrote to the console. *)
Definition handleBatchExpressionsUpdate (batchExpressions : BatchExpressions) (st : Store)
  : Store * list ConsoleLine :=
  let valid := validActions batchExpressions in
  let log :=
    BatchUpdatedViaMcp batchExpressions
      :: (InvalidExpressionInBatch ∘ Action.expression <$> invalidActions batchExpressions) in
  match valid with
  | [] => (st, log ++ [NoValidExpressions])
  | firstAction :: _ =>
      let filtered := bool_decide (length valid ≠ length (actions batchExpressions)) in
      let log :=
        if filtered
        then log ++ [SomeFilteredOut (length (actions batchExpressions) - length valid)]
        else log in
      (* batchExpressions.actions = validActions *)
      let batchExpressions :=
        if filtered
        then {| loop := loop batchExpressions; random := random batchExpressions;
                actions := valid; batchId := batchId batchExpressions |}
        else batchExpressions in
      if bool_decide (length valid = 1) && negb (loop batchExpressions) then
        ({| currentExpression := Action.expression firstAction;
            avatarState := state_of_action firstAction;
            batchExpressionsState := None;
            uuidCalls := uuidCalls st |},
         log ++ [SingleActionConverted (Action.expression firstAction)])
      else
        let drawn := negb (truthy_string (batchId batchExpressions)) in
        ({| batchExpressionsState :=
              Some {| loop := loop batchExpressions;
                      actions := actions batchExpressions;
                      random := Some (bool_or_false (random batchExpressions));
                      batchId := Some (string_or (batchId batchExpressions)
                                                 (uuidv4 (uuidCalls st))) |};
            currentExpression := Action.expression firstAction;
            avatarState := state_of_action firstAction;
            uuidCalls := if drawn then S (uuidCalls st) else uuidCalls st |},
         log)
  end.

(** [app.get('/api/current-expression', ...)] *)
Definition get_api_current_expression (st : Store) : Store * Response CurrentExpression :=
  match expressionMap !! currentExpression st with
  | None => (st, NotFound404 "Expression not found")
  | Some e =>
      (st,
       Ok200 {| entry := e;
                state := {| direction := direction (avatarState st);
                            posX := posX (avatarState st);
                            posY := posY (avatarState st);
                            rotation := rotation (avatarState st);
                            scale := scale (avatarState st) |};
                batchExpressions :=
                  (fun b => {| loop := loop b; actions := actions b; batchId := batchId b;
                               random := Some (bool_or_false (random b)) |})
                    <$> batchExpressionsState st |})
  end.

(** [app.get('/api/set-expression', ...)] *)
Definition get_api_set_expression (q : Query.t) (st : Store) : Store * Response SetExpression :=
  match Query.name q ≫= (fun name => (fun e => (name, e)) <$> expressionMap !! name) with
  | None => (st, BadRequest400 "Invalid expression name" Object_keys)
  | Some (name, e) =>
      let s := avatarState st in
      (* direction *)
      let s :=
        match Query.direction q ≫= as_direction with
        | Some d => set_direction d s
        | None => s
        end in
      (* pos_x *)
      let s :=
        match Query.pos_x q with
        | Some pos_x =>
            try_catch (bind (parseInt pos_x) (fun parsedPosX => Normal (set_posX parsedPosX s)))
                      (fun _ => s)
        | None => s
        end in
      (* pos_y *)
      let s :=
        match Query.pos_y q with
        | Some pos_y =>
            try_catch (bind (parseInt pos_y) (fun parsedPosY => Normal (set_posY parsedPosY s)))
                      (fun _ => s)
        | None => s
        end in
      (* rotation *)
      let s :=
        match Query.rotation q with
        | Some rotation =>
            try_catch
              (bind (parseInt rotation) (fun rotationValue =>
                 let limitedRotation := JS.Math_max (-30) (JS.Math_min 30 rotationValue) in
                 Normal (set_rotation limitedRotation s)))
              (fun _ => s)
        | None => s
        end in
      (* scale *)
      let s :=
        match Query.scale q with
        | Some scale =>
            try_catch
              (bind (parseFloat scale) (fun scaleValue =>
                 if negb (JS.isNaN scaleValue) then
                   let limitedScale := JS.Math_max 0.1 (JS.Math_min 3.0 scaleValue) in
                   Normal (set_scale limitedScale s)
                 else Normal s))
              (fun _ => s)
        | None => s
        end in
      ({| currentExpression := name;
          avatarState := s;
          batchExpressionsState := batchExpressionsState st;
          uuidCalls := uuidCalls st |},
       Ok200 {| success := true; set_entry := e; set_state := s |})
  end.

(** [mcpTools.setAvatarExpression.function] (the legacy tool) *)
Definition setAvatarExpression
    (name : string) (direction : option string)
    (posX posY rotation scale : option JS.number) (st : Store)
  : Store * Completion SetAvatarResult :=
  match expressionMap !! name with
  | None => (st, Throw (invalidExpression name))
  | Some e =>
      let s := avatarState st in
      let s :=
        match direction ≫= as_direction with
        | Some d => set_direction d s
        | None => s
        end in
      let s := match posX with Some posX => set_posX posX s | None => s end in
      let s := match posY with Some posY => set_posY posY s | None => s end in
      let s :=
        match rotation with
        | Some rotation => set_rotation (JS.Math_max (-30) (JS.Math_min 30 rotation)) s
        | None => s
        end in
      let s :=
        match scale with
        | Some scale => set_scale (JS.Math_max 0.1 (JS.Math_min 3.0 scale)) s
        | None => s
        end in
      ({| currentExpression := name;
          avatarState := s;
          (* Clear any batch expressions *)
          batchExpressionsState := None;
          uuidCalls := uuidCalls st |},
       Normal {| avatar_success := true;
                 avatar_message := "Avatar expression set to " +:+ name;
                 avatar_expression := e;
                 avatar_state := s |})
  end.

(** The body of [actions.map(...)] in the legacy [setBatchExpressions]:
    check one action, then apply defaults and constraints. *)
Definition prepareAction (action : RawAction.t) : Completion Action.t :=
  match RawAction.expression action with
  | Some expression =>
      if truthy_string (Some expression)
         && bool_decide (is_Some (expressionMap !! expression)) then
        match RawAction.duration action with
        | Some duration =>
            if PrimFloat.leb duration 0 then
              Throw ("Duration must be a positive number for expression: " +:+ expression)
            else
              Normal {|
                Action.expression := expression;
                Action.duration := duration;
                Action.direction :=
                  default Right (RawAction.direction action ≫= as_direction);
                Action.posX := number_or (RawAction.posX action) 0;
                Action.posY := number_or (RawAction.posY action) 0;
                Action.rotation :=
                  match RawAction.rotation action with
                  | Some rotation => JS.Math_max (-30) (JS.Math_min 30 rotation)
                  | None => 0
                  end;
                Action.scale :=
                  match RawAction.scale action with
                  | Some scale => JS.Math_max 0.1 (JS.Math_min 3.0 scale)
                  | None => 1.0
                  end
              |}
        | None =>
            Throw ("Duration must be a positive number for expression: " +:+ expression)
        end
      else Throw (invalidExpression expression)
  | None => Throw (invalidExpression "undefined")
  end.

(** [Array.prototype.map] with a callback that may throw: the first
    throw ends the traversal. *)
Fixpoint map_throwing {A B : Type} (f : A -> Completion B) (l : list A)
  : Completion (list B) :=
  match l with
  | [] => Normal []
  | x :: rest =>
      bind (f x) (fun y => bind (map_throwing f rest) (fun ys => Normal (y :: ys)))
  end.

(** [mcpTools.setBatchExpressions.function] (the legacy tool) *)
Definition setBatchExpressions
    (loop : bool) (random : option bool) (actions : list RawAction.t) (st : Store)
  : Store * list ConsoleLine * Completion SetBatchResult :=
  match actions with
  | [] =>
      (st, [],
       Throw "Actions array is required and must contain at least one expression action")
  | _ =>
      match map_throwing prepareAction actions with
      | Throw m => (st, [], Throw m)
      | Normal validActions =>
          (* { loop, random: random || false, actions: validActions, batchId: uuidv4() } *)
          let batchExpressions :=
            Build_BatchExpressions loop (Some (bool_or_false random)) validActions
                                   (Some (uuidv4 (uuidCalls st))) in
          let st := {| currentExpression := currentExpression st;
                       avatarState := avatarState st;
                       batchExpressionsState := batchExpressionsState st;
                       uuidCalls := S (uuidCalls st) |} in
          let '(st, log) := handleBatchExpressionsUpdate batchExpressions st in
          (st, log,
           Normal {| batch_success := true;
                     batch_message := batchSet (length validActions) loop;
                     batch_batchId := batchId batchExpressions |})
      end
  end.

End Index.

End Server.

(** ** The MCP module started by the server ([mcp-server.ts])

    It keeps an expression and an avatar state of its own and reports to the
    server through the two callbacks. *)
Module Mcp.

Record State : Set := {
  currentExpression : string;
  avatarState : AvatarState;
  idsDrawn : nat
}.

(** An element of [actions] as the schema of the tool admits it. *)
Module ToolAction.
Record t : Set := {
  expression : string;
  duration : JS.number;
  direction : option Direction;
  posX : option JS.number;
  posY : option JS.number;
  rotation : option JS.number;
  scale : option JS.number
}.
End ToolAction.

Section Tools.

Variable expressions : list Expression.
Variable uuidv4 : nat -> string.

(** The identifiers built from [Math.random().toString(36)], in the
    order in which they are drawn. *)
Variable randomId : nat -> string.

Abbreviation expressionMap := (Server.expressionMap expressions).
Abbreviation onExpressionUpdate := (Server.handleExpressionUpdate expressions).
Abbreviation onBatchExpressionsUpdate :=
  (Server.handleBatchExpressionsUpdate expressions uuidv4).

(** The state [startMcpServer] begins with. *)
Definition initialState : State := {|
  currentExpression :=
    if bool_decide ("joyful" ∈ Server.Object_keys expressions) then "joyful"
    else default "" (head (Server.Object_keys expressions));
  avatarState := {| direction := Right; posX := 0; posY := 0; rotation := 0; scale := 1 |};
  idsDrawn := 0
|}.

(** The handler of the tool [setAvatarExpression]: the text it answers
    with, and the state of the module and of the server afterwards. *)
Definition setAvatarExpression
    (name : string) (direction : option Direction)
    (posX posY rotation scale : option JS.number)
    (w : State * Server.Store) : State * Server.Store * string :=
  let '(m, st) := w in
  match expressionMap !! name with
  | None => (m, st, Server.invalidExpression expressions name)
  | Some _ =>
      let s := avatarState m in
      let s := match direction with Some d => Server.set_direction d s | None => s end in
      let s := match posX with Some posX => Server.set_posX posX s | None => s end in
      let s := match posY with Some posY => Server.set_posY posY s | None => s end in
      let s :=
        match rotation with
        | Some rotation => Server.set_rotation (JS.Math_max (-30) (JS.Math_min 30 rotation)) s
        | None => s
        end in
      let s :=
        match scale with
        | Some scale => Server.set_scale (JS.Math_max 0.1 (JS.Math_min 3.0 scale)) s
        | None => s
        end in
      ({| currentExpression := name; avatarState := s; idsDrawn := idsDrawn m |},
       onExpressionUpdate name s st,
       "Avatar expression set to " +:+ name)
  end.

(** The body of [actions.map(...)] in the tool [setBatchExpressions]. *)
Definition prepareAction (action : ToolAction.t) : Completion Action.t :=
  if truthy_string (Some (ToolAction.expression action))
     && bool_decide (is_Some (expressionMap !! ToolAction.expression action)) then
    Normal {|
      Action.expression := ToolAction.expression action;
      Action.duration := number_or (Some (ToolAction.duration action)) 1000;
      Action.direction := default Right (ToolAction.direction action);
      Action.posX := number_or (ToolAction.posX action) 0;
      Action.posY := number_or (ToolAction.posY action) 0;
      Action.rotation :=
        match ToolAction.rotation action with
        | Some rotation => JS.Math_max (-30) (JS.Math_min 30 rotation)
        | None => 0
        end;
      Action.scale :=
        match ToolAction.scale action with
        | Some scale => JS.Math_max 0.1 (JS.Math_min 3.0 scale)
        | None => 1.0
        end
    |}
  else Throw (Server.invalidExpression expressions (ToolAction.expression action)).

(** The handler of the tool [setBatchExpressions]. *)
Definition setBatchExpressions
    (loop : bool) (random : option bool) (actions : list ToolAction.t)
    (w : State * Server.Store)
  : State * Server.Store * list Server.ConsoleLine * Completion string :=
  let '(m, st) := w in
  match actions with
  | [] =>
      (m, st, [],
       Normal "Error: Actions array is required and must contain at least one expression action")
  | _ =>
      match Server.map_throwing (prepareAction) actions with
      | Throw e => (m, st, [], Throw e)
      | Normal validActions =>
          let batchExpressions :=
            Build_BatchExpressions loop (Some (bool_or_false random)) validActions
                                   (Some (randomId (idsDrawn m))) in
          let '(st, log) := onBatchExpressionsUpdate batchExpressions st in
          let m :=
            match validActions with
            | firstAction :: _ =>
                {| currentExpression := Action.expression firstAction;
                   avatarState := Server.state_of_action firstAction;
                   idsDrawn := S (idsDrawn m) |}
            | [] =>
                {| currentExpression := currentExpression m;
                   avatarState := avatarState m;
                   idsDrawn := S (idsDrawn m) |}
            end in
          (m, st, log, Normal (Server.batchSet (length validActions) loop))
      end
  end.

End Tools.

End Mcp.

(** ** The command line wrapper ([bin/cli.js]) *)
Module Cli.

(** [program.opts()] *)
Record Opts : Set := {
  port : string;
  detached : bool;
  log : string;
  stop : bool;
  mcp : bool
}.

(** What the wrapper finds around it: whether the [.pid] file is there, the
    answer to the prompt that asks whether to restart, and whether the
    built server file is there. *)
Record World : Set := {
  pidFile : bool;
  restart : bool;
  mainFileExists : bool
}.

(** [opts.mcp || process.env.MCP_MODE === 'true' || process.env.MCP === 'true'] *)
Definition isMcpMode (opts : Opts) (env : Server.Env.t) : bool :=
  mcp opts
  || bool_decide (Server.Env.MCP_MODE env = Some "true")
  || bool_decide (Server.Env.MCP env = Some "true").

(** [const args = [mainFile, '--port', opts.port]; if (opts.mcp) args.push('--mcp')] *)
Definition serverArgs (mainFile : string) (opts : Opts) : list string :=
  [mainFile; "--port"; port opts] ++ (if mcp opts then ["--mcp"] else []).

(** How the server comes to run: [require(mainFile)] in the process of the
    wrapper, with the [process.argv] of the wrapper, or [spawn('node', args)],
    where the [process.argv] of the server is the path of [node] followed by
    [args]; either way with the environment of the wrapper. *)
Inductive Launch : Set :=
  | Required (argv : list string)
  | Spawned (args : list string)
  | NotStarted.

(** The script from [program.parse] on.  [process.argv] of the wrapper is
    [execPath :: script :: args]; [opts] is what [commander] has read from
    it.  In MCP mode the wrapper pushes [--mcp] onto its own [process.argv],
    requires the server and returns; otherwise [--stop] stops a server, and
    a server is spawned unless one is running and is to be kept, or the
    server file is missing. *)
Definition launch (execPath script mainFile : string) (args : list string)
    (opts : Opts) (env : Server.Env.t) (world : World) : Launch :=
  if isMcpMode opts env then
    if mainFileExists world
    then Required (execPath :: script :: args ++ ["--mcp"])
    else NotStarted
  else if stop opts then NotStarted
  else if pidFile world && negb (restart world) then NotStarted
  else if mainFileExists world then Spawned (serverArgs mainFile opts)
  else NotStarted.

End Cli.

(** ** The avatar page ([public/index.html]) *)
Module Client.

(** What [response.json()] yields for a number: [JSON.stringify] writes a
    value that is not finite as [null], and [-0] as [0]. *)
Definition json_number (x : JS.number) : option JS.number :=
  if PrimFloat.is_finite x
  then Some (if PrimFloat.is_zero x then PrimFloat.zero else x)
  else None.

(** An action as the page receives it. *)
Module Action.
Record t : Set := {
  expression : string;
  duration : option JS.number;
  direction : Direction;
  posX : option JS.number;
  posY : option JS.number;
  rotation : option JS.number;
  scale : option JS.number
}.
End Action.

(** [data.batchExpressions] *)
Module Batch.
Record t : Set := {
  loop : bool;
  random : bool;
  actions : list Action.t;
  batchId : string
}.
End Batch.

(** The object [updateSingleExpression] draws: the fields it reads of the
    response of the server, or of the [expressionData] built for a batch
    action. *)
Record ExpressionData : Set := {
  name : string;
  imageUrl : string;
  description : string;
  direction : Direction;
  posX : option JS.number;
  posY : option JS.number;
  rotation : option JS.number;
  scale : option JS.number
}.

(** The JSON body of [/api/current-expression]. *)
Record Data : Set := {
  expressionData : ExpressionData;
  batchExpressions : option Batch.t
}.

(** The outcome of [fetch] and of reading the body. *)
Inductive Fetched : Set :=
  | NetworkError
  | NotOk
  | Json (data : Data).

(** The variables of the script, followed by what it has done to its
    surroundings: the arguments of the calls of [updateSingleExpression]
    (each call overwrites the image and the style of its wrapper; the
    newest is last), the timers that are armed and have not fired (with
    their delay), the next timer identifier, and the number of calls of
    [Math.random]. *)
Record Player : Set := {
  currentBatch : option Batch.t;
  currentBatchId : option string;
  currentActionIndex : nat;
  batchTimeout : option positive;
  rendered : list ExpressionData;
  timers : list (positive * JS.number);
  nextTimer : positive;
  randomCalls : nat
}.

Definition initialPlayer : Player := {|
  currentBatch := None;
  currentBatchId := None;
  currentActionIndex := 0;
  batchTimeout := None;
  rendered := [];
  timers := [];
  nextTimer := 1;
  randomCalls := 0
|}.

(** [updateSingleExpression(data)] *)
Definition updateSingleExpression (data : ExpressionData) (p : Player) : Player := {|
  currentBatch := currentBatch p;
  currentBatchId := currentBatchId p;
  currentActionIndex := currentActionIndex p;
  batchTimeout := batchTimeout p;
  rendered := rendered p ++ [data];
  timers := timers p;
  nextTimer := nextTimer p;
  randomCalls := randomCalls p
|}.

(** [clearTimeout(id)] *)
Definition clearTimeout (id : positive) (timers : list (positive * JS.number))
  : list (positive * JS.number) :=
  filter (fun t => t.1 ≠ id) timers.

(** [stopBatchExpression()] *)
Definition stopBatchExpression (p : Player) : Player := {|
  timers :=
    match batchTimeout p with
    | Some id => clearTimeout id (timers p)
    | None => timers p
    end;
  batchTimeout := None;
  currentBatch := None;
  currentBatchId := None;
  currentActionIndex := 0;
  rendered := rendered p;
  nextTimer := nextTimer p;
  randomCalls := randomCalls p
|}.

(** The [expressionData] object [processBatchAction] builds. *)
Definition expressionData_of (action : Action.t) : ExpressionData := {|
  name := Action.expression action;
  imageUrl := "/images/" +:+ Action.expression action +:+ ".png";
  description := "Batch expression";
  direction := Action.direction action;
  posX := Some (number_or (Action.posX action) 0);
  posY := Some (number_or (Action.posY action) 0);
  rotation := Some (number_or (Action.rotation action) 0);
  scale := Some (number_or (Action.scale action) 1.0)
|}.

(** [setTimeout(callback, delay)]: a delay of [null] counts as [0]. *)
Definition setTimeout (delay : option JS.number) (p : Player) : Player := {|
  batchTimeout := Some (nextTimer p);
  timers := timers p ++ [(nextTimer p, default 0%float delay)];
  nextTimer := Pos.succ (nextTimer p);
  currentBatch := currentBatch p;
  currentBatchId := currentBatchId p;
  currentActionIndex := currentActionIndex p;
  rendered := rendered p;
  randomCalls := randomCalls p
|}.

(** [processBatchAction()].  Reading a property of [undefined], when the
    index is past the end, throws before anything is changed: the player
    is left as it is. *)
Definition processBatchAction (p : Player) : Player :=
  match currentBatch p with
  | None => p
  | Some batch =>
      match Batch.actions batch with
      | [] => p
      | _ =>
          match Batch.actions batch !! currentActionIndex p with
          | None => p
          | Some action =>
              setTimeout (Action.duration action)
                         (updateSingleExpression (expressionData_of action) p)
          end
      end
  end.

(** [startBatchExpression(batchData)] *)
Definition startBatchExpression (batchData : Batch.t) (p : Player) : Player :=
  let p := stopBatchExpression p in
  processBatchAction {|
    currentBatch := Some batchData;
    currentBatchId := Some (Batch.batchId batchData);
    currentActionIndex := 0;
    batchTimeout := batchTimeout p;
    rendered := rendered p;
    timers := timers p;
    nextTimer := nextTimer p;
    randomCalls := randomCalls p
  |}.

(** [updateAvatar()], from the point where [fetch] has settled. *)
Definition updateAvatar (response : Fetched) (p : Player) : Player :=
  match response with
  | Json data =>
      match batchExpressions data with
      | Some batch =>
          if bool_decide (currentBatchId p ≠ Some (Batch.batchId batch))
          then startBatchExpression batch p
          else p
      | None => updateSingleExpression (expressionData data) (stopBatchExpression p)
      end
  | _ => p
  end.

(** *** [Array.prototype.sort]

    The order in which an engine calls the comparison function is its
    own; the model is the insertion sort engines use on short arrays:
    each element is moved left past the elements the comparison function
    puts after it.  [comparefn k] is the result of the [k]-th call; the
    sort returns the sorted copy and the number of the next call. *)
Section Sort.
Context {A : Type}.
Variable comparefn : nat -> JS.number.

(** Insert [element] into the sorted part, held last element first. *)
Fixpoint insert (element : A) (sorted : list A) (k : nat) : list A * nat :=
  match sorted with
  | [] => ([element], k)
  | tmp :: rest =>
      if PrimFloat.ltb 0 (comparefn k) then
        let '(rest, k) := insert element rest (S k) in (tmp :: rest, k)
      else (element :: sorted, S k)
  end.

Fixpoint sort_from (sorted : list A) (l : list A) (k : nat) : list A * nat :=
  match l with
  | [] => (rev sorted, k)
  | element :: l =>
      let '(sorted, k) := insert element sorted k in sort_from sorted l k
  end.

Definition sort (l : list A) (k : nat) : list A * nat := sort_from [] l k.
End Sort.

Section Timers.

(** The values [Math.random()] returns, in the order of the calls. *)
Variable Math_random : nat -> JS.number.

(** [[...currentBatch.actions].sort(() => Math.random() - 0.5)] *)
Definition shuffle (actions : list Action.t) (k : nat) : list Action.t * nat :=
  sort (fun k => PrimFloat.sub (Math_random k) 0.5) actions k.

(** The function [processBatchAction] hands to [setTimeout].  If
    [currentBatch] is [null] when it runs, reading [actions] throws
    after the index has been incremented. *)
Definition onBatchTimeout (p : Player) : Player :=
  let index := S (currentActionIndex p) in
  match currentBatch p with
  | None =>
      {| currentActionIndex := index;
         currentBatch := None; currentBatchId := currentBatchId p;
         batchTimeout := batchTimeout p; rendered := rendered p;
         timers := timers p; nextTimer := nextTimer p;
         randomCalls := randomCalls p |}
  | Some batch =>
      if bool_decide (length (Batch.actions batch) ≤ index) then
        if Batch.loop batch then
          let '(actions, calls) :=
            if Batch.random batch
            then shuffle (Batch.actions batch) (randomCalls p)
            else (Batch.actions batch, randomCalls p) in
          processBatchAction
            {| currentBatch :=
                 Some {| Batch.loop := Batch.loop batch;
                         Batch.random := Batch.random batch;
                         Batch.actions := actions;
                         Batch.batchId := Batch.batchId batch |};
               currentActionIndex := 0;
               randomCalls := calls;
               currentBatchId := currentBatchId p;
               batchTimeout := batchTimeout p; rendered := rendered p;
               timers := timers p; nextTimer := nextTimer p |}
        else
          {| currentBatch := None;
             currentBatchId := None;
             currentActionIndex := index;
             batchTimeout := batchTimeout p; rendered := rendered p;
             timers := timers p; nextTimer := nextTimer p;
             randomCalls := randomCalls p |}
      else
        processBatchAction
          {| currentActionIndex := index;
             currentBatch := currentBatch p; currentBatchId := currentBatchId p;
             batchTimeout := batchTimeout p; rendered := rendered p;
             timers := timers p; nextTimer := nextTimer p;
             randomCalls := randomCalls p |}
  end.

(** The timer [id] fires: it is armed no longer, and its function runs.
    A timer that is not armed cannot fire. *)
Definition fire (id : positive) (p : Player) : Player :=
  if bool_decide (id ∈ (timers p).*1) then
    onBatchTimeout
      {| timers := clearTimeout id (timers p);
         currentBatch := currentBatch p; currentBatchId := currentBatchId p;
         currentActionIndex := currentActionIndex p;
         batchTimeout := batchTimeout p; rendered := rendered p;
         nextTimer := nextTimer p; randomCalls := randomCalls p |}
  else p.

(** The armed timer that was set first fires. *)
Definition tick (p : Player) : Player :=
  match timers p with
  | (id, _) :: _ => fire id p
  | [] => p
  end.

(** What the page goes through: a poll that has settled, or a timer
    that fires. *)
Inductive Event : Set :=
  | Poll (response : Fetched)
  | Timeout (id : positive).

Definition step (p : Player) (e : Event) : Player :=
  match e with
  | Poll response => updateAvatar response p
  | Timeout id => fire id p
  end.

Definition run (p : Player) (events : list Event) : Player := foldl step p events.

End Timers.

(** *** The debug panel

    [#expression-info] has [display: none] in the style sheet and no style
    of its own at first; [DEBUG_MODE] is [false], so [updateDebugInfo]
    never touches it.  The state is [infoElement.style.display]. *)
Definition initialDisplay : string := "".

(** The [keydown] listener. *)
Definition keydown (key : string) (display : string) : string :=
  if bool_decide (key = "d") || bool_decide (key = "D") then
    if bool_decide (display = "none") then "block" else "none"
  else display.

(** The panel is on the page: its own [display], when set, wins over the
    style sheet. *)
Definition panel_visible (display : string) : bool :=
  negb (bool_decide (display = "")) && negb (bool_decide (display = "none")).

End Client.

(** ** From the server to the page

    The body of [/api/current-expression] as [response.json()] hands it to
    the script. *)
Module Wire.

Definition json_action (action : Action.t) : Client.Action.t := {|
  Client.Action.expression := Action.expression action;
  Client.Action.duration := Client.json_number (Action.duration action);
  Client.Action.direction := Action.direction action;
  Client.Action.posX := Client.json_number (Action.posX action);
  Client.Action.posY := Client.json_number (Action.posY action);
  Client.Action.rotation := Client.json_number (Action.rotation action);
  Client.Action.scale := Client.json_number (Action.scale action)
|}.

(** The server stores [random] and [batchId] with every batch. *)
Definition json_batch (b : BatchExpressions) : Client.Batch.t := {|
  Client.Batch.loop := loop b;
  Client.Batch.random := bool_or_false (random b);
  Client.Batch.actions := json_action <$> actions b;
  Client.Batch.batchId := default "" (batchId b)
|}.

Definition json_body (body : Server.CurrentExpression) : Client.Data := {|
  Client.expressionData := {|
    Client.name := name (Server.entry body);
    Client.imageUrl := imageUrl (Server.entry body);
    Client.description := description (Server.entry body);
    Client.direction := direction (Server.state body);
    Client.posX := Client.json_number (posX (Server.state body));
    Client.posY := Client.json_number (posY (Server.state body));
    Client.rotation := Client.json_number (rotation (Server.state body));
    Client.scale := Client.json_number (scale (Server.state body))
  |};
  Client.batchExpressions := json_batch <$> Server.batchExpressions body
|}.

(** [fetch("/api/current-expression")] against a store. *)
Definition fetch (expressions : list Expression) (st : Server.Store) : Client.Fetched :=
  match (Server.get_api_current_expression expressions st).2 with
  | Server.Ok200 body => Client.Json (json_body body)
  | _ => Client.NotOk
  end.

End Wire.

(** * The vocabulary of the properties *)

(** ** Ranges of numbers *)
Module Range.

(** [lo <= x <= hi] as JavaScript compares: false as soon as [x] is [NaN]. *)
Definition within (lo hi x : JS.number) : bool :=
  PrimFloat.leb lo x && PrimFloat.leb x hi.

(** A bound of a clamp: finite, not zero, not [NaN]. *)
Definition ordinary (c : JS.number) : bool :=
  negb (PrimFloat.is_nan c) && negb (PrimFloat.is_zero c)
  && PrimFloat.ltb c PrimFloat.infinity && PrimFloat.ltb PrimFloat.neg_infinity c
  && PrimFloat.leb c c.

(** [Math.max(lo, Math.min(hi, x))] *)
Definition clamp (lo hi x : JS.number) : JS.number :=
  JS.Math_max lo (JS.Math_min hi x).

End Range.

(** ** Reading the store *)
Module Reading.
Import Server.

(** The identifier of the stored batch, if there is one. *)
Definition stored_batchId (st : Store) : option string :=
  batchExpressionsState st ≫= batchId.

(** The identifier a response of [/api/current-expression] shows. *)
Definition shown_batchId (response : Response CurrentExpression) : option string :=
  match response with
  | Ok200 body => batchExpressions body ≫= batchId
  | _ => None
  end.

(** [n] requests of [/api/current-expression] in a row: the responses,
    and the store after the last. *)
Fixpoint reads (expressions : list Expression) (n : nat) (st : Store)
  : list (Response CurrentExpression) * Store :=
  match n with
  | 0 => ([], st)
  | S n =>
      let '(st, response) := get_api_current_expression expressions st in
      let '(responses, st) := reads expressions n st in
      (response :: responses, st)
  end.

End Reading.

(** ** What becomes of a batch *)
Module Outcome.
Import Server.

Section Outcome.

Variable expressions : list Expression.
Variable uuidv4 : nat -> string.

(** The descriptor with its actions replaced. *)
Definition with_actions (b : BatchExpressions) (l : list Action.t) : BatchExpressions :=
  {| loop := loop b; random := random b; actions := l; batchId := batchId b |}.

(** One valid action and no loop: the batch becomes a plain expression. *)
Definition collapses (b : BatchExpressions) : bool :=
  bool_decide (length (validActions expressions b) = 1) && negb (loop b).

Definition collapsed (action : Action.t) (st : Store) : Store := {|
  currentExpression := Action.expression action;
  avatarState := state_of_action action;
  batchExpressionsState := None;
  uuidCalls := uuidCalls st
|}.

(** The identifier a stored batch gets: the one of the caller, or a new one. *)
Definition assigned_batchId (b : BatchExpressions) (st : Store) : string :=
  string_or (batchId b) (uuidv4 (uuidCalls st)).

Definition installed (b : BatchExpressions) (first : Action.t) (st : Store) : Store := {|
  batchExpressionsState :=
    Some {| loop := loop b; actions := actions b;
            random := Some (bool_or_false (random b));
            batchId := Some (assigned_batchId b st) |};
  currentExpression := Action.expression first;
  avatarState := state_of_action first;
  uuidCalls := if negb (truthy_string (batchId b)) then S (uuidCalls st) else uuidCalls st
|}.

End Outcome.

End Outcome.

(** ** Requests *)
Module Requests.
Import Server Reading Outcome.

(** What reaches the server: the two HTTP requests, the two callbacks of the
    MCP module, and the two legacy tools. *)
Inductive Request : Set :=
  | CurrentExpressionOverHttp
  | SetExpressionOverHttp (q : Query.t)
  | ExpressionUpdate (name : string) (state : AvatarState)
  | BatchExpressionsUpdate (batchExpressions : BatchExpressions)
  | SetAvatarExpressionTool (name : string) (direction : option string)
      (posX posY rotation scale : option JS.number)
  | SetBatchExpressionsTool (loop : bool) (random : option bool)
      (actions : list RawAction.t).

Section Requests.

Variable expressions : list Expression.
Variable uuidv4 : nat -> string.

(** The store after a request. *)
Definition serve (r : Request) (st : Store) : Store :=
  match r with
  | CurrentExpressionOverHttp => (get_api_current_expression expressions st).1
  | SetExpressionOverHttp q => (get_api_set_expression expressions q st).1
  | ExpressionUpdate name state => handleExpressionUpdate expressions name state st
  | BatchExpressionsUpdate b => (handleBatchExpressionsUpdate expressions uuidv4 b st).1
  | SetAvatarExpressionTool name d x y r k =>
      (setAvatarExpression expressions name d x y r k st).1
  | SetBatchExpressionsTool loop random actions =>
      (setBatchExpressions expressions uuidv4 loop random actions st).1.1
  end.

(** One more identifier drawn from [uuidv4]. *)
Definition drawn (st : Store) : Store := {|
  currentExpression := currentExpression st;
  avatarState := avatarState st;
  batchExpressionsState := batchExpressionsState st;
  uuidCalls := S (uuidCalls st)
|}.

(** The descriptor a request hands to [handleBatchExpressionsUpdate], with
    the store at that point. *)
Definition descriptor (r : Request) (st : Store) : option (BatchExpressions * Store) :=
  match r with
  | BatchExpressionsUpdate b => Some (b, st)
  | SetBatchExpressionsTool loop random (action :: actions) =>
      match map_throwing (prepareAction expressions) (action :: actions) with
      | Normal prepared =>
          Some (Build_BatchExpressions loop (Some (bool_or_false random)) prepared
                                       (Some (uuidv4 (uuidCalls st))),
                drawn st)
      | Throw _ => None
      end
  | _ => None
  end.

(** A request installs a new batch when it hands over a descriptor with a
    valid action that is not turned into a plain expression. *)
Definition installs (r : Request) (st : Store) : Prop :=
  ∃ b st0, descriptor r st = Some (b, st0)
           ∧ validActions expressions b ≠ []
           ∧ collapses expressions b = false.

(** The identifier the batch of a request would be stored under. *)
Definition new_batchId (r : Request) (st : Store) : option string :=
  (fun d => assigned_batchId uuidv4 d.1 d.2) <$> descriptor r st.

(** The response shows an identifier, and it is not the one [st] has. *)
Definition batchId_changed (st st' : Store) : Prop :=
  ∃ j, stored_batchId st' = Some j ∧ stored_batchId st ≠ Some j.

End Requests.

End Requests.

(** ** Frames *)
Module Frames.
Import Client.

(** The player after [processBatchAction] has drawn [action] as frame
    [index] of [batch]. *)
Definition showing (batch : Batch.t) (index : nat) (action : Action.t) (calls : nat)
    (p : Player) : Player := {|
  currentBatch := Some batch;
  currentBatchId := currentBatchId p;
  currentActionIndex := index;
  batchTimeout := Some (nextTimer p);
  rendered := rendered p ++ [expressionData_of action];
  timers := [(nextTimer p, default 0%float (Action.duration action))];
  nextTimer := Pos.succ (nextTimer p);
  randomCalls := calls
|}.

End Frames.

(** ** What the store and the page keep *)
Module Invariants.
Import Server Range Reading Outcome Requests.

Section Store.

Variable expressions : list Expression.
Variable uuidv4 : nat -> string.

(** The name is one of the catalog. *)
Definition accepted (name : string) : Prop :=
  is_Some (expressionMap expressions !! name).

(** The current expression is one of the catalog. *)
Definition resolves (st : Store) : Prop := accepted (currentExpression st).

(** The shape of a batch the store holds. *)
Definition well_formed (b : BatchExpressions) : Prop :=
  actions b ≠ []
  ∧ Forall (fun action => accepted (Action.expression action)) (actions b)
  ∧ (length (actions b) = 1 → loop b = true)
  ∧ is_Some (random b)
  ∧ is_Some (batchId b).

Definition batch_ok (st : Store) : Prop :=
  ∀ b, batchExpressionsState st = Some b → well_formed b ∧ resolves st.

(** The store after a run of requests. *)
Definition serve_all (requests : list Request) (st : Store) : Store :=
  foldl (fun st r => serve expressions uuidv4 r st) st requests.

(** An element of [actions] the legacy tool [setBatchExpressions] takes. *)
Definition acceptable (action : RawAction.t) : Prop :=
  ∃ expression duration,
    RawAction.expression action = Some expression
    ∧ expression ≠ ""
    ∧ accepted expression
    ∧ RawAction.duration action = Some duration
    ∧ PrimFloat.leb duration 0 = false.

End Store.

(** Rotation and scale are within their ranges. *)
Definition in_range (s : AvatarState) : Prop :=
  within (-30) 30 (rotation s) = true ∧ within 0.1 3.0 (scale s) = true.

(** The numbers a request brings can be clamped: what [parseInt] reads for
    the rotation is not [NaN], the rotation and scale handed to a tool are
    not [NaN], and what a callback is handed is within the ranges already. *)
Definition tame (r : Request) : Prop :=
  match r with
  | CurrentExpressionOverHttp => True
  | SetExpressionOverHttp q =>
      ∀ v, Query.rotation q = Some v → JS.isNaN (JS.parseInt10 v) = false
  | ExpressionUpdate _ state => in_range state
  | BatchExpressionsUpdate b =>
      Forall (fun action => in_range (state_of_action action)) (actions b)
  | SetAvatarExpressionTool _ _ _ _ r k =>
      (∀ v, r = Some v → JS.isNaN v = false) ∧ (∀ v, k = Some v → JS.isNaN v = false)
  | SetBatchExpressionsTool _ _ actions =>
      Forall (fun action =>
                (∀ v, RawAction.rotation action = Some v → JS.isNaN v = false)
                ∧ (∀ v, RawAction.scale action = Some v → JS.isNaN v = false))
             actions
  end.

(** [expressionMap] is an object literal.  In JavaScript a lookup of a name
    it inherits from [Object.prototype] finds the inherited property, and an
    entry named [__proto__] does not become a property of its own.  The
    lookups of the embedding are the lookups of the names outside this
    list, in a catalog without such an entry. *)
Definition Object_prototype_names : list string :=
  ["constructor"; "hasOwnProperty"; "isPrototypeOf"; "propertyIsEnumerable";
   "toLocaleString"; "toString"; "valueOf"; "__proto__";
   "__defineGetter__"; "__defineSetter__"; "__lookupGetter__"; "__lookupSetter__"].

Definition own_name (n : string) : Prop := n ∉ Object_prototype_names.

Definition plain_catalog (expressions : list Expression) : Prop :=
  "__proto__" ∉ name <$> expressions.

(** The names a request carries are not inherited ones. *)
Definition plain (r : Request) : Prop :=
  match r with
  | CurrentExpressionOverHttp => True
  | SetExpressionOverHttp q => ∀ n, Query.name q = Some n → own_name n
  | ExpressionUpdate n _ => own_name n
  | BatchExpressionsUpdate b =>
      Forall (fun action => own_name (Action.expression action)) (actions b)
  | SetAvatarExpressionTool n _ _ _ _ _ => own_name n
  | SetBatchExpressionsTool _ _ actions =>
      Forall (fun action => ∀ n, RawAction.expression action = Some n → own_name n)
             actions
  end.

(** The module of the MCP tools and the server hold the same expression and
    the same avatar state. *)
Definition agree (w : Mcp.State * Store) : Prop :=
  Mcp.currentExpression w.1 = currentExpression w.2
  ∧ Mcp.avatarState w.1 = avatarState w.2.

(** At most one timer is armed; it is the one [batchTimeout] holds, and
    while it is armed the player has a batch and stands on one of its
    actions. *)
Definition steady (p : Client.Player) : Prop :=
  Client.timers p = []
  ∨ ∃ id delay batch,
      Client.timers p = [(id, delay)]
      ∧ Client.batchTimeout p = Some id
      ∧ Client.currentBatch p = Some batch
      ∧ Client.currentActionIndex p < length (Client.Batch.actions batch).

(** How often [d] or [D] is among the keys pressed. *)
Definition presses (keys : list string) : nat :=
  length (filter (fun key => key = "d" ∨ key = "D") keys).

End Invariants.

(** ** Sample data

    A small catalog, batches, queries and the stores and players they lead
    to, on which the statements below are run. *)
Module Samples.
Import Server Requests.

Definition joyful : Expression := {|
  name := "joyful";
  imageUrl := "/images/joyful.png";
  description := "Happy and celebratory expression";
  useCases := "When tests pass, code works correctly, or celebrating achievements"
|}.

Definition perplexed : Expression := {|
  name := "perplexed";
  imageUrl := "/images/perplexed.png";
  description := "Confused expression";
  useCases := "When an error is hard to explain"
|}.

Definition catalog : list Expression := [joyful; perplexed].

(** Identifiers in place of the ones [uuidv4()] draws. *)
Definition ids (n : nat) : string := String (ascii_of_nat (97 + n)) "-0000".

Definition frame (expression : string) (duration : JS.number) (direction : Direction)
  : Action.t := {|
  Action.expression := expression;
  Action.duration := duration;
  Action.direction := direction;
  Action.posX := 0;
  Action.posY := 0;
  Action.rotation := 0;
  Action.scale := 1
|}.

Definition twoFrames (loop : bool) : BatchExpressions := {|
  loop := loop;
  random := None;
  actions := [frame "joyful" 100 Right; frame "perplexed" 200 Left];
  batchId := None
|}.

(** The store while the looping batch of two frames is active. *)
Definition batchActive : Store :=
  (handleBatchExpressionsUpdate catalog ids (twoFrames true) initialStore).1.

(** A store whose avatar state has left the defaults. *)
Definition moved : Store := {|
  currentExpression := "joyful";
  avatarState := {| direction := Left; posX := 40; posY := -25; rotation := 15; scale := 0.5 |};
  batchExpressionsState := None;
  uuidCalls := 0
|}.

(** [?name=joyful] and nothing else. *)
Definition onlyName (name : string) : Query.t := {|
  Query.name := Some name;
  Query.direction := None;
  Query.pos_x := None;
  Query.pos_y := None;
  Query.rotation := None;
  Query.scale := None
|}.

(** [?name=joyful&rotation=abc] *)
Definition rotationAbc : Query.t := {|
  Query.name := Some "joyful";
  Query.direction := None;
  Query.pos_x := None;
  Query.pos_y := None;
  Query.rotation := Some "abc";
  Query.scale := None
|}.

(** [?name=perplexed&pos_x=px12&pos_y=&rotation=left&scale=big] *)
Definition nothingNumeric : Query.t := {|
  Query.name := Some "perplexed";
  Query.direction := None;
  Query.pos_x := Some "px12";
  Query.pos_y := Some "";
  Query.rotation := Some "left";
  Query.scale := Some "big"
|}.

(** [?name=perplexed&pos_x=-20] *)
Definition onlyPosX : Query.t := {|
  Query.name := Some "perplexed";
  Query.direction := None;
  Query.pos_x := Some "-20";
  Query.pos_y := None;
  Query.rotation := None;
  Query.scale := None
|}.

(** The store and the answers the two calls of the witness below lead to. *)
Definition movedAvatar (x r : JS.number) : AvatarState :=
  {| direction := Left; posX := x; posY := -25; rotation := r; scale := 0.5 |}.

Definition movedStore (name : string) (x r : JS.number) : Store := {|
  currentExpression := name;
  avatarState := movedAvatar x r;
  batchExpressionsState := None;
  uuidCalls := 0
|}.

(** Three actions none of which is in the catalog, and three of which one
    is not. *)
Definition threeUnknown : BatchExpressions := {|
  loop := true;
  random := None;
  actions := [frame "grumpy" 100 Right; frame "sleepy" 100 Right;
              frame "dopey" 100 Left];
  batchId := None
|}.

Definition oneUnknown : BatchExpressions := {|
  loop := false;
  random := Some true;
  actions := [frame "perplexed" 300 Left; frame "grumpy" 100 Right;
              frame "joyful" 100 Right];
  batchId := None
|}.

(** An action that moves, turns and scales the avatar, after an unknown one,
    not looping. *)
Definition tilted : Action.t := {|
  Action.expression := "perplexed";
  Action.duration := 300;
  Action.direction := Left;
  Action.posX := 12;
  Action.posY := -7;
  Action.rotation := 20;
  Action.scale := 2
|}.

Definition oneTilted : BatchExpressions := {|
  loop := false;
  random := None;
  actions := [frame "grumpy" 100 Right; tilted];
  batchId := Some "mine"
|}.

(** The tool is asked for a looping batch of two frames while another batch
    is active. *)
Definition rawFrame (expression : string) (duration : JS.number) : RawAction.t := {|
  RawAction.expression := Some expression;
  RawAction.duration := Some duration;
  RawAction.direction := None;
  RawAction.posX := None;
  RawAction.posY := None;
  RawAction.rotation := None;
  RawAction.scale := None
|}.

Definition anotherBatch : Request :=
  SetBatchExpressionsTool true None [rawFrame "perplexed" 250; rawFrame "joyful" 750].

(** Another batch, handed over with the identifier of the batch of two
    frames. *)
Definition resupplied : BatchExpressions := {|
  loop := true;
  random := Some true;
  actions := [frame "perplexed" 300 Left; frame "joyful" 100 Right];
  batchId := Some "a-0000"
|}.

(** Values in place of the ones [Math.random()] returns. *)
Definition randoms (n : nat) : JS.number :=
  match n with
  | 0 => 0.1
  | 1 => 0.9
  | 2 => 0.7
  | 3 => 0.2
  | _ => 0.6
  end%float.

(** The store once the batch of two frames that does not loop has been
    received, and what the page fetches from it. *)
Definition playedOnce : Store :=
  (handleBatchExpressionsUpdate catalog ids (twoFrames false) initialStore).1.

Definition seenOnce : Client.Fetched := Wire.fetch catalog playedOnce.

(** A looping batch of three frames that is shuffled on each wrap. *)
Definition threeFrames : Client.Batch.t := {|
  Client.Batch.loop := true;
  Client.Batch.random := true;
  Client.Batch.actions :=
    Wire.json_action
      <$> [frame "joyful" 100 Right; frame "perplexed" 200 Left; frame "joyful" 300 Left];
  Client.Batch.batchId := "c-0000"
|}.

Definition seenThree : Client.Data := {|
  Client.expressionData :=
    Client.expressionData_of (Wire.json_action (frame "joyful" 100 Right));
  Client.batchExpressions := Some threeFrames
|}.

(** The page has drawn the three frames once and waits on the last. *)
Definition onLastFrame : Client.Player :=
  Client.run randoms Client.initialPlayer
    [Client.Poll (Client.Json seenThree); Client.Timeout 1; Client.Timeout 2].

(** [node dist/index.js --mcp --port 8080] *)
Definition argvMcpPort : list string :=
  ["/usr/bin/node"; "/app/dist/index.js"; "--mcp"; "--port"; "8080"].

(** [node dist/index.js --port 8080 --port 9090] *)
Definition argvTwoPorts : list string :=
  ["/usr/bin/node"; "/app/dist/index.js"; "--port"; "8080"; "--port"; "9090"].

(** [rustybutter-avatar -p 39303 -m] and [rustybutter-avatar --port 4000]
    as [commander] reads them. *)
Definition optsShortMcp : Cli.Opts := {|
  Cli.port := "39303";
  Cli.detached := false;
  Cli.log := "rustybutter.log";
  Cli.stop := false;
  Cli.mcp := true
|}.

Definition optsPort : Cli.Opts := {|
  Cli.port := "4000";
  Cli.detached := false;
  Cli.log := "rustybutter.log";
  Cli.stop := false;
  Cli.mcp := false
|}.

Definition noEnv : Env.t := {| Env.PORT := None; Env.MCP_MODE := None; Env.MCP := None |}.

(** No server is running and the server has been built. *)
Definition freshWorld : Cli.World := {|
  Cli.pidFile := false;
  Cli.restart := false;
  Cli.mainFileExists := true
|}.

(** What the page receives while the store holds no batch, and the batch
    of two frames as the page receives it. *)
Definition plainData : Client.Data := {|
  Client.expressionData :=
    Client.expressionData_of (Wire.json_action (frame "perplexed" 0 Left));
  Client.batchExpressions := None
|}.

Definition twoSeen (loop : bool) : Client.Batch.t := {|
  Client.Batch.loop := loop;
  Client.Batch.random := false;
  Client.Batch.actions := Wire.json_action <$> actions (twoFrames loop);
  Client.Batch.batchId := "a-0000"
|}.

Definition polled (batch : Client.Batch.t) : Client.Data := {|
  Client.expressionData :=
    Client.expressionData_of (Wire.json_action (frame "joyful" 100 Right));
  Client.batchExpressions := Some batch
|}.

(** A run of requests, some of which are refused. *)
Definition traffic : list Request :=
  [ SetExpressionOverHttp (onlyName "grumpy");
    BatchExpressionsUpdate oneUnknown;
    SetAvatarExpressionTool "sleepy" None None None None None;
    anotherBatch;
    BatchExpressionsUpdate threeUnknown;
    SetExpressionOverHttp onlyPosX;
    CurrentExpressionOverHttp ].

(** An action for the legacy tool that leans and grows past the ranges and
    has no number for [posX]. *)
Definition rawLeaning : RawAction.t := {|
  RawAction.expression := Some "perplexed";
  RawAction.duration := Some 400%float;
  RawAction.direction := Some "up";
  RawAction.posX := Some PrimFloat.nan;
  RawAction.posY := None;
  RawAction.rotation := Some 45%float;
  RawAction.scale := Some 5%float
|}.

End Samples.

(** * Properties *)

(** ** Numbers *)
Module NumberFacts.
Import Range.

Lemma ltb_leb (x y : float) : PrimFloat.ltb x y = true -> PrimFloat.leb x y = true.
Proof.
  rewrite FloatAxioms.ltb_spec, FloatAxioms.leb_spec. unfold SFltb, SFleb.
  destruct (SFcompare _ _) as [[]|]; congruence.
Qed.

Lemma within_nan (lo hi x : float) : PrimFloat.is_nan x = true -> within lo hi x = false.
Proof.
  unfold within, PrimFloat.is_nan. rewrite FloatAxioms.eqb_spec, !FloatAxioms.leb_spec.
  intros H. apply negb_true_iff in H.
  unfold SFeqb in H. unfold SFleb.
  destruct (Prim2SF x) as [[]|[]| |[] m e]; destruct (Prim2SF lo) as [[]|[]| |[] ? ?];
    try reflexivity; cbn in H |- *; try discriminate;
    rewrite ?Z.compare_refl, ?Pos.compare_refl in H; try discriminate.
  all: try (destruct (Z.compare _ _); discriminate).
Qed.

Ltac ordinary_facts H :=
  unfold ordinary in H;
  repeat (apply andb_prop in H; destruct H as [H ?]);
  repeat match goal with
         | H : negb _ = true |- _ => apply negb_true_iff in H
         end.

Lemma Math_min_ordinary (c x : JS.number) :
  ordinary c = true ->
  JS.Math_min c x =
    if PrimFloat.is_nan x then PrimFloat.nan
    else if PrimFloat.ltb x c then x else c.
Proof.
  intros Hc. ordinary_facts Hc.
  unfold JS.Math_min, JS.min_loop, JS.is_neg_zero, JS.is_pos_zero.
  repeat match goal with H : _ = _ |- _ => rewrite H end.
  cbn [andb]. rewrite andb_false_r.
  destruct (PrimFloat.is_nan x); [reflexivity|].
  destruct (PrimFloat.ltb x c); reflexivity.
Qed.

Lemma Math_max_ordinary (c x : JS.number) :
  ordinary c = true ->
  JS.Math_max c x =
    if PrimFloat.is_nan x then PrimFloat.nan
    else if PrimFloat.ltb c x then x else c.
Proof.
  intros Hc. ordinary_facts Hc.
  unfold JS.Math_max, JS.max_loop, JS.is_neg_zero, JS.is_pos_zero.
  repeat match goal with H : _ = _ |- _ => rewrite H end.
  cbn [andb]. rewrite andb_false_r.
  destruct (PrimFloat.is_nan x); [reflexivity|].
  destruct (PrimFloat.ltb c x); reflexivity.
Qed.

(** A number that is not [NaN] is clamped into the range. *)
Lemma clamp_within (lo hi x : JS.number) :
  ordinary lo = true -> ordinary hi = true -> PrimFloat.leb lo hi = true ->
  PrimFloat.is_nan x = false ->
  within lo hi (clamp lo hi x) = true.
Proof.
  intros Hlo Hhi Hle Hx. unfold clamp, within.
  rewrite (Math_min_ordinary hi x Hhi), Hx.
  rewrite (Math_max_ordinary lo _ Hlo).
  ordinary_facts Hlo. ordinary_facts Hhi.
  destruct (PrimFloat.ltb x hi) eqn:Hxhi.
  - rewrite Hx. destruct (PrimFloat.ltb lo x) eqn:Hlox.
    + rewrite (ltb_leb _ _ Hlox), (ltb_leb _ _ Hxhi). reflexivity.
    + apply andb_true_intro; split; assumption.
  - replace (PrimFloat.is_nan hi) with false by congruence.
    destruct (PrimFloat.ltb lo hi) eqn:Hlohi.
    + apply andb_true_intro; split; assumption.
    + apply andb_true_intro; split; assumption.
Qed.

(** [NaN] goes through a clamp unchanged. *)
Lemma clamp_nan (lo hi x : JS.number) :
  PrimFloat.is_nan x = true -> clamp lo hi x = PrimFloat.nan.
Proof.
  intros Hx. unfold clamp.
  assert (JS.Math_min hi x = PrimFloat.nan) as ->.
  { unfold JS.Math_min, JS.min_loop. rewrite Hx.
    destruct (PrimFloat.is_nan hi); [reflexivity|].
    destruct (_ && _); [reflexivity|]. destruct (PrimFloat.ltb _ _); reflexivity. }
  unfold JS.Math_max, JS.max_loop.
  change (PrimFloat.is_nan PrimFloat.nan) with true.
  destruct (PrimFloat.is_nan lo); [reflexivity|].
  destruct (_ && _); [reflexivity|]. destruct (PrimFloat.ltb _ _); reflexivity.
Qed.

End NumberFacts.

(** ** The state store *)
Module ServerFacts.
Import Server Range Reading NumberFacts.

Section Store.

Variable expressions : list Expression.
Variable uuidv4 : nat -> string.

Abbreviation expressionMap := (Server.expressionMap expressions).
Abbreviation reads := (Reading.reads expressions).

Lemma get_api_current_expression_store (st : Store) :
  (get_api_current_expression expressions st).1 = st.
Proof.
  unfold get_api_current_expression. destruct (_ !! _); reflexivity.
Qed.

Lemma reads_replicate (n : nat) (st : Store) :
  reads n st = (replicate n (get_api_current_expression expressions st).2, st).
Proof.
  induction n as [|n IH]; [reflexivity|]. cbn [reads replicate].
  pose proof (get_api_current_expression_store st) as Hst.
  destruct (get_api_current_expression expressions st) as [st1 response].
  cbn in Hst. subst st1. rewrite IH. reflexivity.
Qed.

Lemma shown_batchId_ok (st : Store) (body : CurrentExpression) :
  (get_api_current_expression expressions st).2 = Ok200 body ->
  batchExpressions body ≫= batchId = stored_batchId st.
Proof.
  unfold get_api_current_expression, stored_batchId.
  destruct (_ !! _); cbn; [|discriminate].
  intros [= <-]. cbn. destruct (batchExpressionsState st); reflexivity.
Qed.

(** The request of [/api/set-expression] never touches the batch. *)
Lemma get_api_set_expression_batch (q : Query.t) (st : Store) :
  batchExpressionsState (get_api_set_expression expressions q st).1
  = batchExpressionsState st.
Proof.
  unfold get_api_set_expression.
  destruct (_ ≫= _) as [[name e]|]; reflexivity.
Qed.

(** The callback of the MCP module and the legacy tool do clear it. *)
Lemma handleExpressionUpdate_batch (name : string) (state : AvatarState) (st : Store) :
  is_Some (expressionMap !! name) ->
  batchExpressionsState (handleExpressionUpdate expressions name state st) = None.
Proof.
  intros [e He]. unfold handleExpressionUpdate. rewrite He. reflexivity.
Qed.

Lemma setAvatarExpression_batch
    (name : string) (direction : option string)
    (posX posY rotation scale : option JS.number) (st : Store) :
  is_Some (expressionMap !! name) ->
  batchExpressionsState
    (setAvatarExpression expressions name direction posX posY rotation scale st).1 = None.
Proof.
  intros [e He]. unfold setAvatarExpression. rewrite He. reflexivity.
Qed.

(** What a successful [GET /api/set-expression] leaves in the store and
    answers: each field of the avatar state is either the old one or read
    from the query. *)
Lemma get_api_set_expression_known (q : Query.t) (st : Store) (name : string) (e : Expression) :
  Query.name q = Some name ->
  expressionMap !! name = Some e ->
  ∃ s : AvatarState,
    get_api_set_expression expressions q st
    = ({| currentExpression := name; avatarState := s;
          batchExpressionsState := batchExpressionsState st; uuidCalls := uuidCalls st |},
       Ok200 {| success := true; set_entry := e; set_state := s |})
    ∧ direction s = default (direction (avatarState st)) (Query.direction q ≫= as_direction)
    ∧ posX s = default (posX (avatarState st)) (JS.parseInt10 <$> Query.pos_x q)
    ∧ posY s = default (posY (avatarState st)) (JS.parseInt10 <$> Query.pos_y q)
    ∧ rotation s
      = default (rotation (avatarState st))
                (clamp (-30) 30 ∘ JS.parseInt10 <$> Query.rotation q)
    ∧ scale s
      = match Query.scale q with
        | Some v =>
            if JS.isNaN (JS.parseFloat v) then scale (avatarState st)
            else clamp 0.1 3.0 (JS.parseFloat v)
        | None => scale (avatarState st)
        end.
Proof.
  intros Hname He. unfold get_api_set_expression. rewrite Hname. cbn. rewrite He. cbn.
  eexists. split; [reflexivity|].
  destruct q as [qn [d|] [x|] [y|] [r|] [k|]]; cbn;
    try destruct (as_direction d); cbn;
    try destruct (JS.isNaN (JS.parseFloat k)); cbn;
    repeat split; reflexivity.
Qed.

(** The same for the legacy tool. *)
Lemma setAvatarExpression_known
    (name : string) (d : option string) (x y r k : option JS.number)
    (st : Store) (e : Expression) :
  expressionMap !! name = Some e ->
  ∃ s : AvatarState,
    setAvatarExpression expressions name d x y r k st
    = ({| currentExpression := name; avatarState := s;
          batchExpressionsState := None; uuidCalls := uuidCalls st |},
       Normal {| avatar_success := true;
                 avatar_message := "Avatar expression set to " +:+ name;
                 avatar_expression := e; avatar_state := s |})
    ∧ direction s = default (direction (avatarState st)) (d ≫= as_direction)
    ∧ posX s = default (posX (avatarState st)) x
    ∧ posY s = default (posY (avatarState st)) y
    ∧ rotation s = default (rotation (avatarState st)) (clamp (-30) 30 <$> r)
    ∧ scale s = default (scale (avatarState st)) (clamp 0.1 3.0 <$> k).
Proof.
  intros He. unfold setAvatarExpression. rewrite He.
  eexists. split; [reflexivity|].
  destruct d as [d|], x, y, r, k; cbn; try destruct (as_direction d); cbn;
    repeat split; reflexivity.
Qed.

Lemma get_api_set_expression_ok_inv
    (q : Query.t) (st st' : Store) (body : SetExpression) :
  get_api_set_expression expressions q st = (st', Ok200 body) ->
  ∃ name e, Query.name q = Some name ∧ expressionMap !! name = Some e.
Proof.
  unfold get_api_set_expression.
  destruct (Query.name q) as [name|]; cbn; [|discriminate].
  destruct (expressionMap !! name) as [e|] eqn:He; cbn; [|discriminate].
  intros _. exists name, e. split; [reflexivity|assumption].
Qed.

Lemma setAvatarExpression_ok_inv
    (name : string) (d : option string) (x y r k : option JS.number)
    (st st' : Store) (result : SetAvatarResult) :
  setAvatarExpression expressions name d x y r k st = (st', Normal result) ->
  ∃ e, expressionMap !! name = Some e.
Proof.
  unfold setAvatarExpression.
  destruct (expressionMap !! name) as [e|]; [|discriminate].
  intros _. exists e. reflexivity.
Qed.

(** Over HTTP the scale stays within its range: the clamp is applied only
    to a number. *)
Lemma get_api_set_expression_scale_within (q : Query.t) (st : Store) :
  within 0.1 3.0 (scale (avatarState st)) = true ->
  within 0.1 3.0 (scale (avatarState (get_api_set_expression expressions q st).1)) = true.
Proof.
  intros Hold.
  destruct (Query.name q ≫= (fun name => (fun e => (name, e)) <$> expressionMap !! name))
    as [[name e]|] eqn:Hq.
  - destruct (Query.name q) as [name'|] eqn:Hname; [|discriminate Hq]. cbn in Hq.
    destruct (expressionMap !! name') as [e'|] eqn:He; [|discriminate Hq].
    destruct (get_api_set_expression_known q st name' e' Hname He)
      as (s & -> & _ & _ & _ & _ & Hk).
    cbn [fst avatarState]. rewrite Hk.
    destruct (Query.scale q) as [v|]; [|exact Hold].
    destruct (JS.isNaN (JS.parseFloat v)) eqn:Hnan; [exact Hold|].
    apply clamp_within; [reflexivity..|exact Hnan].
  - unfold get_api_set_expression. rewrite Hq. exact Hold.
Qed.

(** The rotation stays within its range too, unless it becomes [NaN]. *)
Lemma get_api_set_expression_rotation_within (q : Query.t) (st : Store) :
  within (-30) 30 (rotation (avatarState st)) = true ->
  within (-30) 30 (rotation (avatarState (get_api_set_expression expressions q st).1)) = true
  ∨ JS.isNaN (rotation (avatarState (get_api_set_expression expressions q st).1)) = true.
Proof.
  intros Hold.
  destruct (Query.name q ≫= (fun name => (fun e => (name, e)) <$> expressionMap !! name))
    as [[name e]|] eqn:Hq.
  - destruct (Query.name q) as [name'|] eqn:Hname; [|discriminate Hq]. cbn in Hq.
    destruct (expressionMap !! name') as [e'|] eqn:He; [|discriminate Hq].
    destruct (get_api_set_expression_known q st name' e' Hname He)
      as (s & -> & _ & _ & _ & Hr & _).
    cbn [fst avatarState]. rewrite Hr.
    destruct (Query.rotation q) as [v|]; [|left; exact Hold].
    change (within (-30) 30 (clamp (-30) 30 (JS.parseInt10 v)) = true
            ∨ JS.isNaN (clamp (-30) 30 (JS.parseInt10 v)) = true).
    destruct (PrimFloat.is_nan (JS.parseInt10 v)) eqn:Hnan.
    + right. rewrite (clamp_nan _ _ _ Hnan). reflexivity.
    + left. apply clamp_within; [reflexivity..|exact Hnan].
  - left. unfold get_api_set_expression. rewrite Hq. exact Hold.
Qed.

(** The tool of the MCP module reaches the store through
    [handleExpressionUpdate]: the batch is cleared, and the avatar state the
    store receives is the copy the module keeps, with the supplied fields
    written over it. *)
Lemma Mcp_setAvatarExpression_store
    (randomId : nat -> string) (name : string) (d : option Direction)
    (x y r k : option JS.number) (m : Mcp.State) (st : Store) :
  is_Some (expressionMap !! name) ->
  let st' := (Mcp.setAvatarExpression expressions name d x y r k (m, st)).1.2 in
  batchExpressionsState st' = None
  ∧ currentExpression st' = name
  ∧ direction (avatarState st') = default (direction (Mcp.avatarState m)) d
  ∧ posX (avatarState st') = default (posX (Mcp.avatarState m)) x
  ∧ posY (avatarState st') = default (posY (Mcp.avatarState m)) y
  ∧ rotation (avatarState st') = default (rotation (Mcp.avatarState m)) (clamp (-30) 30 <$> r)
  ∧ scale (avatarState st') = default (scale (Mcp.avatarState m)) (clamp 0.1 3.0 <$> k).
Proof.
  intros [e He]. unfold Mcp.setAvatarExpression, handleExpressionUpdate.
  rewrite He. cbn [fst snd].
  cbn [batchExpressionsState currentExpression avatarState].
  destruct d, x, y, r, k; repeat split; reflexivity.
Qed.

End Store.

End ServerFacts.

(** ** The catalog *)
Module CatalogFacts.
Import Server Invariants.

Lemma expressionMap_snoc (l : list Expression) (e : Expression) :
  expressionMap (l ++ [e]) = <[name e := e]> (expressionMap l).
Proof. unfold expressionMap. rewrite foldl_snoc. reflexivity. Qed.

Lemma expressionMap_lookup (l : list Expression) (n : string) (e : Expression) :
  expressionMap l !! n = Some e -> name e = n ∧ e ∈ l.
Proof.
  induction l as [|x l IH] using rev_ind.
  - unfold expressionMap. cbn. rewrite lookup_empty. discriminate.
  - rewrite expressionMap_snoc, lookup_insert. case_decide as Hn.
    + intros [= <-]. split; [exact Hn|]. rewrite elem_of_app, list_elem_of_singleton. auto.
    + intros H. apply IH in H as [H1 H2]. split; [exact H1|].
      rewrite elem_of_app. auto.
Qed.

Lemma expressionMap_accepts (l : list Expression) (n : string) :
  is_Some (expressionMap l !! n) ↔ n ∈ name <$> l.
Proof.
  induction l as [|x l IH] using rev_ind.
  - unfold expressionMap. cbn. rewrite lookup_empty, elem_of_nil.
    split; [intros [? H]; discriminate H|tauto].
  - rewrite expressionMap_snoc, lookup_insert, fmap_app, elem_of_app. cbn.
    rewrite list_elem_of_singleton. case_decide as Hn.
    + split; [auto|eauto].
    + rewrite IH. split; [auto|]. intros [H|H]; [exact H|congruence].
Qed.

Lemma Object_keys_snoc (l : list Expression) (e : Expression) :
  Object_keys (l ++ [e])
  = if bool_decide (name e ∈ Object_keys l) then Object_keys l
    else Object_keys l ++ [name e].
Proof. unfold Object_keys. rewrite foldl_snoc. reflexivity. Qed.

Lemma Object_keys_lists (l : list Expression) (n : string) :
  n ∈ Object_keys l ↔ n ∈ name <$> l.
Proof.
  induction l as [|x l IH] using rev_ind; [reflexivity|].
  rewrite Object_keys_snoc, fmap_app, elem_of_app. cbn. rewrite list_elem_of_singleton.
  case_bool_decide as Hin.
  - rewrite IH. split; [auto|]. intros [H|H]; [exact H|]. subst n. apply IH. exact Hin.
  - rewrite elem_of_app, list_elem_of_singleton, IH. reflexivity.
Qed.

Lemma Object_keys_NoDup (l : list Expression) : NoDup (Object_keys l).
Proof.
  induction l as [|x l IH] using rev_ind; [apply NoDup_nil_2|].
  rewrite Object_keys_snoc. case_bool_decide as Hin; [exact IH|].
  apply NoDup_app. split; [exact IH|]. split; [|apply NoDup_singleton].
  intros y Hy Hy'. apply list_elem_of_singleton in Hy'. subst y. exact (Hin Hy).
Qed.

Lemma expressionMap_last (before after : list Expression) (e : Expression) :
  name e ∉ name <$> after ->
  expressionMap (before ++ e :: after) !! name e = Some e.
Proof.
  induction after as [|x after IH] using rev_ind; intros Hno.
  - rewrite expressionMap_snoc. apply lookup_insert_eq.
  - rewrite fmap_app, not_elem_of_app in Hno. destruct Hno as [Hafter Hx].
    cbn in Hx. rewrite list_elem_of_singleton in Hx.
    change (before ++ e :: after ++ [x]) with (before ++ (e :: after) ++ [x]).
    rewrite app_assoc, expressionMap_snoc, lookup_insert_ne by congruence.
    apply IH. exact Hafter.
Qed.

(** X4: in a catalog without an entry named [__proto__], the names
    [Object.keys(expressionMap)] lists are exactly the names of the entries
    of [expressionMap], each listed once; an entry of [expressionMap] is an
    entry of the catalog under its own name, and of several entries with
    one name the last one. *)
Theorem catalog_lists_what_it_accepts (expressions : list Expression) :
  plain_catalog expressions →
  (∀ n, n ∈ Object_keys expressions ↔ accepted expressions n)
  ∧ NoDup (Object_keys expressions)
  ∧ (∀ n e, expressionMap expressions !! n = Some e → name e = n ∧ e ∈ expressions)
  ∧ (∀ before e after,
       expressions = before ++ e :: after → name e ∉ name <$> after →
       expressionMap expressions !! name e = Some e).
Proof.
  intros _. split; [|split; [|split]].
  - intros n. unfold accepted. rewrite expressionMap_accepts. apply Object_keys_lists.
  - apply Object_keys_NoDup.
  - apply expressionMap_lookup.
  - intros before e after -> Hno. apply expressionMap_last. exact Hno.
Qed.

Lemma catalog_lists_what_it_accepts_witness :
  plain_catalog (Samples.catalog ++ [Samples.joyful])
  ∧ NoDup (Object_keys (Samples.catalog ++ [Samples.joyful]))
  ∧ ("perplexed" ∈ Object_keys (Samples.catalog ++ [Samples.joyful]))
  ∧ expressionMap (Samples.catalog ++ [Samples.joyful]) !! "joyful" = Some Samples.joyful.
Proof.
  assert (plain_catalog (Samples.catalog ++ [Samples.joyful])) as H
    by (apply (bool_decide_unpack _); vm_compute; exact I).
  destruct (catalog_lists_what_it_accepts (Samples.catalog ++ [Samples.joyful]) H)
    as (Hkeys & Hnodup & _ & Hlast).
  split; [exact H|]. split; [exact Hnodup|].
  split; [apply Hkeys; eexists; vm_compute; reflexivity|].
  apply (Hlast Samples.catalog Samples.joyful []); [reflexivity|apply not_elem_of_nil].
Defined.

(** The samples are within the names of the embedding. *)
Lemma catalog_plain : plain_catalog Samples.catalog.
Proof. apply (bool_decide_unpack _). vm_compute. exact I. Qed.

Lemma fallback_plain : plain_catalog (loadExpressions (Throw "ENOENT")).
Proof. apply (bool_decide_unpack _). vm_compute. exact I. Qed.

Lemma sample_names_own :
  Forall own_name ["joyful"; "perplexed"; "grumpy"; "sleepy"; "dopey"].
Proof. apply (bool_decide_unpack _). vm_compute. exact I. Qed.

Lemma traffic_plain : Forall plain Samples.traffic.
Proof.
  pose proof sample_names_own as Hown. rewrite Forall_forall in Hown.
  assert (∀ n, n ∈ ["joyful"; "perplexed"; "grumpy"; "sleepy"; "dopey"] → own_name n)
    as Hnames by exact Hown.
  repeat (apply Forall_cons; split); try apply Forall_nil; cbn;
    try exact I;
    try (intros n [= <-]);
    repeat (apply Forall_cons; split); try apply Forall_nil; cbn;
    try (intros n [= <-]);
    apply Hnames; rewrite !elem_of_cons; auto 10.
Qed.

End CatalogFacts.

(** ** Setting one expression *)
Module SetExpression.
Import Server Range Reading Samples NumberFacts ServerFacts.

(** C1: a set-expression is to clear the active batch on every entry point.
    While the looping batch of two frames is active, the request
    [GET /api/set-expression?name=joyful] succeeds and leaves the batch in
    the store: the next [GET /api/current-expression] still carries
    [batchExpressions] with the old [batchId].  The callback of the MCP
    module and the legacy tool clear it ([handleExpressionUpdate_batch],
    [setAvatarExpression_batch]). *)
Theorem set_expression_over_http_keeps_batch :
  let request := Samples.onlyName "joyful" in
  let result := get_api_set_expression Samples.catalog request Samples.batchActive in
  stored_batchId Samples.batchActive = Some "a-0000"
  ∧ result.2 = Ok200 {| success := true; set_entry := Samples.joyful;
                        set_state := avatarState Samples.batchActive |}
  ∧ batchExpressionsState result.1 = batchExpressionsState Samples.batchActive
  ∧ shown_batchId (get_api_current_expression Samples.catalog result.1).2 = Some "a-0000"
  ∧ batchExpressionsState
      (handleExpressionUpdate Samples.catalog "joyful"
         (avatarState Samples.batchActive) Samples.batchActive) = None.
Proof.
  cbv zeta. split; [vm_compute; reflexivity|].
  split; [vm_compute; reflexivity|].
  split; [apply get_api_set_expression_batch|].
  split; [vm_compute; reflexivity|].
  apply handleExpressionUpdate_batch. exists Samples.joyful. vm_compute. reflexivity.
Qed.

(** C3: the stored rotation is to stay within [-30, 30] on every write path.
    The request [GET /api/set-expression?name=joyful&rotation=abc] reports
    success and stores [NaN] as the rotation, which is not within the
    range. *)
Theorem set_expression_over_http_stores_nan_rotation :
  let result := get_api_set_expression Samples.catalog rotationAbc initialStore in
  (∃ body, result.2 = Ok200 body ∧ success body = true)
  ∧ JS.isNaN (rotation (avatarState result.1)) = true
  ∧ within (-30) 30 (rotation (avatarState result.1)) = false
  ∧ within (-30) 30 (rotation (avatarState initialStore)) = true.
Proof.
  cbv zeta. split.
  - eexists. split; vm_compute; reflexivity.
  - repeat split; vm_compute; reflexivity.
Qed.

(** Over HTTP and by the legacy tool, a set-expression that succeeds merges
    what the call supplies over the avatar state of the store: every field
    that the call did not supply keeps the value it had, and every supplied
    field holds the supplied value: the direction when it is ['left'] or
    ['right'] (any other text leaves it), the positions as read (HTTP) or
    given (tool), the rotation and the scale clamped. *)
Lemma set_expression_keeps_unsupplied_fields (expressions : list Expression) :
  (∀ (q : Query.t) (st st' : Store) (body : SetExpression),
      get_api_set_expression expressions q st = (st', Ok200 body) →
      let old := avatarState st in
      let new := avatarState st' in
      (Query.direction q = None → direction new = direction old)
      ∧ (Query.pos_x q = None → posX new = posX old)
      ∧ (Query.pos_y q = None → posY new = posY old)
      ∧ (Query.rotation q = None → rotation new = rotation old)
      ∧ (Query.scale q = None → scale new = scale old)
      ∧ (Query.direction q = Some "left" → direction new = Left)
      ∧ (Query.direction q = Some "right" → direction new = Right)
      ∧ (∀ v, Query.direction q = Some v → v ≠ "left" → v ≠ "right" →
              direction new = direction old)
      ∧ (∀ v, Query.pos_x q = Some v → posX new = JS.parseInt10 v)
      ∧ (∀ v, Query.pos_y q = Some v → posY new = JS.parseInt10 v)
      ∧ (∀ v, Query.rotation q = Some v → rotation new = clamp (-30) 30 (JS.parseInt10 v))
      ∧ (∀ v, Query.scale q = Some v → JS.isNaN (JS.parseFloat v) = false →
              scale new = clamp 0.1 3.0 (JS.parseFloat v))
      ∧ (∀ v, Query.scale q = Some v → JS.isNaN (JS.parseFloat v) = true →
              scale new = scale old))
  ∧ (∀ (name : string) (d : option string) (x y r k : option JS.number)
       (st st' : Store) (result : SetAvatarResult),
      setAvatarExpression expressions name d x y r k st = (st', Normal result) →
      let old := avatarState st in
      let new := avatarState st' in
      (d = None → direction new = direction old)
      ∧ (x = None → posX new = posX old)
      ∧ (y = None → posY new = posY old)
      ∧ (r = None → rotation new = rotation old)
      ∧ (k = None → scale new = scale old)
      ∧ (d = Some "left" → direction new = Left)
      ∧ (d = Some "right" → direction new = Right)
      ∧ (∀ v, d = Some v → v ≠ "left" → v ≠ "right" → direction new = direction old)
      ∧ (∀ v, x = Some v → posX new = v)
      ∧ (∀ v, y = Some v → posY new = v)
      ∧ (∀ v, r = Some v → rotation new = clamp (-30) 30 v)
      ∧ (∀ v, k = Some v → scale new = clamp 0.1 3.0 v)).
Proof.
  assert (∀ (old : Direction) (v : string),
            v ≠ "left" → v ≠ "right" → default old (Some v ≫= as_direction) = old)
    as Hother.
  { intros old v Hl Hr. cbn. unfold as_direction.
    rewrite (bool_decide_eq_false_2 _ Hl), (bool_decide_eq_false_2 _ Hr). reflexivity. }
  split.
  - intros q st st' body Hrun.
    destruct (get_api_set_expression_ok_inv _ _ _ _ _ Hrun) as (name & e & Hname & He).
    destruct (get_api_set_expression_known expressions q st name e Hname He)
      as (s & Heq & Hd & Hx & Hy & Hr & Hk).
    rewrite Heq in Hrun. injection Hrun as <- _. cbn [avatarState].
    rewrite Hd, Hx, Hy, Hr, Hk.
    repeat split; try (intros ->; reflexivity);
      try (intros v -> Hl Hr'; apply Hother; assumption);
      intros v Hv; try intros Hnan; rewrite Hv; cbn; try rewrite Hnan; reflexivity.
  - intros name d x y r k st st' result Hrun.
    destruct (setAvatarExpression_ok_inv _ _ _ _ _ _ _ _ _ _ Hrun) as (e & He).
    destruct (setAvatarExpression_known expressions name d x y r k st e He)
      as (s & Heq & Hd & Hx & Hy & Hr & Hk).
    rewrite Heq in Hrun. injection Hrun as <- _. cbn [avatarState].
    rewrite Hd, Hx, Hy, Hr, Hk.
    repeat split; try (intros ->; reflexivity);
      try (intros v -> Hl Hr'; apply Hother; assumption);
      intros v Hv; rewrite Hv; reflexivity.
Qed.

Lemma set_expression_keeps_unsupplied_fields_example :
  get_api_set_expression Samples.catalog onlyPosX Samples.moved
  = (movedStore "perplexed" (-20) 15,
     Ok200 {| success := true; set_entry := Samples.perplexed;
              set_state := movedAvatar (-20) 15 |})
  ∧ setAvatarExpression Samples.catalog "joyful" None None None (Some 45%float) None
      Samples.moved
    = (movedStore "joyful" 40 30,
       Normal {| avatar_success := true;
                 avatar_message := "Avatar expression set to joyful";
                 avatar_expression := Samples.joyful;
                 avatar_state := movedAvatar 40 30 |})
  ∧ direction (movedAvatar (-20) 15) = direction (avatarState Samples.moved)
  ∧ posY (movedAvatar (-20) 15) = posY (avatarState Samples.moved)
  ∧ rotation (movedAvatar (-20) 15) = rotation (avatarState Samples.moved)
  ∧ scale (movedAvatar (-20) 15) = scale (avatarState Samples.moved)
  ∧ posX (movedAvatar 40 30) = posX (avatarState Samples.moved)
  ∧ scale (movedAvatar 40 30) = scale (avatarState Samples.moved).
Proof.
  assert (get_api_set_expression Samples.catalog onlyPosX Samples.moved
          = (movedStore "perplexed" (-20) 15,
             Ok200 {| success := true; set_entry := Samples.perplexed;
                      set_state := movedAvatar (-20) 15 |})) as Hhttp
    by (vm_compute; reflexivity).
  assert (setAvatarExpression Samples.catalog "joyful" None None None (Some 45%float) None
            Samples.moved
          = (movedStore "joyful" 40 30,
             Normal {| avatar_success := true;
                       avatar_message := "Avatar expression set to joyful";
                       avatar_expression := Samples.joyful;
                       avatar_state := movedAvatar 40 30 |})) as Htool
    by (vm_compute; reflexivity).
  destruct (set_expression_keeps_unsupplied_fields Samples.catalog) as [Hq Ht].
  destruct (Hq _ _ _ _ Hhttp) as (Hd & _ & Hy & Hr & Hk & _).
  destruct (Ht _ _ _ _ _ _ _ _ _ Htool) as (_ & Hx' & _ & _ & Hk' & _).
  split; [exact Hhttp|]. split; [exact Htool|].
  split; [exact (Hd eq_refl)|]. split; [exact (Hy eq_refl)|].
  split; [exact (Hr eq_refl)|]. split; [exact (Hk eq_refl)|].
  split; [exact (Hx' eq_refl)|exact (Hk' eq_refl)].
Qed.

(** C7: a set-expression is to keep every field the call does not supply.
    With the MCP server started in the process of the Express server, the
    request [GET /api/set-expression?name=perplexed&pos_x=-20] succeeds and
    stores [-20] as [posX]; the tool [setAvatarExpression] of the MCP module,
    called with the name [joyful] and nothing else, then succeeds and leaves
    the store with [posX] 0: the module merges over its own copy of the
    avatar state, which the request did not reach, and
    [handleExpressionUpdate] puts that copy in place of the store's.  The
    legacy tool, called the same way on the same store, keeps the [-20]. *)
Theorem mcp_tool_resets_unsupplied_fields :
  let http := get_api_set_expression Samples.catalog onlyPosX initialStore in
  let tool :=
    Mcp.setAvatarExpression Samples.catalog "joyful" None None None None None
      (Mcp.initialState Samples.catalog, http.1) in
  let legacy :=
    setAvatarExpression Samples.catalog "joyful" None None None None None http.1 in
  (∃ body, http.2 = Ok200 body ∧ success body = true)
  ∧ currentExpression http.1 = "perplexed"
  ∧ posX (avatarState http.1) = (-20)%float
  ∧ tool.2 = "Avatar expression set to joyful"
  ∧ currentExpression tool.1.2 = "joyful"
  ∧ posX (avatarState tool.1.2) = 0%float
  ∧ PrimFloat.eqb (posX (avatarState tool.1.2)) (posX (avatarState http.1)) = false
  ∧ (∃ result, legacy.2 = Normal result ∧ avatar_success result = true)
  ∧ posX (avatarState legacy.1) = (-20)%float.
Proof.
  cbv zeta. split; [eexists; split; vm_compute; reflexivity|].
  do 6 (split; [vm_compute; reflexivity|]).
  split; [eexists; split; vm_compute; reflexivity|].
  vm_compute. reflexivity.
Qed.

(** A string in which no digit follows the white space and the sign is read
    as [NaN]. *)
Lemma parseInt10_no_digit (v : string) :
  (JS.read_digits (JS.read_sign (JS.trim_start v)).2).1 = [] ->
  JS.parseInt10 v = PrimFloat.nan.
Proof.
  unfold JS.parseInt10. destruct (JS.read_sign _) as [neg s1]. cbn [snd].
  destruct (JS.read_digits s1) as [ds rest]. cbn [fst]. intros ->. reflexivity.
Qed.

Lemma parseInt10_no_digit_nan (v : string) :
  (JS.read_digits (JS.read_sign (JS.trim_start v)).2).1 = [] ->
  JS.isNaN (JS.parseInt10 v) = true.
Proof. intros H. rewrite (parseInt10_no_digit v H). reflexivity. Qed.

(** [parseInt] and [parseFloat] skip the white space of JavaScript, not
    only that of ASCII: after a no-break space (U+00A0, the bytes C2 A0)
    the digits are read, and a zero-width space (U+200B, the bytes E2 80
    8B) is no white space. *)
Lemma parseInt10_skips_no_break_space :
  JS.parseInt10 (String (ascii_of_nat 194) (String (ascii_of_nat 160) "42")) = 42%float
  ∧ JS.parseFloat (String (ascii_of_nat 194) (String (ascii_of_nat 160) "1.5")) = 1.5%float
  ∧ JS.isNaN
      (JS.parseInt10
         (String (ascii_of_nat 226) (String (ascii_of_nat 128)
            (String (ascii_of_nat 139) "42")))) = true.
Proof. repeat split; vm_compute; reflexivity. Qed.

(** C10: a request of [GET /api/set-expression] whose name is in the catalog
    reports success whatever its other parameters are; a [pos_x], [pos_y] or
    [rotation] that [parseInt] reads as [NaN] puts [NaN] in the field, while
    a [scale] that [parseFloat] reads as [NaN] leaves the scale as it was;
    [parseInt] completes normally on every string, so a [try] around it
    never reaches its [catch]. *)
Theorem set_expression_over_http_not_a_number
    (expressions : list Expression) (q : Query.t) (st : Store)
    (name : string) (e : Expression) :
  Query.name q = Some name →
  Server.expressionMap expressions !! name = Some e →
  let result := get_api_set_expression expressions q st in
  result.2 = Ok200 {| success := true; set_entry := e; set_state := avatarState result.1 |}
  ∧ (∀ v, Query.pos_x q = Some v → JS.isNaN (JS.parseInt10 v) = true →
          JS.isNaN (posX (avatarState result.1)) = true)
  ∧ (∀ v, Query.pos_y q = Some v → JS.isNaN (JS.parseInt10 v) = true →
          JS.isNaN (posY (avatarState result.1)) = true)
  ∧ (∀ v, Query.rotation q = Some v → JS.isNaN (JS.parseInt10 v) = true →
          JS.isNaN (rotation (avatarState result.1)) = true)
  ∧ (∀ v, Query.scale q = Some v → JS.isNaN (JS.parseFloat v) = true →
          scale (avatarState result.1) = scale (avatarState st))
  ∧ (∀ (v : string) (A : Type) (k : JS.number → A) (handler : string → A),
        try_catch (bind (parseInt v) (fun n => Normal (k n))) handler = k (JS.parseInt10 v)).
Proof.
  intros Hname He result. subst result.
  destruct (get_api_set_expression_known expressions q st name e Hname He)
    as (s & -> & Hd & Hx & Hy & Hr & Hk).
  cbn [fst snd avatarState]. split; [reflexivity|].
  split; [intros v Hv Hnan; rewrite Hx, Hv; exact Hnan|].
  split; [intros v Hv Hnan; rewrite Hy, Hv; exact Hnan|].
  split.
  { intros v Hv Hnan. rewrite Hr, Hv.
    change (JS.isNaN (clamp (-30) 30 (JS.parseInt10 v)) = true).
    rewrite (clamp_nan _ _ _ Hnan). reflexivity. }
  split; [intros v Hv Hnan; rewrite Hk, Hv, Hnan; reflexivity|].
  reflexivity.
Qed.

Lemma set_expression_over_http_not_a_number_witness :
  let result := get_api_set_expression Samples.catalog nothingNumeric Samples.moved in
  Query.name nothingNumeric = Some "perplexed"
  ∧ Server.expressionMap Samples.catalog !! "perplexed" = Some Samples.perplexed
  ∧ result.2 = Ok200 {| success := true; set_entry := Samples.perplexed;
                        set_state := avatarState result.1 |}
  ∧ JS.isNaN (posX (avatarState result.1)) = true
  ∧ JS.isNaN (posY (avatarState result.1)) = true
  ∧ JS.isNaN (rotation (avatarState result.1)) = true
  ∧ scale (avatarState result.1) = scale (avatarState Samples.moved).
Proof.
  assert (Server.expressionMap Samples.catalog !! "perplexed" = Some Samples.perplexed) as He
    by (vm_compute; reflexivity).
  destruct (set_expression_over_http_not_a_number Samples.catalog nothingNumeric
              Samples.moved "perplexed" Samples.perplexed eq_refl He)
    as (Hok & Hx & Hy & Hr & Hk & _).
  cbv zeta. split; [reflexivity|]. split; [exact He|]. split; [exact Hok|].
  split; [exact (Hx "px12" eq_refl (parseInt10_no_digit_nan "px12" eq_refl))|].
  split; [exact (Hy "" eq_refl (parseInt10_no_digit_nan "" eq_refl))|].
  split; [exact (Hr "left" eq_refl (parseInt10_no_digit_nan "left" eq_refl))|].
  exact (Hk "big" eq_refl eq_refl).
Defined.

End SetExpression.

(** ** Receiving a batch *)
Module BatchUpdate.
Import Server Range Reading Outcome Invariants Samples NumberFacts ServerFacts CatalogFacts.

Section Batch.

Variable expressions : list Expression.
Variable uuidv4 : nat -> string.

Abbreviation handle := (handleBatchExpressionsUpdate expressions uuidv4).
Abbreviation valid := (validActions expressions).
Abbreviation collapses := (Outcome.collapses expressions).
Abbreviation assigned_batchId := (Outcome.assigned_batchId uuidv4).
Abbreviation installed := (Outcome.installed uuidv4).

Lemma filter_all_length {A : Type} (P : A -> Prop) `{!∀ x, Decision (P x)} (l : list A) :
  length (filter P l) = length l -> filter P l = l.
Proof.
  induction l as [|x l IH]; [reflexivity|].
  rewrite filter_cons. destruct (decide (P x)) as [HP|HP]; cbn.
  - intros [= Hlen]. rewrite (IH Hlen). reflexivity.
  - intros Hlen. pose proof (length_filter P l). lia.
Qed.

Lemma validActions_with_actions (b : BatchExpressions) :
  valid (with_actions b (valid b)) = valid b.
Proof.
  unfold validActions, with_actions. cbn [actions].
  rewrite list_filter_filter. apply list_filter_iff. tauto.
Qed.

Lemma with_actions_id (b : BatchExpressions) : with_actions b (actions b) = b.
Proof. destruct b; reflexivity. Qed.

(** The store [handleBatchExpressionsUpdate] leaves, by the three ways it
    can go. *)
Lemma handle_store (b : BatchExpressions) (st : Store) :
  (handle b st).1 =
    match valid b with
    | [] => st
    | first :: _ =>
        if collapses b then collapsed first st
        else installed (with_actions b (valid b)) first st
    end.
Proof.
  unfold handleBatchExpressionsUpdate, collapses.
  destruct (valid b) as [|first rest] eqn:Hvalid; [reflexivity|].
  destruct (bool_decide (length (first :: rest) ≠ length (actions b))) eqn:Hfiltered.
  - cbn [loop]. destruct (bool_decide (length (first :: rest) = 1) && negb (loop b)); reflexivity.
  - apply bool_decide_eq_false in Hfiltered. apply dec_stable in Hfiltered.
    rewrite <- Hvalid in Hfiltered. unfold validActions in Hfiltered, Hvalid.
    apply filter_all_length in Hfiltered. rewrite Hfiltered in Hvalid.
    destruct (bool_decide (length (first :: rest) = 1) && negb (loop b)); [reflexivity|].
    unfold installed, assigned_batchId, with_actions. cbn. rewrite <- Hvalid. reflexivity.
Qed.

Lemma handle_log_rejected (b : BatchExpressions) (st : Store) :
  valid b = [] -> last (handle b st).2 = Some NoValidExpressions.
Proof.
  intros Hvalid. unfold handleBatchExpressionsUpdate. rewrite Hvalid. cbn [snd].
  apply last_snoc.
Qed.

Lemma handle_log_filtered (b : BatchExpressions) (st : Store) :
  valid b ≠ [] -> valid b ≠ actions b ->
  SomeFilteredOut (length (actions b) - length (valid b)) ∈ (handle b st).2.
Proof.
  intros Hsome Hnotall. unfold handleBatchExpressionsUpdate.
  destruct (valid b) as [|first rest] eqn:Hvalid; [congruence|].
  assert (length (first :: rest) ≠ length (actions b)) as Hlen.
  { intros Hlen. apply Hnotall. rewrite <- Hvalid in Hlen |- *.
    apply filter_all_length. exact Hlen. }
  rewrite (bool_decide_eq_true_2 _ Hlen).
  destruct (_ && _); cbn [snd]; rewrite ?elem_of_app, !list_elem_of_singleton; auto.
Qed.

(** The valid actions of a descriptor are its actions named by an entry of
    the catalog, in the descriptor's order. *)
Lemma validActions_known (b : BatchExpressions) :
  valid b
  = filter (fun action => Action.expression action ∈ name <$> expressions) (actions b).
Proof.
  unfold validActions. apply list_filter_iff. intros action.
  apply expressionMap_accepts.
Qed.

Lemma handle_validates (b : BatchExpressions) (st : Store) :
  let result := handle b st in
  (valid b = [] → result.1 = st ∧ last result.2 = Some NoValidExpressions)
  ∧ (valid b ≠ [] → valid b ≠ actions b →
     result.1 = (handle (with_actions b (valid b)) st).1
     ∧ (∀ stored, batchExpressionsState result.1 = Some stored →
                  actions stored = valid b ∧ loop stored = loop b)
     ∧ (batchExpressionsState result.1 = None →
        ∃ action, valid b = [action] ∧ loop b = false ∧ result.1 = collapsed action st)
     ∧ (∃ first, head (valid b) = Some first
                 ∧ currentExpression result.1 = Action.expression first
                 ∧ avatarState result.1 = state_of_action first)
     ∧ SomeFilteredOut (length (actions b) - length (valid b)) ∈ result.2).
Proof.
  cbv zeta. split.
  - intros Hnone. split; [|apply handle_log_rejected; exact Hnone].
    rewrite handle_store, Hnone. reflexivity.
  - intros Hsome Hnotall.
    split; [|split; [|split; [|split]]].
    + rewrite !handle_store, validActions_with_actions.
      unfold collapses. rewrite validActions_with_actions.
      destruct (valid b); [reflexivity|]. reflexivity.
    + intros stored. rewrite handle_store.
      destruct (valid b) as [|first rest]; [congruence|].
      destruct (collapses b); cbn; [discriminate|].
      intros [= <-]. split; reflexivity.
    + rewrite handle_store. unfold collapses.
      destruct (valid b) as [|first rest]; [congruence|].
      destruct (bool_decide (length (first :: rest) = 1)) eqn:Hone; cbn [andb];
        [destruct (loop b) eqn:Hloop; cbn [negb]|]; try discriminate.
      intros _. apply bool_decide_eq_true in Hone.
      destruct rest; [|discriminate]. exists first. repeat split.
    + rewrite handle_store.
      destruct (valid b) as [|first rest]; [congruence|].
      exists first. destruct (collapses b); repeat split.
    + apply handle_log_filtered; assumption.
Qed.


Lemma handle_collapses (b : BatchExpressions) (st : Store) (action : Action.t) :
  valid b = [action] → loop b = false →
  (handle b st).1 = collapsed action st
  ∧ ∃ e, Server.expressionMap expressions !! Action.expression action = Some e
         ∧ ∀ n, reads expressions n (collapsed action st)
                = (replicate n (Ok200 {| entry := e; state := state_of_action action;
                                         batchExpressions := None |}),
                   collapsed action st).
Proof.
  intros Hvalid Hloop. split.
  { rewrite handle_store. unfold collapses. rewrite Hvalid, Hloop. reflexivity. }
  assert (action ∈ valid b) as Hin by (rewrite Hvalid; apply list_elem_of_here).
  apply list_elem_of_filter in Hin as [[e He] _].
  exists e. split; [exact He|]. intros n.
  rewrite reads_replicate. unfold get_api_current_expression, collapsed.
  cbn [currentExpression]. rewrite He. reflexivity.
Qed.


End Batch.

Lemma sample_actions_own :
  Forall (fun action => own_name (Action.expression action)) (actions threeUnknown)
  ∧ Forall (fun action => own_name (Action.expression action)) (actions oneUnknown)
  ∧ Forall (fun action => own_name (Action.expression action)) (actions oneTilted).
Proof.
  pose proof sample_names_own as Hown. rewrite Forall_forall in Hown.
  repeat split; repeat (apply Forall_cons; split); try apply Forall_nil_2;
    apply Hown; cbn; rewrite !elem_of_cons; auto 10.
Qed.



End BatchUpdate.

(** ** The identifier of the batch *)
Module BatchId.
Import Server Range Reading Outcome Requests Samples NumberFacts ServerFacts BatchUpdate.

Section Requests.

Variable expressions : list Expression.
Variable uuidv4 : nat -> string.

Abbreviation serve := (Requests.serve expressions uuidv4).
Abbreviation descriptor := (Requests.descriptor expressions uuidv4).
Abbreviation installs := (Requests.installs expressions uuidv4).
Abbreviation new_batchId := (Requests.new_batchId expressions uuidv4).

Lemma serve_descriptor (r : Request) (st : Store) :
  serve r st =
    match descriptor r st with
    | Some (b, st0) => (handleBatchExpressionsUpdate expressions uuidv4 b st0).1
    | None => serve r st
    end.
Proof.
  destruct r as [| | | |? ? ? ? ? ?|loop random [|action actions]]; try reflexivity.
  cbn [serve descriptor]. unfold setBatchExpressions.
  destruct (map_throwing _ _) as [prepared|m]; [|reflexivity].
  unfold drawn. destruct (handleBatchExpressionsUpdate _ _ _ _). reflexivity.
Qed.

(** Without a descriptor the batch is only ever kept or removed. *)
Lemma serve_no_descriptor (r : Request) (st : Store) :
  descriptor r st = None ->
  batchExpressionsState (serve r st) = batchExpressionsState st
  ∨ batchExpressionsState (serve r st) = None.
Proof.
  destruct r as [|q|name state|b|name d x y r k|loop random [|action actions]];
    cbn [serve descriptor]; intros Hnone.
  - left. rewrite get_api_current_expression_store. reflexivity.
  - left. apply get_api_set_expression_batch.
  - unfold handleExpressionUpdate. destruct (_ !! _); [right|left]; reflexivity.
  - discriminate.
  - unfold setAvatarExpression. destruct (_ !! _); [right|left]; reflexivity.
  - left. reflexivity.
  - left. unfold setBatchExpressions.
    destruct (map_throwing _ _); [discriminate|reflexivity].
Qed.

Lemma descriptor_store (r : Request) (st : Store) (b : BatchExpressions) (st0 : Store) :
  descriptor r st = Some (b, st0) ->
  batchExpressionsState st0 = batchExpressionsState st.
Proof.
  destruct r as [| | |b'| |loop random [|action actions]]; cbn [descriptor];
    try discriminate.
  - intros [= _ <-]. reflexivity.
  - destruct (map_throwing _ _); [|discriminate]. intros [= _ <-]. reflexivity.
Qed.

(** A request that installs a batch stores it under the identifier the
    descriptor brings or, without one, the next drawn. *)
Lemma serve_installs_batchId (r : Request) (st : Store) :
  installs r st -> stored_batchId (serve r st) = new_batchId r st.
Proof.
  intros (b & st0 & Hd & Hne & Hc). unfold new_batchId.
  rewrite serve_descriptor, Hd, handle_store.
  destruct (validActions expressions b) as [|first rest]; [congruence|].
  rewrite Hc. reflexivity.
Qed.

(** Any other request keeps the stored batch or removes it. *)
Lemma serve_keeps_batchId (r : Request) (st : Store) :
  ¬ installs r st ->
  stored_batchId (serve r st) = stored_batchId st ∨ stored_batchId (serve r st) = None.
Proof.
  intros Hno. unfold stored_batchId.
  destruct (descriptor r st) as [[b st0]|] eqn:Hd.
  - rewrite serve_descriptor, Hd, handle_store.
    pose proof (descriptor_store _ _ _ _ Hd) as Hst0.
    destruct (validActions expressions b) as [|first rest] eqn:Hvalid.
    + left. rewrite Hst0. reflexivity.
    + destruct (collapses expressions b) eqn:Hc; [right; reflexivity|].
      exfalso. apply Hno. exists b, st0. rewrite Hvalid. split; [first [exact Hd|reflexivity]|]. split; [discriminate|exact Hc].
  - destruct (serve_no_descriptor r st Hd) as [-> | ->]; [left|right]; reflexivity.
Qed.

Lemma installs_dec (r : Request) (st : Store) : installs r st ∨ ¬ installs r st.
Proof.
  unfold installs. destruct (descriptor r st) as [[b st0]|] eqn:Hd.
  - destruct (validActions expressions b) as [|first rest] eqn:Hvalid.
    + right. intros (b' & st' & [= <- <-] & Hne & _). congruence.
    + destruct (collapses expressions b) eqn:Hc.
      * right. intros (b' & st' & [= <- <-] & _ & Hc'). congruence.
      * left. exists b, st0. rewrite Hvalid. split; [first [exact Hd|reflexivity]|]. split; [discriminate|exact Hc].
  - right. intros (b' & st' & [=] & _).
Qed.

(** The stored identifier is another one afterwards exactly when a batch is
    installed under another identifier. *)
Lemma batchId_changed_installs (r : Request) (st : Store) :
  batchId_changed st (serve r st)
  ↔ installs r st ∧ new_batchId r st ≠ stored_batchId st.
Proof.
  unfold batchId_changed. split.
  - intros (j & Hj & Hne).
    assert (installs r st) as Hin.
    { destruct (installs_dec r st) as [Hin|Hno]; [exact Hin|]. exfalso.
      destruct (serve_keeps_batchId r st Hno) as [H|H]; rewrite H in Hj;
        [exact (Hne Hj)|discriminate Hj]. }
    split; [exact Hin|].
    rewrite <- (serve_installs_batchId r st Hin), Hj. congruence.
  - intros [Hin Hne]. rewrite (serve_installs_batchId r st Hin).
    destruct Hin as (b & st0 & Hd & _). unfold new_batchId in *. rewrite Hd in *.
    cbn in *. eexists. split; [reflexivity|]. congruence.
Qed.

End Requests.

End BatchId.

(** ** The batch player *)
Module PlayerFacts.
Import Client Frames.

(** *** Sorting permutes *)
Section SortFacts.
Context {A : Type}.
Variable comparefn : nat -> JS.number.

Lemma insert_Permutation (element : A) (sorted : list A) (k : nat) :
  (insert comparefn element sorted k).1 ≡ₚ element :: sorted.
Proof.
  revert k. induction sorted as [|tmp rest IH]; intros k; cbn [insert]; [reflexivity|].
  destruct (PrimFloat.ltb 0 (comparefn k)); [|reflexivity].
  specialize (IH (S k)). destruct (insert comparefn element rest (S k)) as [rest' k'].
  cbn [fst] in *. rewrite IH. apply Permutation_swap.
Qed.

Lemma sort_from_Permutation (sorted l : list A) (k : nat) :
  (sort_from comparefn sorted l k).1 ≡ₚ sorted ++ l.
Proof.
  revert sorted k. induction l as [|element l IH]; intros sorted k; cbn [sort_from].
  - cbn [fst]. rewrite app_nil_r. symmetry. apply Permutation_rev.
  - pose proof (insert_Permutation element sorted k) as Hins.
    destruct (insert comparefn element sorted k) as [sorted' k']. cbn [fst] in Hins.
    rewrite IH, Hins. apply Permutation_middle.
Qed.

(** Whatever the comparison function answers, the sorted copy has the
    elements of the array, each as often as the array has it. *)
Lemma sort_Permutation (l : list A) (k : nat) : (sort comparefn l k).1 ≡ₚ l.
Proof. unfold sort. rewrite sort_from_Permutation. reflexivity. Qed.

End SortFacts.

Lemma shuffle_Permutation (Math_random : nat -> JS.number) (actions : list Action.t) (k : nat) :
  (shuffle Math_random actions k).1 ≡ₚ actions.
Proof. apply sort_Permutation. Qed.

(** *** One frame after the other *)
Section Playing.

Variable Math_random : nat -> JS.number.

Abbreviation tick := (Client.tick Math_random).

Lemma clearTimeout_only (id : positive) (delay : JS.number) :
  clearTimeout id [(id, delay)] = [].
Proof.
  unfold clearTimeout. rewrite filter_cons. cbn.
  destruct (decide (id ≠ id)); [congruence|reflexivity].
Qed.

(** The timer fires before the last frame: the next frame is drawn. *)
Lemma tick_next (p : Player) (batch : Batch.t) (id : positive) (delay : JS.number)
    (action : Action.t) :
  currentBatch p = Some batch ->
  timers p = [(id, delay)] ->
  Batch.actions batch !! S (currentActionIndex p) = Some action ->
  tick p = showing batch (S (currentActionIndex p)) action (randomCalls p) p.
Proof.
  intros Hbatch Htimers Haction. unfold Client.tick, fire. rewrite Htimers.
  rewrite bool_decide_eq_true_2 by (cbn; apply list_elem_of_here).
  rewrite clearTimeout_only. unfold onBatchTimeout. cbn [currentBatch currentActionIndex].
  rewrite Hbatch.
  pose proof (lookup_lt_Some _ _ _ Haction) as Hlt.
  rewrite bool_decide_eq_false_2 by lia.
  unfold processBatchAction. cbn [currentBatch currentActionIndex].
  rewrite Haction.
  destruct (Batch.actions batch) as [|a0 rest] eqn:Hactions; [discriminate Haction|].
  reflexivity.
Qed.

(** The timer fires on the last frame of a looping batch: the actions are
    shuffled when [random] is set, and the first of them is drawn. *)
Lemma tick_wrap (p : Player) (batch : Batch.t) (id : positive) (delay : JS.number) :
  currentBatch p = Some batch ->
  timers p = [(id, delay)] ->
  length (Batch.actions batch) ≤ S (currentActionIndex p) ->
  Batch.loop batch = true ->
  ∀ (actions : list Action.t) (calls : nat) (first : Action.t) (rest : list Action.t),
    (if Batch.random batch
     then shuffle Math_random (Batch.actions batch) (randomCalls p)
     else (Batch.actions batch, randomCalls p)) = (actions, calls) ->
    actions = first :: rest ->
    tick p
    = showing {| Batch.loop := Batch.loop batch; Batch.random := Batch.random batch;
                 Batch.actions := actions; Batch.batchId := Batch.batchId batch |}
              0 first calls p.
Proof.
  intros Hbatch Htimers Hlast Hloop actions calls first rest Hshuffle Hactions.
  unfold Client.tick, fire. rewrite Htimers.
  rewrite bool_decide_eq_true_2 by (cbn; apply list_elem_of_here).
  rewrite clearTimeout_only. unfold onBatchTimeout. cbn [currentBatch currentActionIndex randomCalls].
  rewrite Hbatch, bool_decide_eq_true_2 by exact Hlast.
  rewrite Hloop, Hshuffle. unfold processBatchAction.
  cbn [currentBatch currentActionIndex Batch.actions]. rewrite Hactions. reflexivity.
Qed.

(** From a frame on, [m] timers in a row draw the [m] following frames. *)
Lemma ticks_rest (m : nat) :
  ∀ (p : Player) (batch : Batch.t) (id : positive) (delay : JS.number),
    currentBatch p = Some batch ->
    timers p = [(id, delay)] ->
    currentActionIndex p + m < length (Batch.actions batch) ->
    let p' := Nat.iter m tick p in
    currentBatch p' = Some batch
    ∧ currentBatchId p' = currentBatchId p
    ∧ currentActionIndex p' = currentActionIndex p + m
    ∧ (∃ id' delay', timers p' = [(id', delay')])
    ∧ rendered p'
      = rendered p
        ++ (expressionData_of <$> take m (drop (S (currentActionIndex p)) (Batch.actions batch))).
Proof.
  induction m as [|m IH]; intros p batch id delay Hbatch Htimers Hlt; cbv zeta.
  - change (Nat.iter 0 tick p) with p.
    rewrite Nat.add_0_r, take_0, fmap_nil, app_nil_r. eauto 10.
  - change (Nat.iter (S m) tick p) with (tick (Nat.iter m tick p)).
    destruct (IH p batch id delay Hbatch Htimers ltac:(lia))
      as (Hb & Hid & Hidx & (id' & delay' & Ht) & Hr).
    set (q := Nat.iter m tick p) in *.
    destruct (lookup_lt_is_Some_2 (Batch.actions batch) (S (currentActionIndex q))
                ltac:(lia)) as [action Haction].
    rewrite (tick_next q batch id' delay' action Hb Ht Haction).
    unfold showing. cbn [currentBatch currentBatchId currentActionIndex timers rendered].
    split; [reflexivity|]. split; [exact Hid|]. split; [lia|]. split; [eauto|].
    rewrite Hr, <- app_assoc. f_equal.
    rewrite (take_S_r _ _ action), fmap_app; [reflexivity|].
    rewrite lookup_drop. rewrite <- Haction. f_equal. lia.
Qed.

Lemma name_expressionData_of (actions : list Action.t) :
  name <$> (expressionData_of <$> actions) = Action.expression <$> actions.
Proof. rewrite <- list_fmap_compose. reflexivity. Qed.

(** C9: a looping batch with [random] set is on its last frame when the
    timer fires.  Over the next full cycle (as many timers as the batch has
    actions) the page draws a rearrangement of the actions of the batch: the
    names drawn are the names of the actions, each as often as the batch has
    it, whatever [Math.random] returns; the [batchId] stays. *)
Theorem shuffled_cycle_is_permutation
    (p : Player) (batch : Batch.t) (id : positive) (delay : JS.number) :
  currentBatch p = Some batch →
  Batch.loop batch = true →
  Batch.random batch = true →
  timers p = [(id, delay)] →
  S (currentActionIndex p) = length (Batch.actions batch) →
  let p' := Nat.iter (length (Batch.actions batch)) tick p in
  ∃ shuffled frames,
    shuffled ≡ₚ Batch.actions batch
    ∧ currentBatch p'
      = Some {| Batch.loop := true; Batch.random := true;
                Batch.actions := shuffled; Batch.batchId := Batch.batchId batch |}
    ∧ currentBatchId p' = currentBatchId p
    ∧ rendered p' = rendered p ++ frames
    ∧ frames = expressionData_of <$> shuffled
    ∧ name <$> frames ≡ₚ Action.expression <$> Batch.actions batch.
Proof.
  intros Hbatch Hloop Hrandom Htimers Hlast p'. subst p'.
  rewrite <- Hlast, Nat.iter_succ_r.
  destruct (shuffle Math_random (Batch.actions batch) (randomCalls p))
    as [shuffled calls] eqn:Hshuffle.
  assert (shuffled ≡ₚ Batch.actions batch) as Hperm.
  { pose proof (shuffle_Permutation Math_random (Batch.actions batch) (randomCalls p)) as H.
    rewrite Hshuffle in H. exact H. }
  pose proof (Permutation_length Hperm) as Hlen.
  destruct shuffled as [|first rest]; [cbn in Hlen; lia|].
  rewrite (tick_wrap p batch id delay Hbatch Htimers ltac:(lia) Hloop
             (first :: rest) calls first rest)
    by (rewrite ?Hrandom; auto).
  rewrite Hloop, Hrandom.
  set (batch' := {| Batch.loop := true; Batch.random := true;
                    Batch.actions := first :: rest;
                    Batch.batchId := Batch.batchId batch |}).
  set (q := showing batch' 0 first calls p).
  destruct (ticks_rest (currentActionIndex p) q batch' (nextTimer p)
              (default 0%float (Action.duration first)) eq_refl eq_refl)
    as (Hb & Hid & _ & _ & Hr).
  { cbn in Hlen |- *. lia. }
  exists (first :: rest), (expressionData_of <$> first :: rest).
  split; [exact Hperm|]. split; [exact Hb|]. split; [exact Hid|].
  split; [|split; [reflexivity|]].
  - rewrite Hr. cbn [q showing rendered currentActionIndex batch' Batch.actions drop].
    rewrite drop_0, take_ge by (cbn in Hlen; lia).
    rewrite <- app_assoc. reflexivity.
  - rewrite name_expressionData_of. apply fmap_Permutation. exact Hperm.
Qed.

(** C8: a poll whose [batchExpressions] carries the [batchId] the player is
    tracking changes nothing: nothing is drawn, and the armed timer is
    neither cleared nor replaced. *)
Theorem same_batchId_poll_is_no_op (p : Player) (data : Data) (batch : Batch.t) :
  batchExpressions data = Some batch →
  currentBatchId p = Some (Batch.batchId batch) →
  let p' := updateAvatar (Json data) p in
  p' = p
  ∧ rendered p' = rendered p
  ∧ timers p' = timers p
  ∧ batchTimeout p' = batchTimeout p
  ∧ ∀ events, run Math_random p (Poll (Json data) :: events) = run Math_random p events.
Proof.
  intros Hdata Hid. cbv zeta.
  assert (updateAvatar (Json data) p = p) as Hsame.
  { unfold updateAvatar. rewrite Hdata, Hid.
    rewrite bool_decide_eq_false_2 by (intros H; apply H; reflexivity). reflexivity. }
  rewrite Hsame. repeat split.
  intros events. unfold run. cbn [foldl step]. rewrite Hsame. reflexivity.
Qed.

End Playing.

End PlayerFacts.

(** ** Runs of the page against a store *)
Module PlayerRuns.
Import Client Samples PlayerFacts.

(** C2: a batch that does not loop is to stay on its last frame once it has
    been played, also when the page polls the same stored batch again.  The
    page fetches the batch of two frames, draws both, and the second timer
    leaves it with no batch and no armed timer; the store has not changed,
    and the next poll, which carries the same batch, starts it over: the
    first frame is drawn again and a timer is armed. *)
Theorem finished_batch_restarts_on_poll :
  let played := run randoms initialPlayer [Poll seenOnce; Timeout 1; Timeout 2] in
  let polled := updateAvatar seenOnce played in
  (∃ data batch, seenOnce = Json data ∧ batchExpressions data = Some batch
                 ∧ Batch.loop batch = false ∧ Batch.batchId batch = "a-0000")
  ∧ name <$> rendered played = ["joyful"; "perplexed"]
  ∧ timers played = []
  ∧ currentBatch played = None
  ∧ name <$> rendered polled = ["joyful"; "perplexed"; "joyful"]
  ∧ timers polled = [(3%positive, 100%float)]
  ∧ currentActionIndex polled = 0
  ∧ currentBatchId polled = Some "a-0000".
Proof.
  cbv zeta. split.
  - eexists _, _. split; [vm_compute; reflexivity|].
    split; [reflexivity|]. split; reflexivity.
  - repeat split; vm_compute; reflexivity.
Qed.

Lemma same_batchId_poll_is_no_op_witness :
  let p := run randoms initialPlayer [Poll (Json seenThree); Timeout 1] in
  currentBatchId p = Some "c-0000"
  ∧ updateAvatar (Json seenThree) p = p
  ∧ name <$> rendered (updateAvatar (Json seenThree) p) = ["joyful"; "perplexed"]
  ∧ timers (updateAvatar (Json seenThree) p) = [(2%positive, 200%float)].
Proof.
  cbv zeta.
  assert (currentBatchId (run randoms initialPlayer [Poll (Json seenThree); Timeout 1])
          = Some "c-0000") as Hid by (vm_compute; reflexivity).
  destruct (same_batchId_poll_is_no_op randoms
              (run randoms initialPlayer [Poll (Json seenThree); Timeout 1])
              seenThree threeFrames eq_refl Hid) as (Hsame & Hr & Ht & _).
  split; [exact Hid|]. split; [exact Hsame|].
  split; [rewrite Hr; vm_compute; reflexivity|rewrite Ht; vm_compute; reflexivity].
Defined.

Lemma shuffled_cycle_is_permutation_witness :
  currentActionIndex onLastFrame = 2
  ∧ name <$> rendered onLastFrame = ["joyful"; "perplexed"; "joyful"]
  ∧ ∃ shuffled frames,
      shuffled ≡ₚ Batch.actions threeFrames
      ∧ rendered (Nat.iter 3 (tick randoms) onLastFrame) = rendered onLastFrame ++ frames
      ∧ frames = expressionData_of <$> shuffled
      ∧ name <$> frames ≡ₚ ["joyful"; "perplexed"; "joyful"].
Proof.
  assert (timers onLastFrame = [(3%positive, 300%float)]) as Htimers
    by (vm_compute; reflexivity).
  assert (currentBatch onLastFrame = Some threeFrames) as Hbatch
    by (vm_compute; reflexivity).
  assert (currentActionIndex onLastFrame = 2) as Hindex by (vm_compute; reflexivity).
  destruct (shuffled_cycle_is_permutation randoms onLastFrame threeFrames 3%positive
              300%float Hbatch eq_refl eq_refl Htimers)
    as (shuffled & frames & Hperm & _ & _ & Hr & Hf & Hnames).
  { rewrite Hindex. reflexivity. }
  split; [exact Hindex|]. split; [vm_compute; reflexivity|].
  exists shuffled, frames.
  split; [exact Hperm|]. split; [exact Hr|]. split; [exact Hf|exact Hnames].
Defined.

End PlayerRuns.

(** ** Starting the server *)
Module ArgsFacts.
Import Server.

(** A property of every list follows from its being kept by one and by two
    more elements in front: the loop of [parseArgs] steps by one or by two. *)
Lemma list_ind_pairs {A : Type} (P : list A -> Prop) :
  P [] -> (∀ x, P [x]) -> (∀ x y l, P l -> P (y :: l) -> P (x :: y :: l)) ->
  ∀ l, P l.
Proof.
  intros Hnil Hone Hstep l.
  assert (P l ∧ ∀ x, P (x :: l)) as [H _]; [|exact H].
  induction l as [|y l [IH1 IH2]]; [split; [exact Hnil|exact Hone]|].
  split; [apply IH2|]. intros x. apply Hstep; [exact IH1|apply IH2].
Qed.

Lemma parseArgs_loop_two (x y : string) (l : list string) (options : Options.t) :
  parseArgs_loop (x :: y :: l) options =
    if bool_decide (x = "--port") then
      parseArgs_loop l
        (if bool_decide (y = "--mcp")
         then {| Options.port := Some y; Options.mcp := Some "true" |}
         else {| Options.port := Some y; Options.mcp := Options.mcp options |})
    else
      parseArgs_loop (y :: l)
        (if bool_decide (x = "--mcp")
         then {| Options.port := Options.port options; Options.mcp := Some "true" |}
         else options).
Proof.
  cbn [parseArgs_loop].
  destruct (bool_decide (x = "--port")), (bool_decide (y = "--mcp")); reflexivity.
Qed.

Lemma parseArgs_loop_mcp (args : list string) :
  ∀ options,
    Options.mcp (parseArgs_loop args options) = Some "true"
    ↔ "--mcp" ∈ args ∨ Options.mcp options = Some "true".
Proof.
  induction args as [|x|x y l IHl IHyl] using list_ind_pairs; intros options.
  - cbn. rewrite elem_of_nil. tauto.
  - cbn. rewrite list_elem_of_singleton.
    destruct (bool_decide (x = "--mcp")) eqn:Hx.
    + apply bool_decide_eq_true in Hx. cbn. split; auto.
    + apply bool_decide_eq_false in Hx. split; [tauto|]. intros [H|H]; congruence.
  - rewrite parseArgs_loop_two.
    destruct (bool_decide (x = "--port")) eqn:Hport.
    + apply bool_decide_eq_true in Hport. subst x.
      rewrite IHl, !elem_of_cons.
      destruct (bool_decide (y = "--mcp")) eqn:Hy.
      * apply bool_decide_eq_true in Hy. cbn. split; auto.
      * apply bool_decide_eq_false in Hy. cbn.
        split; [tauto|]. intros [[H|[H|H]]|H]; try discriminate; try congruence; auto.
    + rewrite IHyl, (elem_of_cons (y :: l)).
      destruct (bool_decide (x = "--mcp")) eqn:Hx.
      * apply bool_decide_eq_true in Hx. cbn. split; auto.
      * apply bool_decide_eq_false in Hx. cbn.
        split; [tauto|]. intros [[H|H]|H]; try congruence; auto.
Qed.

Lemma parseArgs_loop_port (args : list string) :
  ∀ options v,
    Options.port (parseArgs_loop args options) = Some v ->
    Options.port options = Some v
    ∨ ∃ i, args !! i = Some "--port" ∧ args !! S i = Some v.
Proof.
  induction args as [|x|x y l IHl IHyl] using list_ind_pairs; intros options v.
  - cbn. auto.
  - cbn. destruct (bool_decide (x = "--mcp")); cbn; auto.
  - rewrite parseArgs_loop_two.
    destruct (bool_decide (x = "--port")) eqn:Hport.
    + apply bool_decide_eq_true in Hport. subst x. intros H.
      apply IHl in H as [H|(i & Hi & Hv)].
      * right. exists 0. destruct (bool_decide (y = "--mcp")); cbn in H; cbn; auto.
      * right. exists (S (S i)). auto.
    + intros H. apply IHyl in H as [H|(i & Hi & Hv)].
      * left. destruct (bool_decide (x = "--mcp")); exact H.
      * right. exists (S i). auto.
Qed.

Lemma parseArgs_loop_no_port (args : list string) :
  ∀ options,
    "--port" ∉ args ->
    Options.port (parseArgs_loop args options) = Options.port options.
Proof.
  induction args as [|x|x y l IHl IHyl] using list_ind_pairs; intros options Hno.
  - reflexivity.
  - cbn. destruct (bool_decide (x = "--mcp")); reflexivity.
  - apply not_elem_of_cons in Hno as [Hx Hno].
    rewrite parseArgs_loop_two.
    rewrite (bool_decide_eq_false_2 (x = "--port")) by congruence.
    rewrite (IHyl _ Hno). destruct (bool_decide (x = "--mcp")); reflexivity.
Qed.

Lemma parseArgs_loop_last_port (args : list string) :
  ∀ options,
    "--port" ∉ args ->
    Options.port (parseArgs_loop (args ++ ["--port"]) options) = Options.port options.
Proof.
  induction args as [|x|x y l IHl IHyl] using list_ind_pairs; intros options Hno.
  - reflexivity.
  - apply not_elem_of_cons in Hno as [Hx _]. cbn.
    rewrite (bool_decide_eq_false_2 (x = "--port")) by congruence.
    destruct (bool_decide (x = "--mcp")); reflexivity.
  - apply not_elem_of_cons in Hno as [Hx Hno].
    change ((x :: y :: l) ++ ["--port"]) with (x :: y :: (l ++ ["--port"])).
    rewrite parseArgs_loop_two.
    rewrite (bool_decide_eq_false_2 (x = "--port")) by congruence.
    change (y :: l ++ ["--port"]) with ((y :: l) ++ ["--port"]).
    rewrite (IHyl _ Hno). destruct (bool_decide (x = "--mcp")); reflexivity.
Qed.

Lemma parseArgs_loop_mcp_value (args : list string) :
  ∀ options m,
    Options.mcp (parseArgs_loop args options) = Some m ->
    m = "true" ∨ Options.mcp options = Some m.
Proof.
  induction args as [|x|x y l IHl IHyl] using list_ind_pairs; intros options m.
  - cbn. auto.
  - cbn. destruct (bool_decide (x = "--mcp")); cbn; [intros [= <-]|]; auto.
  - rewrite parseArgs_loop_two.
    destruct (bool_decide (x = "--port")).
    + intros H. apply IHl in H as [H|H]; [auto|].
      destruct (bool_decide (y = "--mcp")); cbn in H; [injection H as <-|]; auto.
    + intros H. apply IHyl in H as [H|H]; [auto|].
      destruct (bool_decide (x = "--mcp")); cbn in H; [injection H as <-|]; auto.
Qed.

Lemma parseArgs_mcp_iff_loop (argv : list string) :
  Options.mcp (parseArgs argv) = Some "true" ↔ "--mcp" ∈ drop 2 argv.
Proof.
  unfold parseArgs. rewrite parseArgs_loop_mcp. cbn. split; [|auto].
  intros [H|H]; [exact H|discriminate H].
Qed.

(** X1: [parseArgs] turns the MCP mode on exactly when [--mcp] is among the
    arguments after the script path, wherever it stands: also where it is
    read as the value of [--port]. *)
Theorem parseArgs_mcp_iff (argv : list string) :
  (Options.mcp (parseArgs argv) = Some "true" ↔ "--mcp" ∈ drop 2 argv)
  ∧ (Options.mcp (parseArgs argv) = None ↔ "--mcp" ∉ drop 2 argv)
  ∧ ∀ execPath script before after,
      Options.mcp (parseArgs (execPath :: script :: before ++ "--port" :: "--mcp" :: after))
      = Some "true".
Proof.
  pose proof (parseArgs_mcp_iff_loop argv) as Hiff.
  split; [exact Hiff|]. split.
  - split.
    + intros Hnone Hin. apply Hiff in Hin. congruence.
    + intros Hno. unfold parseArgs in *.
      destruct (Options.mcp (parseArgs_loop (drop 2 argv) _)) as [m|] eqn:Hm;
        [|reflexivity].
      exfalso. apply Hno. apply Hiff.
      pose proof (parseArgs_loop_mcp_value (drop 2 argv)
                    {| Options.port := None; Options.mcp := None |} m Hm) as [H|H];
        [congruence|discriminate H].
  - intros execPath script before after. apply parseArgs_mcp_iff_loop.
    cbn [drop]. rewrite drop_0, elem_of_app, !elem_of_cons. auto.
Qed.

(** What the loop finds for the port does not depend on the options it
    starts with, which only stand in where it finds none. *)
Lemma parseArgs_loop_port_default (args : list string) :
  ∀ options,
    Options.port (parseArgs_loop args options)
    = match Options.port
              (parseArgs_loop args {| Options.port := None; Options.mcp := None |}) with
      | Some w => Some w
      | None => Options.port options
      end.
Proof.
  induction args as [|x|x y l IHl IHyl] using list_ind_pairs; intros options.
  - reflexivity.
  - cbn. destruct (bool_decide (x = "--mcp")); reflexivity.
  - rewrite !parseArgs_loop_two. cbn [Options.port Options.mcp].
    destruct (bool_decide (x = "--port")).
    + destruct (bool_decide (y = "--mcp")).
      * rewrite (IHl {| Options.port := Some y; Options.mcp := Some "true" |}).
        cbn [Options.port]. destruct (Options.port (parseArgs_loop l _)); reflexivity.
      * rewrite (IHl {| Options.port := Some y; Options.mcp := Options.mcp options |}).
        rewrite ?(IHl {| Options.port := Some y; Options.mcp := None |}).
        cbn [Options.port]. destruct (Options.port (parseArgs_loop l _)); reflexivity.
    + destruct (bool_decide (x = "--mcp")).
      * rewrite (IHyl {| Options.port := Options.port options; Options.mcp := Some "true" |}).
        rewrite ?(IHyl {| Options.port := None; Options.mcp := Some "true" |}).
        cbn [Options.port]. destruct (Options.port (parseArgs_loop (y :: l) _)); reflexivity.
      * rewrite (IHyl options). reflexivity.
Qed.

(** The first [--port] takes the argument after it, and the loop goes on
    behind that argument. *)
Lemma parseArgs_loop_first_port (before : list string) :
  ∀ options v after,
    "--port" ∉ before ->
    Options.port (parseArgs_loop (before ++ "--port" :: v :: after) options)
    = match Options.port
              (parseArgs_loop after {| Options.port := None; Options.mcp := None |}) with
      | Some w => Some w
      | None => Some v
      end.
Proof.
  assert (∀ options v after,
            Options.port (parseArgs_loop ("--port" :: v :: after) options)
            = match Options.port
                      (parseArgs_loop after {| Options.port := None; Options.mcp := None |})
              with
              | Some w => Some w
              | None => Some v
              end) as Hbase.
  { intros options v after. rewrite parseArgs_loop_two.
    rewrite bool_decide_eq_true_2 by reflexivity.
    destruct (bool_decide (v = "--mcp")); rewrite parseArgs_loop_port_default; reflexivity. }
  induction before as [|x|x y l IHl IHyl] using list_ind_pairs; intros options v after Hno.
  - apply Hbase.
  - apply not_elem_of_cons in Hno as [Hx _].
    change ([x] ++ "--port" :: v :: after) with (x :: "--port" :: v :: after).
    rewrite parseArgs_loop_two.
    rewrite (bool_decide_eq_false_2 (x = "--port")) by congruence.
    apply Hbase.
  - apply not_elem_of_cons in Hno as [Hx Hno].
    change ((x :: y :: l) ++ "--port" :: v :: after)
      with (x :: y :: (l ++ "--port" :: v :: after)).
    rewrite parseArgs_loop_two.
    rewrite (bool_decide_eq_false_2 (x = "--port")) by congruence.
    change (y :: l ++ "--port" :: v :: after) with ((y :: l) ++ "--port" :: v :: after).
    apply IHyl. exact Hno.
Qed.

(** X2: the port [parseArgs] returns is always the argument that follows a
    [--port]; without a [--port] among the arguments, and also when the only
    [--port] is the last argument, no port is set; and of several [--port]
    the last one that has an argument wins: the argument of the first
    [--port] is the port only if the arguments behind it set none. *)
Theorem parseArgs_port_follows_flag (argv : list string) :
  (∀ v, Options.port (parseArgs argv) = Some v →
        ∃ i, drop 2 argv !! i = Some "--port" ∧ drop 2 argv !! S i = Some v)
  ∧ ("--port" ∉ drop 2 argv → Options.port (parseArgs argv) = None)
  ∧ (∀ execPath script args,
        "--port" ∉ args →
        Options.port (parseArgs (execPath :: script :: args ++ ["--port"])) = None)
  ∧ (∀ execPath script before v after,
        argv = execPath :: script :: before ++ "--port" :: v :: after →
        "--port" ∉ before →
        Options.port (parseArgs argv)
        = match Options.port (parseArgs (execPath :: script :: after)) with
          | Some w => Some w
          | None => Some v
          end).
Proof.
  unfold parseArgs. split; [|split; [|split]].
  - intros v H. apply parseArgs_loop_port in H as [H|H]; [discriminate H|exact H].
  - intros Hno. rewrite parseArgs_loop_no_port by exact Hno. reflexivity.
  - intros execPath script args Hno. cbn [drop]. rewrite drop_0.
    rewrite parseArgs_loop_last_port by exact Hno. reflexivity.
  - intros execPath script before v after -> Hno. cbn [drop]. rewrite !drop_0.
    apply parseArgs_loop_first_port. exact Hno.
Qed.

Lemma parseArgs_port_follows_flag_witness :
  Options.port (parseArgs Samples.argvMcpPort) = Some "8080"
  ∧ (∃ i, drop 2 Samples.argvMcpPort !! i = Some "--port"
          ∧ drop 2 Samples.argvMcpPort !! S i = Some "8080")
  ∧ ("--port" ∉ @nil string)
  ∧ Options.port (parseArgs Samples.argvTwoPorts) = Some "9090".
Proof.
  split; [reflexivity|].
  split; [exact (proj1 (parseArgs_port_follows_flag Samples.argvMcpPort) "8080" eq_refl)|].
  split; [apply not_elem_of_nil|].
  destruct (parseArgs_port_follows_flag Samples.argvTwoPorts) as (_ & _ & _ & Hlast).
  exact (Hlast "/usr/bin/node" "/app/dist/index.js" [] "8080" ["--port"; "9090"] eq_refl
           (not_elem_of_nil _)).
Defined.



End ArgsFacts.

(** ** What the store keeps *)
Module StoreInvariants.
Import Server Range Reading Outcome Requests Invariants NumberFacts ServerFacts BatchUpdate
       CatalogFacts.

Section Store.

Variable expressions : list Expression.
Variable uuidv4 : nat -> string.

Abbreviation expressionMap := (Server.expressionMap expressions).
Abbreviation handle := (handleBatchExpressionsUpdate expressions uuidv4).
Abbreviation valid := (validActions expressions).
Abbreviation serve := (Requests.serve expressions uuidv4).
Abbreviation serve_all := (Invariants.serve_all expressions uuidv4).
Abbreviation accepted := (Invariants.accepted expressions).
Abbreviation resolves := (Invariants.resolves expressions).
Abbreviation well_formed := (Invariants.well_formed expressions).
Abbreviation batch_ok := (Invariants.batch_ok expressions).

Lemma valid_accepted (b : BatchExpressions) :
  Forall (fun action => accepted (Action.expression action)) (valid b).
Proof.
  apply Forall_forall. intros action Hin.
  apply list_elem_of_filter in Hin as [H _]. exact H.
Qed.

(** What [map] returns when no call of the function throws. *)
Lemma map_throwing_Normal {A B : Type} (f : A -> Completion B) (l : list A) (l' : list B) :
  map_throwing f l = Normal l' -> Forall2 (fun a b => f a = Normal b) l l'.
Proof.
  revert l'. induction l as [|a l IH]; intros l'; cbn.
  - intros [= <-]. constructor.
  - destruct (f a) as [b|m] eqn:Hb; cbn; [|discriminate].
    destruct (map_throwing f l) as [bs|m]; cbn; [|discriminate].
    intros [= <-]. constructor; [exact Hb|]. apply IH. reflexivity.
Qed.

Lemma map_throwing_Throw {A B : Type} (f : A -> Completion B) (l : list A) (m : string) :
  map_throwing f l = Throw m -> ∃ a, a ∈ l ∧ f a = Throw m.
Proof.
  induction l as [|a l IH]; cbn; [discriminate|].
  destruct (f a) as [b|m'] eqn:Hb; cbn.
  - destruct (map_throwing f l) as [bs|m']; cbn; [discriminate|].
    intros [= <-]. destruct (IH eq_refl) as (a' & Hin & Ha').
    exists a'. split; [apply list_elem_of_further; exact Hin|exact Ha'].
  - intros [= <-]. exists a. split; [apply list_elem_of_here|exact Hb].
Qed.

Lemma map_throwing_all {A B : Type} (f : A -> Completion B) (l : list A) :
  Forall (fun a => ∃ b, f a = Normal b) l -> ∃ l', map_throwing f l = Normal l'.
Proof.
  induction 1 as [|a l [b Hb] _ [l' IH]]; cbn; [eauto|].
  rewrite Hb, IH. cbn. eauto.
Qed.

(** The legacy tool takes the actions that are [acceptable], and no other. *)
Lemma prepareAction_acceptable (action : RawAction.t) :
  (∃ prepared, prepareAction expressions action = Normal prepared)
  ↔ acceptable expressions action.
Proof.
  unfold prepareAction, acceptable, Invariants.accepted.
  destruct (RawAction.expression action) as [expression|]; cbn.
  - destruct (bool_decide (expression = "")) eqn:Hempty; cbn.
    + apply bool_decide_eq_true in Hempty. split; [intros [? H]; discriminate H|].
      intros (e & d & [= <-] & Hne & _). congruence.
    + apply bool_decide_eq_false in Hempty.
      destruct (bool_decide (is_Some (expressionMap !! expression))) eqn:Hknown.
      * apply bool_decide_eq_true in Hknown.
        destruct (RawAction.duration action) as [duration|].
        -- destruct (PrimFloat.leb duration 0) eqn:Hd.
           ++ split; [intros [? H]; discriminate H|].
              intros (e & d & _ & _ & _ & [= <-] & Hpos). congruence.
           ++ split; [intros _; eauto 10|eauto].
        -- split; [intros [? H]; discriminate H|].
           intros (e & d & _ & _ & _ & H & _). discriminate H.
      * apply bool_decide_eq_false in Hknown. split; [intros [? H]; discriminate H|].
        intros (e & d & [= <-] & _ & Hacc & _). contradiction.
  - split; [intros [? H]; discriminate H|].
    intros (e & d & H & _). discriminate H.
Qed.

(** What a prepared action holds. *)
Lemma prepareAction_Normal (action : RawAction.t) (prepared : Action.t) :
  prepareAction expressions action = Normal prepared ->
  accepted (Action.expression prepared)
  ∧ RawAction.expression action = Some (Action.expression prepared)
  ∧ RawAction.duration action = Some (Action.duration prepared)
  ∧ Action.direction prepared = default Right (RawAction.direction action ≫= as_direction)
  ∧ Action.posX prepared = number_or (RawAction.posX action) 0
  ∧ Action.posY prepared = number_or (RawAction.posY action) 0
  ∧ Action.rotation prepared = default 0%float (clamp (-30) 30 <$> RawAction.rotation action)
  ∧ Action.scale prepared = default 1%float (clamp 0.1 3.0 <$> RawAction.scale action).
Proof.
  unfold prepareAction, Invariants.accepted.
  destruct (RawAction.expression action) as [expression|]; [|discriminate].
  destruct (truthy_string (Some expression)); cbn [andb]; [|discriminate].
  destruct (bool_decide (is_Some (expressionMap !! expression))) eqn:Hknown; [|discriminate].
  apply bool_decide_eq_true in Hknown.
  destruct (RawAction.duration action) as [duration|]; [|discriminate].
  destruct (PrimFloat.leb duration 0); [discriminate|].
  intros [= <-]. cbn.
  destruct (RawAction.rotation action), (RawAction.scale action); repeat split; assumption.
Qed.

Lemma prepared_valid (raw : list RawAction.t) (prepared : list Action.t)
    (l : bool) (r : option bool) (id : option string) :
  map_throwing (prepareAction expressions) raw = Normal prepared ->
  valid (Build_BatchExpressions l r prepared id) = prepared
  ∧ invalidActions expressions (Build_BatchExpressions l r prepared id) = []
  ∧ length prepared = length raw.
Proof.
  intros H. apply map_throwing_Normal in H.
  unfold validActions, invalidActions. cbn [actions].
  induction H as [|a p raw prepared Hp _ (IH1 & IH2 & IH3)]; [repeat split|].
  apply prepareAction_Normal in Hp as (Hacc & _).
  rewrite !filter_cons. cbn.
  destruct (decide (is_Some (expressionMap !! Action.expression p))) as [?|Hno];
    [|contradiction].
  destruct (decide (¬ is_Some (expressionMap !! Action.expression p))); [contradiction|].
  rewrite IH1, IH2, IH3. repeat split.
Qed.

Lemma map_throwing_Normal_all {A B : Type} (f : A -> Completion B) (l : list A) :
  (∃ l', map_throwing f l = Normal l') ↔ Forall (fun a => ∃ b, f a = Normal b) l.
Proof.
  split; [|apply map_throwing_all].
  intros [l' H]. apply map_throwing_Normal in H.
  induction H as [|a b l l' Hb _ IH]; constructor; eauto.
Qed.

Lemma setBatchExpressions_store (l : bool) (r : option bool) (raw : list RawAction.t)
    (st : Store) :
  (setBatchExpressions expressions uuidv4 l r raw st).1.1 =
    match raw with
    | [] => st
    | _ =>
        match map_throwing (prepareAction expressions) raw with
        | Normal prepared =>
            (handle (Build_BatchExpressions l (Some (bool_or_false r)) prepared
                                            (Some (uuidv4 (uuidCalls st))))
                    (drawn st)).1
        | Throw _ => st
        end
    end.
Proof.
  unfold setBatchExpressions. destruct raw as [|a raw]; [reflexivity|].
  destruct (map_throwing _ _); [|reflexivity].
  unfold drawn. destruct (handleBatchExpressionsUpdate _ _ _ _). reflexivity.
Qed.

(** *** The current expression stays one of the catalog *)

Lemma handle_resolves (b : BatchExpressions) (st : Store) :
  resolves st -> resolves (handle b st).1.
Proof.
  intros H. rewrite (handle_store expressions uuidv4).
  pose proof (valid_accepted b) as Hall.
  destruct (valid b) as [|first rest]; [exact H|].
  apply Forall_cons in Hall as [Hfirst _].
  destruct (Outcome.collapses expressions b); exact Hfirst.
Qed.

Lemma serve_resolves (r : Request) (st : Store) : resolves st -> resolves (serve r st).
Proof.
  intros H. destruct r as [|q|n state|b|n d x y r k|l rnd raw]; cbn [Requests.serve].
  - rewrite get_api_current_expression_store. exact H.
  - destruct (Query.name q) as [n|] eqn:Hn;
      [|unfold get_api_set_expression; rewrite Hn; exact H].
    destruct (expressionMap !! n) as [e|] eqn:He;
      [|unfold get_api_set_expression; rewrite Hn; cbn; rewrite He; exact H].
    destruct (get_api_set_expression_known expressions q st n e Hn He) as (s & -> & _).
    exists e. exact He.
  - unfold handleExpressionUpdate.
    destruct (expressionMap !! n) as [e|] eqn:He; [|exact H]. exists e. exact He.
  - apply handle_resolves. exact H.
  - destruct (expressionMap !! n) as [e|] eqn:He;
      [|unfold setAvatarExpression; rewrite He; exact H].
    destruct (setAvatarExpression_known expressions n d x y r k st e He) as (s & -> & _).
    exists e. exact He.
  - rewrite setBatchExpressions_store. destruct raw as [|a raw]; [exact H|].
    destruct (map_throwing _ _); [|exact H]. apply handle_resolves. exact H.
Qed.

Lemma serve_all_resolves (requests : list Request) (st : Store) :
  resolves st -> resolves (serve_all requests st).
Proof.
  revert st. induction requests as [|r requests IH]; intros st H; [exact H|].
  apply IH, serve_resolves, H.
Qed.

(** *** The stored batch keeps its shape *)

Lemma handle_batch_ok (b : BatchExpressions) (st : Store) :
  batch_ok st -> batch_ok (handle b st).1.
Proof.
  intros H. rewrite (handle_store expressions uuidv4).
  pose proof (valid_accepted b) as Hall. unfold Outcome.collapses.
  destruct (valid b) as [|first rest] eqn:Hvalid; [exact H|].
  destruct (bool_decide (length (first :: rest) = 1) && negb (loop b)) eqn:Hc.
  - intros stored Hstored. discriminate Hstored.
  - intros stored [= <-]. split; [|apply Forall_cons in Hall as [Hfirst _]; exact Hfirst].
    unfold Invariants.well_formed. cbn [actions loop random batchId with_actions].
    split; [discriminate|]. split; [exact Hall|]. split; [|split; eauto].
    intros Hone. rewrite (bool_decide_eq_true_2 _ Hone) in Hc.
    destruct (loop b); [reflexivity|discriminate Hc].
Qed.

Lemma serve_batch_ok (r : Request) (st : Store) : batch_ok st -> batch_ok (serve r st).
Proof.
  intros H. destruct r as [|q|n state|b|n d x y r k|l rnd raw]; cbn [Requests.serve].
  - rewrite get_api_current_expression_store. exact H.
  - destruct (Query.name q) as [n|] eqn:Hn;
      [|unfold get_api_set_expression; rewrite Hn; exact H].
    destruct (expressionMap !! n) as [e|] eqn:He;
      [|unfold get_api_set_expression; rewrite Hn; cbn; rewrite He; exact H].
    destruct (get_api_set_expression_known expressions q st n e Hn He) as (s & -> & _).
    intros stored Hstored. destruct (H stored Hstored) as [Hwf _].
    split; [exact Hwf|]. exists e. exact He.
  - unfold handleExpressionUpdate.
    destruct (expressionMap !! n) as [e|] eqn:He; [|exact H].
    intros stored Hstored. discriminate Hstored.
  - apply handle_batch_ok. exact H.
  - destruct (expressionMap !! n) as [e|] eqn:He;
      [|unfold setAvatarExpression; rewrite He; exact H].
    destruct (setAvatarExpression_known expressions n d x y r k st e He) as (s & -> & _).
    intros stored Hstored. discriminate Hstored.
  - rewrite setBatchExpressions_store. destruct raw as [|a raw]; [exact H|].
    destruct (map_throwing _ _); [|exact H]. apply handle_batch_ok. exact H.
Qed.

(** *** Rotation and scale stay within their ranges *)

Lemma handle_in_range (b : BatchExpressions) (st : Store) :
  in_range (avatarState st) ->
  Forall (fun action => in_range (state_of_action action)) (actions b) ->
  in_range (avatarState (handle b st).1).
Proof.
  intros H Hall. rewrite (handle_store expressions uuidv4).
  destruct (valid b) as [|first rest] eqn:Hvalid; [exact H|].
  assert (first ∈ actions b) as Hin.
  { assert (first ∈ valid b) as Hin by (rewrite Hvalid; apply list_elem_of_here).
    apply list_elem_of_filter in Hin as [_ Hin]. exact Hin. }
  rewrite Forall_forall in Hall.
  destruct (Outcome.collapses expressions b); exact (Hall first Hin).
Qed.

Lemma prepared_in_range (raw : list RawAction.t) (prepared : list Action.t) :
  Forall2 (fun a p => prepareAction expressions a = Normal p) raw prepared ->
  Forall (fun action =>
            (∀ v, RawAction.rotation action = Some v → JS.isNaN v = false)
            ∧ (∀ v, RawAction.scale action = Some v → JS.isNaN v = false)) raw ->
  Forall (fun action => in_range (state_of_action action)) prepared.
Proof.
  induction 1 as [|a p raw prepared Hp _ IH]; intros Htame; [constructor|].
  apply Forall_cons in Htame as [[Hr Hk] Htame].
  constructor; [|apply IH; exact Htame].
  apply prepareAction_Normal in Hp as (_ & _ & _ & _ & _ & _ & Hrot & Hsc).
  split; cbn [state_of_action rotation scale].
  - rewrite Hrot. destruct (RawAction.rotation a) as [v|]; [|reflexivity].
    apply clamp_within; [reflexivity..|]. apply Hr. reflexivity.
  - rewrite Hsc. destruct (RawAction.scale a) as [v|]; [|reflexivity].
    apply clamp_within; [reflexivity..|]. apply Hk. reflexivity.
Qed.

Lemma serve_in_range (r : Request) (st : Store) :
  tame r -> in_range (avatarState st) -> in_range (avatarState (serve r st)).
Proof.
  intros Htame H.
  destruct r as [|q|n state|b|n d x y r k|l rnd raw]; cbn [Requests.serve]; cbn [tame] in Htame.
  - rewrite get_api_current_expression_store. exact H.
  - destruct (Query.name q) as [n|] eqn:Hn;
      [|unfold get_api_set_expression; rewrite Hn; exact H].
    destruct (expressionMap !! n) as [e|] eqn:He;
      [|unfold get_api_set_expression; rewrite Hn; cbn; rewrite He; exact H].
    destruct (get_api_set_expression_known expressions q st n e Hn He)
      as (s & -> & _ & _ & _ & Hr & Hk).
    destruct H as [Hrot Hsc]. split; cbn [fst avatarState].
    + rewrite Hr. destruct (Query.rotation q) as [v|]; [|exact Hrot].
      apply clamp_within; [reflexivity..|]. apply Htame. reflexivity.
    + rewrite Hk. destruct (Query.scale q) as [v|]; [|exact Hsc].
      destruct (JS.isNaN (JS.parseFloat v)) eqn:Hnan; [exact Hsc|].
      apply clamp_within; [reflexivity..|exact Hnan].
  - unfold handleExpressionUpdate.
    destruct (expressionMap !! n); [exact Htame|exact H].
  - apply handle_in_range; assumption.
  - destruct (expressionMap !! n) as [e|] eqn:He;
      [|unfold setAvatarExpression; rewrite He; exact H].
    destruct (setAvatarExpression_known expressions n d x y r k st e He)
      as (s & -> & _ & _ & _ & Hr & Hk).
    destruct H as [Hrot Hsc], Htame as [Htr Htk]. split; cbn [fst avatarState].
    + rewrite Hr. destruct r as [v|]; [|exact Hrot].
      apply clamp_within; [reflexivity..|]. apply Htr. reflexivity.
    + rewrite Hk. destruct k as [v|]; [|exact Hsc].
      apply clamp_within; [reflexivity..|]. apply Htk. reflexivity.
  - rewrite setBatchExpressions_store. destruct raw as [|a raw]; [exact H|].
    destruct (map_throwing _ _) as [prepared|m] eqn:Hm; [|exact H].
    apply handle_in_range; [exact H|]. cbn [actions].
    apply map_throwing_Normal in Hm. exact (prepared_in_range _ _ Hm Htame).
Qed.

(** X5: a name that [Object.keys(expressionMap)] does not list (and that
    is not an inherited one) changes nothing, whichever way it arrives:
    [GET /api/set-expression] answers 400 with the names of the catalog,
    the legacy tools throw, and the callback of the MCP module returns; the
    store is the one before.  A query without a name is answered the same
    way. *)
Theorem unlisted_name_changes_nothing (n : string) (st : Store) :
  plain_catalog expressions →
  own_name n →
  n ∉ Object_keys expressions →
  (∀ q, Query.name q = Some n ∨ Query.name q = None →
        ∃ names,
          get_api_set_expression expressions q st
          = (st, BadRequest400 "Invalid expression name" names)
          ∧ ∀ known, known ∈ names ↔ accepted known)
  ∧ (∀ d x y r k,
        ∃ m, setAvatarExpression expressions n d x y r k st = (st, Throw m))
  ∧ (∀ state, handleExpressionUpdate expressions n state st = st)
  ∧ (∀ l rnd before action after,
        RawAction.expression action = Some n →
        ∃ m, setBatchExpressions expressions uuidv4 l rnd (before ++ action :: after) st
             = (st, [], Throw m)).
Proof.
  intros _ _ Hno.
  assert (expressionMap !! n = None) as He.
  { apply eq_None_not_Some. intros Hsome. apply Hno.
    apply Object_keys_lists, expressionMap_accepts. exact Hsome. }
  split; [|split; [|split]].
  - intros q Hq. exists (Object_keys expressions). split.
    + destruct Hq as [Hq|Hq]; unfold get_api_set_expression; rewrite Hq; cbn;
        [rewrite He|]; reflexivity.
    + intros known. unfold Invariants.accepted.
      rewrite expressionMap_accepts. apply Object_keys_lists.
  - intros d x y r k. unfold setAvatarExpression. rewrite He. eauto.
  - intros state. unfold handleExpressionUpdate. rewrite He. reflexivity.
  - intros l rnd before action after Haction.
    destruct (map_throwing (prepareAction expressions) (before ++ action :: after))
      as [prepared|m] eqn:Hm.
    + exfalso. assert (∃ p, prepareAction expressions action = Normal p) as [p Hp].
      { pose proof (proj1 (map_throwing_Normal_all _ _) (ex_intro _ prepared Hm)) as Hall.
        rewrite Forall_forall in Hall. apply Hall.
        rewrite elem_of_app, elem_of_cons. auto. }
      apply prepareAction_Normal in Hp as ([e' He'] & Hexp & _).
      rewrite Haction in Hexp. injection Hexp as Hexp. congruence.
    + exists m. unfold setBatchExpressions. rewrite Hm.
      destruct before; reflexivity.
Qed.

(** X6: once the current expression is one of the catalog it stays one,
    whatever requests arrive (none of them with an inherited name), so [GET /api/current-expression] never
    answers 404: it answers 200 with the catalog entry of that name and
    leaves the store alone. *)
Theorem current_expression_is_always_found (requests : list Request) (st : Store) :
  plain_catalog expressions →
  Forall plain requests →
  resolves st →
  ∃ body,
    get_api_current_expression expressions (serve_all requests st)
    = (serve_all requests st, Ok200 body)
    ∧ name (entry body) = currentExpression (serve_all requests st)
    ∧ entry body ∈ expressions.
Proof.
  intros _ _ H. apply (serve_all_resolves requests) in H. destruct H as [e He].
  unfold get_api_current_expression. rewrite He.
  eexists. split; [reflexivity|]. cbn [entry].
  apply expressionMap_lookup in He. exact He.
Qed.

Lemma serve_all_batch_ok (requests : list Request) (st : Store) :
  batch_ok st -> batch_ok (serve_all requests st).
Proof.
  revert st. induction requests as [|r requests IH]; intros st H; [exact H|].
  apply IH, serve_batch_ok, H.
Qed.

(** X7: the batch the store holds is well formed, whatever requests have
    arrived (none of them with an inherited name): it has at least one action, every action names a catalog
    entry, a single action only with [loop], [random] and [batchId] are
    there, and the current expression is one of the catalog.  So the page
    never receives a batch that is empty or names an image that is not
    there. *)
Theorem stored_batch_is_well_formed (requests : list Request) (st : Store) :
  plain_catalog expressions →
  Forall plain requests →
  batch_ok st →
  batch_ok (serve_all requests st)
  ∧ ∀ body b,
      (get_api_current_expression expressions (serve_all requests st)).2 = Ok200 body →
      batchExpressions body = Some b →
      actions b ≠ []
      ∧ Forall (fun action => accepted (Action.expression action)) (actions b)
      ∧ is_Some (batchId b).
Proof.
  intros _ _ H. apply (serve_all_batch_ok requests) in H. split; [exact H|].
  intros body b. unfold get_api_current_expression.
  destruct (expressionMap !! _); [|discriminate]. cbn [snd]. intros [= <-].
  cbn [batchExpressions].
  destruct (batchExpressionsState (serve_all requests st)) as [stored|] eqn:Hs;
    [|discriminate].
  intros [= <-]. destruct (H stored Hs) as [(Hne & Hall & _ & _ & Hid) _].
  cbn [actions batchId]. repeat split; assumption.
Qed.

(** X8: rotation and scale stay within -30..30 and 0.1..3.0 over any run of
    requests that bring numbers: no rotation of a query that [parseInt]
    reads as [NaN], no [NaN] handed to a tool, and callbacks called with
    values within the ranges. *)
Theorem ranges_hold_without_nan (requests : list Request) (st : Store) :
  plain_catalog expressions →
  Forall plain requests →
  Forall tame requests →
  in_range (avatarState st) →
  in_range (avatarState (serve_all requests st)).
Proof.
  intros _ _. revert st.
  induction requests as [|r requests IH]; intros st Htame H; [exact H|].
  apply Forall_cons in Htame as [Hr Htame].
  apply IH; [exact Htame|]. apply serve_in_range; assumption.
Qed.

(** *** The legacy tool [setBatchExpressions] *)

Lemma setBatchExpressions_Normal (l : bool) (r : option bool)
    (a : RawAction.t) (raw : list RawAction.t) (st : Store) (prepared : list Action.t) :
  map_throwing (prepareAction expressions) (a :: raw) = Normal prepared ->
  let b := Build_BatchExpressions l (Some (bool_or_false r)) prepared
                                  (Some (uuidv4 (uuidCalls st))) in
  setBatchExpressions expressions uuidv4 l r (a :: raw) st
  = ((handle b (drawn st)).1, (handle b (drawn st)).2,
     Normal {| batch_success := true;
               batch_message := batchSet (length prepared) l;
               batch_batchId := Some (uuidv4 (uuidCalls st)) |}).
Proof.
  intros Hm b. subst b. unfold setBatchExpressions. rewrite Hm. unfold drawn.
  destruct (handleBatchExpressionsUpdate _ _ _ _). reflexivity.
Qed.

(** What [handleBatchExpressionsUpdate] does with a batch all of whose
    actions are valid. *)
Lemma handle_all_valid (b : BatchExpressions) (st : Store)
    (first : Action.t) (rest : list Action.t) :
  actions b = first :: rest ->
  valid b = actions b ->
  invalidActions expressions b = [] ->
  handle b st
  = (if Outcome.collapses expressions b then collapsed first st
     else installed uuidv4 b first st,
     BatchUpdatedViaMcp b
       :: if Outcome.collapses expressions b
          then [SingleActionConverted (Action.expression first)] else []).
Proof.
  intros Hactions Hvalid Hinvalid.
  unfold handleBatchExpressionsUpdate, Outcome.collapses.
  rewrite Hinvalid, Hvalid, Hactions.
  rewrite (bool_decide_eq_false_2 (length (first :: rest) ≠ length (first :: rest)))
    by (intros H; apply H; reflexivity).
  destruct (bool_decide (length (first :: rest) = 1) && negb (loop b)); [reflexivity|].
  unfold installed, assigned_batchId. rewrite Hactions. reflexivity.
Qed.

Lemma leb_zero_false (d : JS.number) :
  PrimFloat.leb d 0 = false -> PrimFloat.ltb 0 d = true ∨ JS.isNaN d = true.
Proof.
  intros H. rewrite FloatAxioms.leb_spec in H. rewrite FloatAxioms.ltb_spec.
  unfold JS.isNaN, PrimFloat.is_nan. rewrite FloatAxioms.eqb_spec.
  change (Prim2SF 0) with (S754_zero false) in *.
  unfold SFleb, SFltb, SFeqb in *.
  destruct (Prim2SF d) as [[]|[]| |[] m e]; cbn in *; try discriminate; auto.
Qed.

Lemma truthy_not_nan (x : JS.number) : JS.truthy x = true -> JS.isNaN x = false.
Proof.
  unfold JS.truthy, JS.isNaN. intros H. apply negb_true_iff, orb_false_iff in H. apply H.
Qed.

Lemma number_or_not_nan (x : option JS.number) : JS.isNaN (number_or x 0) = false.
Proof.
  destruct x as [n|]; [|reflexivity]. unfold number_or.
  destruct (JS.truthy n) eqn:Hn; [apply truthy_not_nan; exact Hn|reflexivity].
Qed.


(** X10: what the legacy tool stores for an action it takes.  The name is
    one of the catalog; the duration is above zero or [NaN] (a [NaN] passes
    the test [<= 0]); [posX] and [posY] are never [NaN] ([NaN || 0] is 0);
    the direction is [left] only when asked for; rotation and scale are
    within their ranges when they are left out or are numbers, and [NaN]
    when [NaN] was handed in. *)
Theorem prepared_action_is_normalised (action : RawAction.t) (prepared : Action.t) :
  plain_catalog expressions →
  (∀ n, RawAction.expression action = Some n → own_name n) →
  prepareAction expressions action = Normal prepared →
  accepted (Action.expression prepared)
  ∧ (PrimFloat.ltb 0 (Action.duration prepared) = true
     ∨ JS.isNaN (Action.duration prepared) = true)
  ∧ JS.isNaN (Action.posX prepared) = false
  ∧ JS.isNaN (Action.posY prepared) = false
  ∧ (Action.direction prepared = Left ↔ RawAction.direction action = Some "left")
  ∧ (∀ lo hi got given,
       (lo, hi, got, given)
         ∈ [((-30)%float, 30%float, Action.rotation prepared, RawAction.rotation action);
            (0.1%float, 3.0%float, Action.scale prepared, RawAction.scale action)] →
       match given with
       | Some v => if JS.isNaN v then JS.isNaN got = true else within lo hi got = true
       | None => within lo hi got = true
       end).
Proof.
  intros _ _ H.
  assert (PrimFloat.leb (Action.duration prepared) 0 = false) as Hd.
  { unfold prepareAction in H.
    destruct (RawAction.expression action); [|discriminate].
    destruct (_ && _); [|discriminate].
    destruct (RawAction.duration action) as [d|]; [|discriminate].
    destruct (PrimFloat.leb d 0) eqn:Hd; [discriminate|].
    injection H as <-. exact Hd. }
  apply prepareAction_Normal in H as (Hacc & _ & _ & Hdir & Hx & Hy & Hr & Hk).
  split; [exact Hacc|]. split; [apply leb_zero_false; exact Hd|].
  split; [rewrite Hx; apply number_or_not_nan|].
  split; [rewrite Hy; apply number_or_not_nan|].
  split.
  - rewrite Hdir. destruct (RawAction.direction action) as [d|]; cbn; [|split; discriminate].
    unfold as_direction. case_bool_decide as Hleft; [subst d; cbn; tauto|].
    case_bool_decide; cbn; (split; [discriminate|congruence]).
  - intros lo hi got given Hin.
    rewrite !elem_of_cons, elem_of_nil in Hin.
    destruct Hin as [[= -> -> -> ->]|[[= -> -> -> ->]|[]]].
    + rewrite Hr. destruct (RawAction.rotation action) as [v|]; [|reflexivity].
      cbn [default fmap option_fmap option_map]. destruct (JS.isNaN v) eqn:Hv.
      * rewrite (clamp_nan _ _ _ Hv). reflexivity.
      * apply clamp_within; [reflexivity..|exact Hv].
    + rewrite Hk. destruct (RawAction.scale action) as [v|]; [|reflexivity].
      cbn [default fmap option_fmap option_map]. destruct (JS.isNaN v) eqn:Hv.
      * rewrite (clamp_nan _ _ _ Hv). reflexivity.
      * apply clamp_within; [reflexivity..|exact Hv].
Qed.

End Store.

Lemma unlisted_name_changes_nothing_witness :
  plain_catalog Samples.catalog
  ∧ own_name "grumpy"
  ∧ ("grumpy" ∉ Object_keys Samples.catalog)
  ∧ (get_api_set_expression Samples.catalog (Samples.onlyName "grumpy")
       Samples.batchActive).1
    = Samples.batchActive
  ∧ handleExpressionUpdate Samples.catalog "grumpy" (Samples.movedAvatar 0 0)
      Samples.batchActive
    = Samples.batchActive.
Proof.
  assert (own_name "grumpy") as Hown by (apply (bool_decide_unpack _); vm_compute; exact I).
  assert ("grumpy" ∉ Object_keys Samples.catalog) as Hno.
  { rewrite Object_keys_lists. cbn. rewrite !elem_of_cons, elem_of_nil.
    intros [H|[H|[]]]; discriminate H. }
  destruct (unlisted_name_changes_nothing Samples.catalog Samples.ids "grumpy"
              Samples.batchActive catalog_plain Hown Hno) as (Hq & _ & Hcb & _).
  split; [exact catalog_plain|]. split; [exact Hown|].
  split; [exact Hno|]. split; [|apply Hcb].
  destruct (Hq (Samples.onlyName "grumpy") (or_introl eq_refl)) as (names & -> & _).
  reflexivity.
Defined.

Lemma current_expression_is_always_found_witness :
  plain_catalog (loadExpressions (Throw "ENOENT"))
  ∧ Forall plain Samples.traffic
  ∧ Invariants.resolves (loadExpressions (Throw "ENOENT")) initialStore
  ∧ ∃ body,
      get_api_current_expression (loadExpressions (Throw "ENOENT"))
        (Invariants.serve_all (loadExpressions (Throw "ENOENT")) Samples.ids
           Samples.traffic initialStore)
      = (Invariants.serve_all (loadExpressions (Throw "ENOENT")) Samples.ids
           Samples.traffic initialStore,
         Ok200 body)
      ∧ name (entry body)
        = currentExpression
            (Invariants.serve_all (loadExpressions (Throw "ENOENT")) Samples.ids
               Samples.traffic initialStore)
      ∧ entry body ∈ loadExpressions (Throw "ENOENT").
Proof.
  assert (Invariants.resolves (loadExpressions (Throw "ENOENT")) initialStore) as H
    by (eexists; vm_compute; reflexivity).
  split; [exact fallback_plain|]. split; [exact traffic_plain|]. split; [exact H|].
  exact (current_expression_is_always_found (loadExpressions (Throw "ENOENT")) Samples.ids
           Samples.traffic initialStore fallback_plain traffic_plain H).
Defined.

Lemma stored_batch_is_well_formed_witness :
  plain_catalog Samples.catalog
  ∧ Forall plain Samples.traffic
  ∧ Invariants.batch_ok Samples.catalog initialStore
  ∧ ∃ b,
      batchExpressionsState
        (Invariants.serve_all Samples.catalog Samples.ids Samples.traffic initialStore)
      = Some b
      ∧ Action.expression <$> actions b = ["perplexed"; "joyful"]
      ∧ Invariants.well_formed Samples.catalog b.
Proof.
  assert (Invariants.batch_ok Samples.catalog initialStore) as H
    by (intros b Hb; discriminate Hb).
  split; [exact catalog_plain|]. split; [exact traffic_plain|]. split; [exact H|].
  pose proof (proj1 (stored_batch_is_well_formed Samples.catalog Samples.ids
                       Samples.traffic initialStore catalog_plain traffic_plain H))
    as Hok.
  destruct (batchExpressionsState
              (Invariants.serve_all Samples.catalog Samples.ids Samples.traffic initialStore))
    as [b|] eqn:Hb; [|vm_compute in Hb; discriminate Hb].
  exists b. split; [reflexivity|].
  split; [vm_compute in Hb; injection Hb as <-; reflexivity|].
  apply Hok. exact Hb.
Defined.

Lemma ranges_hold_without_nan_witness :
  plain_catalog Samples.catalog
  ∧ Forall plain Samples.traffic
  ∧ Forall tame Samples.traffic
  ∧ in_range (avatarState initialStore)
  ∧ in_range
      (avatarState
         (Invariants.serve_all Samples.catalog Samples.ids Samples.traffic initialStore)).
Proof.
  assert (Forall tame Samples.traffic) as Htame.
  { repeat (apply Forall_cons; split); try apply Forall_nil; cbn;
      try (intros v Hv; discriminate Hv); try exact I;
      repeat (apply Forall_cons; split); try apply Forall_nil;
      try (split; intros v Hv; discriminate Hv); split; reflexivity. }
  assert (in_range (avatarState initialStore)) as H by (split; reflexivity).
  split; [exact catalog_plain|]. split; [exact traffic_plain|].
  split; [exact Htame|]. split; [exact H|].
  exact (ranges_hold_without_nan Samples.catalog Samples.ids Samples.traffic initialStore
           catalog_plain traffic_plain Htame H).
Defined.


Lemma prepared_action_is_normalised_witness :
  plain_catalog Samples.catalog
  ∧ ∃ prepared,
    prepareAction Samples.catalog Samples.rawLeaning = Normal prepared
    ∧ Action.direction prepared ≠ Left
    ∧ JS.isNaN (Action.posX prepared) = false
    ∧ Range.within (-30) 30 (Action.rotation prepared) = true
    ∧ Range.within 0.1 3.0 (Action.scale prepared) = true.
Proof.
  split; [exact catalog_plain|].
  assert (∀ n, RawAction.expression Samples.rawLeaning = Some n → own_name n) as Hown.
  { intros n [= <-]. pose proof sample_names_own as Hnames. rewrite Forall_forall in Hnames.
    apply Hnames. rewrite !elem_of_cons. auto. }
  eexists. split; [reflexivity|].
  destruct (prepared_action_is_normalised Samples.catalog Samples.rawLeaning _
              catalog_plain Hown eq_refl)
    as (_ & _ & Hx & _ & Hdir & Hrange).
  split; [intros Hleft; apply Hdir in Hleft; discriminate Hleft|].
  split; [exact Hx|].
  split; [exact (Hrange _ _ _ _ (list_elem_of_here _ _))|].
  exact (Hrange _ _ _ _ (list_elem_of_further _ _ _ (list_elem_of_here _ _))).
Defined.

End StoreInvariants.

(** ** The identifier of the running batch *)
Module BatchIdLaw.
Import Server Range Reading Outcome Requests Invariants Samples.
Import ServerFacts CatalogFacts BatchUpdate BatchId StoreInvariants.

Section Law.

Variable expressions : list Expression.
Variable uuidv4 : nat -> string.

Abbreviation serve := (Requests.serve expressions uuidv4).
Abbreviation serve_all := (Invariants.serve_all expressions uuidv4).
Abbreviation installs := (Requests.installs expressions uuidv4).
Abbreviation new_batchId := (Requests.new_batchId expressions uuidv4).


End Law.



End BatchIdLaw.

(** ** The module of the MCP tools *)
Module McpFacts.
Import Server Range Reading Outcome Requests Invariants NumberFacts ServerFacts BatchUpdate
       CatalogFacts StoreInvariants.

Section Tools.

Variable expressions : list Expression.
Variable uuidv4 : nat -> string.
Variable randomId : nat -> string.

Abbreviation expressionMap := (Server.expressionMap expressions).
Abbreviation handle := (handleBatchExpressionsUpdate expressions uuidv4).
Abbreviation valid := (validActions expressions).
Abbreviation accepted := (Invariants.accepted expressions).
Abbreviation setAvatarExpression := (Mcp.setAvatarExpression expressions).
Abbreviation setBatchExpressions := (Mcp.setBatchExpressions expressions uuidv4 randomId).

Lemma all_accepted_valid (b : BatchExpressions) :
  Forall (fun action => accepted (Action.expression action)) (actions b) ->
  valid b = actions b ∧ invalidActions expressions b = [].
Proof.
  unfold validActions, invalidActions.
  induction 1 as [|a l Ha _ [IH1 IH2]]; [split; reflexivity|].
  rewrite !filter_cons.
  destruct (decide (is_Some (expressionMap !! Action.expression a))) as [?|Hno];
    [|contradiction].
  destruct (decide (¬ is_Some (expressionMap !! Action.expression a))); [contradiction|].
  rewrite IH1, IH2. split; reflexivity.
Qed.

Lemma Mcp_prepareAction_Normal (action : Mcp.ToolAction.t) (prepared : Action.t) :
  Mcp.prepareAction expressions action = Normal prepared ->
  accepted (Action.expression prepared).
Proof.
  unfold Mcp.prepareAction.
  destruct (truthy_string _); cbn [andb]; [|discriminate].
  case_bool_decide as Hknown; [|discriminate].
  intros [= <-]. exact Hknown.
Qed.

Lemma Mcp_prepared_accepted (tools : list Mcp.ToolAction.t) (prepared : list Action.t) :
  map_throwing (Mcp.prepareAction expressions) tools = Normal prepared ->
  Forall (fun action => accepted (Action.expression action)) prepared
  ∧ length prepared = length tools.
Proof.
  intros H. apply map_throwing_Normal in H.
  induction H as [|a p l l' Hp _ [IH1 IH2]]; [split; [constructor|reflexivity]|].
  split; [constructor; [exact (Mcp_prepareAction_Normal a p Hp)|exact IH1]|].
  cbn. rewrite IH2. reflexivity.
Qed.

(** X11: a tool call of the MCP module that goes through leaves the module
    and the server with the same expression and the same avatar state,
    whatever they held before; one that is refused leaves both as they
    were.  [setAvatarExpression] goes through for the names of the catalog,
    and the server then holds no batch.  (The names are not inherited
    ones.) *)
Theorem mcp_tools_restore_agreement (w : Mcp.State * Store) :
  plain_catalog expressions →
  (∀ n d x y r k,
     own_name n →
     let after := (setAvatarExpression n d x y r k w).1 in
     (accepted n →
      agree after ∧ currentExpression after.2 = n ∧ batchExpressionsState after.2 = None)
     ∧ (¬ accepted n → after = w))
  ∧ (∀ l rnd tools,
       Forall (fun action => own_name (Mcp.ToolAction.expression action)) tools →
       let result := setBatchExpressions l rnd tools w in
       match result.2 with
       | Normal _ => (tools = [] ∧ result.1 = (w, [])) ∨ (tools ≠ [] ∧ agree result.1.1)
       | Throw _ => result.1 = (w, [])
       end).
Proof.
  intros _. destruct w as [m st]. split.
  - intros n d x y r k _. cbv zeta. unfold Mcp.setAvatarExpression, Invariants.accepted.
    destruct (expressionMap !! n) as [e|] eqn:He.
    + split; [|intros Hno; exfalso; apply Hno; eauto].
      intros _. unfold handleExpressionUpdate. rewrite He. cbn. repeat split.
    + split; [intros [e He']; congruence|reflexivity].
  - intros l rnd tools _. cbv zeta. unfold Mcp.setBatchExpressions.
    destruct tools as [|a tools]; [left; split; reflexivity|].
    destruct (map_throwing (Mcp.prepareAction expressions) (a :: tools))
      as [prepared|msg] eqn:Hm; [|reflexivity].
    destruct (Mcp_prepared_accepted _ _ Hm) as [Hall Hlen].
    destruct prepared as [|first rest]; [discriminate Hlen|].
    set (b := Build_BatchExpressions l (Some (bool_or_false rnd)) (first :: rest)
                                     (Some (randomId (Mcp.idsDrawn m)))).
    destruct (all_accepted_valid b Hall) as [Hv Hi].
    rewrite (handle_all_valid expressions uuidv4 b st first rest eq_refl Hv Hi).
    cbn [fst snd]. right. split; [discriminate|].
    destruct (Outcome.collapses expressions b); split; reflexivity.
Qed.

Lemma Object_keys_loop_head (l : list Expression) (n : string) (keys : list string) :
  head (foldl (fun keys exp =>
                 if bool_decide (name exp ∈ keys) then keys else keys ++ [name exp])
              (n :: keys) l)
  = Some n.
Proof.
  revert keys. induction l as [|x l IH]; intros keys; [reflexivity|].
  cbn [foldl]. case_bool_decide; [apply IH|].
  change ((n :: keys) ++ [name x]) with (n :: (keys ++ [name x])). apply IH.
Qed.

Lemma Object_keys_head (e : Expression) (l : list Expression) :
  head (Object_keys (e :: l)) = Some (name e).
Proof.
  unfold Object_keys. cbn [foldl]. rewrite bool_decide_eq_false_2 by apply not_elem_of_nil.
  apply Object_keys_loop_head.
Qed.

End Tools.

(** X12: the expression the MCP module starts with.  With a catalog that is
    not empty it is the name of an entry of the catalog, and it is [joyful]
    exactly when the catalog has that name (where the server itself starts
    with [joyful] in any case). *)
Theorem mcp_module_starts_on_a_catalog_name (expressions : list Expression) :
  plain_catalog expressions →
  expressions ≠ [] →
  let start := Mcp.currentExpression (Mcp.initialState expressions) in
  Invariants.accepted expressions start
  ∧ start ∈ name <$> expressions
  ∧ (start = "joyful" ↔ Invariants.accepted expressions "joyful").
Proof.
  intros _ Hne.
  enough (let start := Mcp.currentExpression (Mcp.initialState expressions) in
          Invariants.accepted expressions start
          ∧ (Invariants.accepted expressions "joyful" → start = "joyful")) as [Hacc Hj].
  { cbv zeta. split; [exact Hacc|]. split; [apply expressionMap_accepts; exact Hacc|].
    split; [|exact Hj]. intros Heq. rewrite Heq in Hacc. exact Hacc. }
  enough (let start := Mcp.currentExpression (Mcp.initialState expressions) in
          Invariants.accepted expressions start
          ∧ (Invariants.accepted expressions "joyful" → start = "joyful")
          ∧ (¬ Invariants.accepted expressions "joyful"
             → Some start = name <$> head expressions)) as (H1 & H2 & _)
    by (split; assumption).
  cbv zeta. unfold Mcp.initialState. cbn [Mcp.currentExpression].
  destruct expressions as [|e l]; [congruence|].
  rewrite Object_keys_head. cbn [default head fmap option_fmap option_map].
  unfold Invariants.accepted.
  case_bool_decide as Hj.
  - apply Object_keys_lists, expressionMap_accepts in Hj.
    split; [exact Hj|]. split; [reflexivity|]. intros Hno. contradiction.
  - assert (¬ is_Some (Server.expressionMap (e :: l) !! "joyful")) as Hno.
    { intros H. apply Hj. apply Object_keys_lists, expressionMap_accepts. exact H. }
    split; [|split; [intros H; contradiction|reflexivity]].
    apply expressionMap_accepts. cbn. apply list_elem_of_here.
Qed.

Lemma mcp_module_starts_on_a_catalog_name_witness :
  plain_catalog [Samples.perplexed; Samples.joyful]
  ∧ plain_catalog [Samples.perplexed]
  ∧ Mcp.currentExpression (Mcp.initialState [Samples.perplexed; Samples.joyful]) = "joyful"
  ∧ Mcp.currentExpression (Mcp.initialState [Samples.perplexed]) = "perplexed".
Proof.
  assert (plain_catalog [Samples.perplexed; Samples.joyful]) as Hboth
    by (apply (bool_decide_unpack _); vm_compute; exact I).
  assert (plain_catalog [Samples.perplexed]) as Hone
    by (apply (bool_decide_unpack _); vm_compute; exact I).
  destruct (mcp_module_starts_on_a_catalog_name [Samples.perplexed; Samples.joyful]
              Hboth ltac:(discriminate)) as (_ & _ & Hjoyful).
  destruct (mcp_module_starts_on_a_catalog_name [Samples.perplexed]
              Hone ltac:(discriminate)) as (_ & Hin & _).
  split; [exact Hboth|]. split; [exact Hone|].
  split; [apply Hjoyful; eexists; vm_compute; reflexivity|].
  cbn in Hin. apply list_elem_of_singleton in Hin. exact Hin.
Defined.

Lemma mcp_tools_restore_agreement_witness :
  let start := (Mcp.initialState Samples.catalog, Samples.moved) in
  plain_catalog Samples.catalog
  ∧ ¬ agree start
  ∧ agree (Mcp.setAvatarExpression Samples.catalog "perplexed" None None None None None
             start).1
  ∧ (Mcp.setAvatarExpression Samples.catalog "grumpy" None None None None None start).1
    = start.
Proof.
  cbv zeta.
  pose proof sample_names_own as Hnames. rewrite Forall_forall in Hnames.
  destruct (mcp_tools_restore_agreement Samples.catalog Samples.ids Samples.ids
              (Mcp.initialState Samples.catalog, Samples.moved) catalog_plain)
    as [Hset _].
  split; [exact catalog_plain|]. split; [intros [_ H]; discriminate H|]. split.
  - apply (Hset "perplexed"); [apply Hnames; rewrite !elem_of_cons; auto|].
    eexists. vm_compute. reflexivity.
  - apply (Hset "grumpy"); [apply Hnames; rewrite !elem_of_cons; auto|].
    intros H. apply expressionMap_accepts in H. cbn in H.
    rewrite !elem_of_cons, elem_of_nil in H. destruct H as [H|[H|[]]]; discriminate H.
Defined.

End McpFacts.

(** ** What the page keeps while it plays *)
Module PlayerInvariants.
Import Client Frames Invariants PlayerFacts.

Section Playing.

Variable Math_random : nat -> JS.number.

Abbreviation step := (Client.step Math_random).
Abbreviation run := (Client.run Math_random).
Abbreviation fire := (Client.fire Math_random).
Abbreviation tick := (Client.tick Math_random).
Abbreviation onBatchTimeout := (Client.onBatchTimeout Math_random).

Lemma stop_timers (p : Player) : steady p -> timers (stopBatchExpression p) = [].
Proof.
  intros [H|(id & delay & batch & Ht & Hb & _)]; unfold stopBatchExpression; cbn [timers].
  - rewrite H. destruct (batchTimeout p); reflexivity.
  - rewrite Hb, Ht. apply clearTimeout_only.
Qed.

Lemma processBatchAction_steady (p : Player) :
  timers p = [] -> steady (processBatchAction p).
Proof.
  intros Ht. unfold processBatchAction.
  destruct (currentBatch p) as [batch|] eqn:Hb; [|left; exact Ht].
  destruct (Batch.actions batch !! currentActionIndex p) as [action|] eqn:Hl.
  2: { destruct (Batch.actions batch); left; exact Ht. }
  apply lookup_lt_Some in Hl.
  destruct (Batch.actions batch) as [|a l] eqn:Ha; [left; exact Ht|].
  right. exists (nextTimer p), (default 0%float (Action.duration action)), batch.
  cbn. rewrite Ht, Hb, Ha. repeat split. exact Hl.
Qed.

Lemma updateAvatar_steady (response : Fetched) (p : Player) :
  steady p -> steady (updateAvatar response p).
Proof.
  intros H. destruct response as [| |data]; [exact H..|]. unfold updateAvatar.
  destruct (batchExpressions data) as [batch|].
  - case_bool_decide; [|exact H]. unfold startBatchExpression.
    apply processBatchAction_steady. cbn [timers]. apply stop_timers. exact H.
  - left. unfold updateSingleExpression. cbn [timers]. apply stop_timers. exact H.
Qed.

Lemma onBatchTimeout_steady (p : Player) : timers p = [] -> steady (onBatchTimeout p).
Proof.
  intros Ht. unfold Client.onBatchTimeout.
  destruct (currentBatch p) as [batch|]; [|left; exact Ht].
  case_bool_decide; [|apply processBatchAction_steady; exact Ht].
  destruct (Batch.loop batch); [|left; exact Ht].
  destruct (if Batch.random batch then _ else _) as [actions calls].
  apply processBatchAction_steady. exact Ht.
Qed.

Lemma fire_steady (id : positive) (p : Player) : steady p -> steady (fire id p).
Proof.
  intros H. unfold Client.fire. case_bool_decide as Hin; [|exact H].
  apply onBatchTimeout_steady. cbn [timers].
  destruct H as [H|(id' & delay & batch & Ht & _)].
  - rewrite H in Hin. cbn in Hin. apply elem_of_nil in Hin. destruct Hin.
  - rewrite Ht in Hin |- *. cbn in Hin. apply list_elem_of_singleton in Hin. subst id'.
    apply clearTimeout_only.
Qed.

Lemma fire_idle (id : positive) (p : Player) : timers p = [] -> fire id p = p.
Proof.
  intros Ht. unfold Client.fire. rewrite Ht.
  rewrite bool_decide_eq_false_2 by (cbn; apply not_elem_of_nil). reflexivity.
Qed.

Lemma step_steady (p : Player) (e : Event) : steady p -> steady (step p e).
Proof.
  intros H. destruct e as [response|id]; [apply updateAvatar_steady|apply fire_steady];
    exact H.
Qed.

Lemma run_steady (events : list Event) (p : Player) : steady p -> steady (run p events).
Proof.
  revert p. induction events as [|e events IH]; intros p H; [exact H|].
  apply IH, step_steady, H.
Qed.

(** X13: at any moment at most one timer is armed, and it is the one
    [batchTimeout] holds; while it is armed the page has a batch and its
    index is that of one of the actions.  So a timer never runs into a
    [currentBatch] that is [null], [processBatchAction] never reads past
    the end, and two sequences never play at once, whatever the polls
    return and whichever timers fire. *)
Theorem player_keeps_one_timer (p : Player) (events : list Event) :
  steady p →
  steady (run p events)
  ∧ ∀ id, id ∈ (timers (run p events)).*1 →
          batchTimeout (run p events) = Some id
          ∧ ∃ batch action,
              currentBatch (run p events) = Some batch
              ∧ Batch.actions batch !! currentActionIndex (run p events) = Some action.
Proof.
  intros H. apply (run_steady events) in H. split; [exact H|].
  intros id Hin. destruct H as [H|(id' & delay & batch & Ht & Hb & Hbatch & Hidx)].
  - rewrite H in Hin. cbn in Hin. apply elem_of_nil in Hin. destruct Hin.
  - rewrite Ht in Hin. cbn in Hin. apply list_elem_of_singleton in Hin. subst id'.
    split; [exact Hb|].
    destruct (lookup_lt_is_Some_2 _ _ Hidx) as [action Haction]. eauto.
Qed.

Lemma plain_poll_fields (p : Player) (data : Data) :
  steady p ->
  batchExpressions data = None ->
  timers (updateAvatar (Json data) p) = []
  ∧ currentBatchId (updateAvatar (Json data) p) = None
  ∧ rendered (updateAvatar (Json data) p) = rendered p ++ [expressionData data].
Proof.
  intros H Hdata. unfold updateAvatar. rewrite Hdata.
  split; [apply stop_timers; exact H|]. split; reflexivity.
Qed.

(** X14: a poll that carries no batch ends playback: no timer is left, the
    page tracks no batch, the expression of the response is drawn, and
    timers that fire afterwards change nothing. *)
Theorem plain_poll_stops_playback (p : Player) (data : Data) :
  steady p →
  batchExpressions data = None →
  let p' := updateAvatar (Json data) p in
  timers p' = []
  ∧ batchTimeout p' = None
  ∧ currentBatch p' = None
  ∧ currentBatchId p' = None
  ∧ rendered p' = rendered p ++ [expressionData data]
  ∧ ∀ ids, run p' (Timeout <$> ids) = p'.
Proof.
  intros H Hdata. cbv zeta. unfold updateAvatar. rewrite Hdata.
  assert (timers (updateSingleExpression (expressionData data) (stopBatchExpression p)) = [])
    as Ht by (apply stop_timers; exact H).
  split; [exact Ht|]. repeat (split; [reflexivity|]).
  intros ids. induction ids as [|id ids IH]; [reflexivity|].
  cbn [fmap list_fmap]. unfold Client.run. cbn [foldl Client.step].
  rewrite (fire_idle id _ Ht). exact IH.
Qed.

Lemma new_batch_fields (p : Player) (data : Data) (batch : Batch.t) :
  steady p ->
  batchExpressions data = Some batch ->
  currentBatchId p ≠ Some (Batch.batchId batch) ->
  let p' := updateAvatar (Json data) p in
  currentBatch p' = Some batch
  ∧ currentBatchId p' = Some (Batch.batchId batch)
  ∧ currentActionIndex p' = 0
  ∧ randomCalls p' = randomCalls p
  ∧ match Batch.actions batch with
    | [] => timers p' = [] ∧ rendered p' = rendered p
    | first :: _ =>
        timers p' = [(nextTimer p, default 0%float (Action.duration first))]
        ∧ batchTimeout p' = Some (nextTimer p)
        ∧ rendered p' = rendered p ++ [expressionData_of first]
    end.
Proof.
  intros H Hdata Hid. cbv zeta. unfold updateAvatar. rewrite Hdata.
  rewrite bool_decide_eq_true_2 by exact Hid.
  pose proof (stop_timers p H) as Hs.
  unfold startBatchExpression, processBatchAction.
  cbn [currentBatch currentActionIndex].
  destruct (Batch.actions batch) as [|first rest].
  - cbn [currentBatch currentBatchId currentActionIndex randomCalls timers rendered].
    rewrite Hs. repeat split.
  - cbn [lookup list_lookup]. unfold setTimeout, updateSingleExpression.
    cbn [currentBatch currentBatchId currentActionIndex randomCalls timers rendered
         batchTimeout nextTimer].
    rewrite Hs. repeat split.
Qed.

(** X15: a poll whose batch has another [batchId] than the one the page
    tracks starts that batch from its first action: the timer that was
    armed is cleared, the first action is drawn and one timer is armed
    with its duration.  A batch without actions is tracked and nothing is
    drawn.  Polling the same response again changes nothing more. *)
Theorem new_batch_poll_restarts (p : Player) (data : Data) (batch : Batch.t) :
  steady p →
  batchExpressions data = Some batch →
  currentBatchId p ≠ Some (Batch.batchId batch) →
  let p' := updateAvatar (Json data) p in
  currentBatch p' = Some batch
  ∧ currentBatchId p' = Some (Batch.batchId batch)
  ∧ currentActionIndex p' = 0
  ∧ randomCalls p' = randomCalls p
  ∧ match Batch.actions batch with
    | [] => timers p' = [] ∧ rendered p' = rendered p
    | first :: _ =>
        timers p' = [(nextTimer p, default 0%float (Action.duration first))]
        ∧ batchTimeout p' = Some (nextTimer p)
        ∧ rendered p' = rendered p ++ [expressionData_of first]
    end
  ∧ updateAvatar (Json data) p' = p'.
Proof.
  intros H Hdata Hid. cbv zeta.
  destruct (new_batch_fields p data batch H Hdata Hid) as (Hb & Hid' & Hidx & Hcalls & Hrest).
  repeat (split; [assumption|]).
  unfold updateAvatar at 1. rewrite Hdata, Hid'.
  rewrite bool_decide_eq_false_2 by (intros Hne; apply Hne; reflexivity). reflexivity.
Qed.

(** *** Whole cycles *)

Lemma ticks_rest_calls (m : nat) (p : Player) (batch : Batch.t)
    (id : positive) (delay : JS.number) :
  currentBatch p = Some batch ->
  timers p = [(id, delay)] ->
  currentActionIndex p + m < length (Batch.actions batch) ->
  randomCalls (Nat.iter m tick p) = randomCalls p.
Proof.
  intros Hbatch Htimers. induction m as [|m IH]; intros Hlt; [reflexivity|].
  change (Nat.iter (S m) tick p) with (tick (Nat.iter m tick p)).
  destruct (ticks_rest Math_random m p batch id delay Hbatch Htimers ltac:(lia))
    as (Hb & _ & Hidx & (id' & delay' & Ht) & _).
  destruct (lookup_lt_is_Some_2 (Batch.actions batch)
              (S (currentActionIndex (Nat.iter m tick p))) ltac:(lia)) as [action Haction].
  rewrite (tick_next Math_random _ batch id' delay' action Hb Ht Haction).
  cbn [showing randomCalls]. apply IH. lia.
Qed.

(** The timer fires on the last frame of a batch that does not loop. *)
Lemma tick_finish (p : Player) (batch : Batch.t) (id : positive) (delay : JS.number) :
  currentBatch p = Some batch ->
  timers p = [(id, delay)] ->
  length (Batch.actions batch) ≤ S (currentActionIndex p) ->
  Batch.loop batch = false ->
  tick p
  = {| currentBatch := None; currentBatchId := None;
       currentActionIndex := S (currentActionIndex p);
       batchTimeout := batchTimeout p; rendered := rendered p;
       timers := []; nextTimer := nextTimer p; randomCalls := randomCalls p |}.
Proof.
  intros Hbatch Htimers Hlast Hloop. unfold Client.tick, Client.fire. rewrite Htimers.
  rewrite bool_decide_eq_true_2 by (cbn; apply list_elem_of_here).
  rewrite clearTimeout_only. unfold Client.onBatchTimeout.
  cbn [currentBatch currentActionIndex randomCalls].
  rewrite Hbatch, bool_decide_eq_true_2 by exact Hlast.
  rewrite Hloop. reflexivity.
Qed.

(** One cycle of a looping batch that is not shuffled. *)
Lemma plain_cycle (p : Player) (batch : Batch.t) (id : positive) (delay : JS.number) :
  currentBatch p = Some batch ->
  Batch.loop batch = true ->
  Batch.random batch = false ->
  timers p = [(id, delay)] ->
  S (currentActionIndex p) = length (Batch.actions batch) ->
  let p' := Nat.iter (length (Batch.actions batch)) tick p in
  currentBatch p' = Some batch
  ∧ (∃ id' delay', timers p' = [(id', delay')])
  ∧ S (currentActionIndex p') = length (Batch.actions batch)
  ∧ currentBatchId p' = currentBatchId p
  ∧ randomCalls p' = randomCalls p
  ∧ rendered p' = rendered p ++ (expressionData_of <$> Batch.actions batch).
Proof.
  intros Hbatch Hloop Hrandom Htimers Hlast p'. subst p'.
  rewrite <- Hlast, Nat.iter_succ_r.
  destruct (Batch.actions batch) as [|first rest] eqn:Hactions; [discriminate Hlast|].
  rewrite (tick_wrap Math_random p batch id delay Hbatch Htimers ltac:(rewrite Hactions; lia)
             Hloop (first :: rest) (randomCalls p) first rest)
    by (rewrite ?Hrandom, ?Hactions; auto).
  replace {| Batch.loop := Batch.loop batch; Batch.random := Batch.random batch;
             Batch.actions := first :: rest; Batch.batchId := Batch.batchId batch |}
    with batch by (rewrite <- Hactions; destruct batch; reflexivity).
  set (q := showing batch 0 first (randomCalls p) p).
  assert (currentActionIndex q + currentActionIndex p < length (Batch.actions batch))
    as Hlt by (rewrite Hactions; cbn in Hlast |- *; lia).
  destruct (ticks_rest Math_random (currentActionIndex p) q batch (nextTimer p)
              (default 0%float (Action.duration first)) eq_refl eq_refl Hlt)
    as (Hb & Hid & Hidx & Ht & Hr).
  pose proof (ticks_rest_calls (currentActionIndex p) q batch (nextTimer p)
                (default 0%float (Action.duration first)) eq_refl eq_refl Hlt) as Hcalls.
  split; [exact Hb|]. split; [exact Ht|].
  split; [rewrite Hidx; reflexivity|]. split; [exact Hid|]. split; [exact Hcalls|].
  rewrite Hr. cbn [q showing rendered currentActionIndex]. rewrite Hactions.
  cbn [drop]. rewrite drop_0, take_ge by (cbn in Hlast; lia).
  rewrite <- app_assoc. reflexivity.
Qed.

(** X16: a looping batch with [random] off is replayed in its order for
    ever: from its last frame on, [n] cycles draw the [n] times repeated
    list of its actions, the batch and its [batchId] stay, and
    [Math.random] is not called. *)
Theorem plain_loop_replays_in_order
    (p : Player) (batch : Batch.t) (id : positive) (delay : JS.number) (n : nat) :
  currentBatch p = Some batch →
  Batch.loop batch = true →
  Batch.random batch = false →
  timers p = [(id, delay)] →
  S (currentActionIndex p) = length (Batch.actions batch) →
  let p' := Nat.iter (n * length (Batch.actions batch)) tick p in
  rendered p'
  = rendered p ++ mjoin (replicate n (expressionData_of <$> Batch.actions batch))
  ∧ currentBatch p' = Some batch
  ∧ currentBatchId p' = currentBatchId p
  ∧ randomCalls p' = randomCalls p
  ∧ ∃ id' delay', timers p' = [(id', delay')].
Proof.
  intros Hbatch Hloop Hrandom Htimers Hlast. cbv zeta.
  enough (let p' := Nat.iter (n * length (Batch.actions batch)) tick p in
          currentBatch p' = Some batch
          ∧ (∃ id' delay', timers p' = [(id', delay')])
          ∧ S (currentActionIndex p') = length (Batch.actions batch)
          ∧ currentBatchId p' = currentBatchId p
          ∧ randomCalls p' = randomCalls p
          ∧ rendered p'
            = rendered p ++ mjoin (replicate n (expressionData_of <$> Batch.actions batch)))
    as (Hb & Ht & _ & Hid & Hcalls & Hr) by auto.
  induction n as [|n (Hb & (id' & delay' & Ht) & Hidx & Hid & Hcalls & Hr)]; cbv zeta.
  - cbn. rewrite app_nil_r. eauto 10.
  - change (S n * length (Batch.actions batch))
      with (length (Batch.actions batch) + n * length (Batch.actions batch)).
    rewrite Nat.iter_add.
    destruct (plain_cycle _ batch id' delay' Hb Hloop Hrandom Ht Hidx)
      as (Hb' & Ht' & Hidx' & Hid' & Hcalls' & Hr').
    split; [exact Hb'|]. split; [exact Ht'|]. split; [exact Hidx'|].
    split; [congruence|]. split; [congruence|].
    rewrite Hr', Hr, <- app_assoc. f_equal.
    change (S n) with (1 + n) at 1. rewrite Nat.add_comm, replicate_add, join_app. cbn.
    rewrite app_nil_r. reflexivity.
Qed.

(** X17: a batch without [loop] is played once.  From the poll that starts
    it, as many timers as it has actions draw the actions in their order,
    each once; then no timer is armed, the page tracks no batch and no
    [batchId], and a timer firing changes nothing. *)
Theorem batch_without_loop_plays_once (p : Player) (data : Data) (batch : Batch.t) :
  steady p →
  batchExpressions data = Some batch →
  currentBatchId p ≠ Some (Batch.batchId batch) →
  Batch.loop batch = false →
  Batch.actions batch ≠ [] →
  let played := Nat.iter (length (Batch.actions batch)) tick (updateAvatar (Json data) p) in
  rendered played = rendered p ++ (expressionData_of <$> Batch.actions batch)
  ∧ timers played = []
  ∧ currentBatch played = None
  ∧ currentBatchId played = None
  ∧ tick played = played.
Proof.
  intros H Hdata Hid Hloop Hsome. cbv zeta.
  destruct (new_batch_fields p data batch H Hdata Hid)
    as (Hb & _ & Hidx & _ & Hstart).
  set (p0 := updateAvatar (Json data) p) in *.
  destruct (Batch.actions batch) as [|first rest] eqn:Hactions; [congruence|].
  destruct Hstart as (Ht & _ & Hr).
  cbn [length]. change (Nat.iter (S (length rest)) tick p0)
    with (tick (Nat.iter (length rest) tick p0)).
  destruct (ticks_rest Math_random (length rest) p0 batch _ _ Hb Ht)
    as (Hb' & _ & Hidx' & (id' & delay' & Ht') & Hr').
  { rewrite Hidx, Hactions. cbn. lia. }
  rewrite (tick_finish _ batch id' delay' Hb' Ht'); [|rewrite Hidx', Hidx, Hactions; cbn; lia|exact Hloop].
  cbn [rendered timers currentBatch currentBatchId].
  split; [|repeat split].
  rewrite Hr', Hr, Hidx, Hactions. cbn [drop]. rewrite drop_0, firstn_all, <- app_assoc.
  reflexivity.
Qed.

End Playing.

Lemma player_keeps_one_timer_witness :
  steady initialPlayer
  ∧ steady (Client.run Samples.randoms initialPlayer
              [Poll (Json Samples.seenThree); Timeout 1; Poll NotOk; Timeout 7;
               Timeout 2; Poll Samples.seenOnce; Timeout 3; Timeout 4])
  ∧ timers (Client.run Samples.randoms initialPlayer
              [Poll (Json Samples.seenThree); Timeout 1; Poll NotOk; Timeout 7;
               Timeout 2; Poll Samples.seenOnce; Timeout 3; Timeout 4])
    = [(5%positive, 200%float)].
Proof.
  assert (steady initialPlayer) as H by (left; reflexivity).
  split; [exact H|]. split; [|vm_compute; reflexivity].
  apply (player_keeps_one_timer Samples.randoms initialPlayer _ H).
Defined.

Lemma plain_poll_stops_playback_witness :
  let p := Client.run Samples.randoms initialPlayer [Poll (Json Samples.seenThree); Timeout 1] in
  timers p = [(2%positive, 200%float)]
  ∧ timers (updateAvatar (Json Samples.plainData) p) = []
  ∧ name <$> rendered (updateAvatar (Json Samples.plainData) p)
    = ["joyful"; "perplexed"; "perplexed"]
  ∧ Client.run Samples.randoms (updateAvatar (Json Samples.plainData) p)
      (Timeout <$> [2%positive; 3%positive])
    = updateAvatar (Json Samples.plainData) p.
Proof.
  cbv zeta.
  assert (steady (Client.run Samples.randoms initialPlayer
                    [Poll (Json Samples.seenThree); Timeout 1])) as H
    by (apply run_steady; left; reflexivity).
  destruct (plain_poll_stops_playback Samples.randoms _ Samples.plainData H eq_refl)
    as (Ht & _ & _ & _ & Hr & Hidle).
  split; [vm_compute; reflexivity|]. split; [exact Ht|].
  split; [rewrite Hr; vm_compute; reflexivity|apply Hidle].
Defined.

Lemma new_batch_poll_restarts_witness :
  let p := Client.run Samples.randoms initialPlayer [Poll Samples.seenOnce; Timeout 1] in
  currentBatchId p = Some "a-0000"
  ∧ timers p = [(2%positive, 200%float)]
  ∧ currentBatchId (updateAvatar (Json Samples.seenThree) p) = Some "c-0000"
  ∧ timers (updateAvatar (Json Samples.seenThree) p) = [(3%positive, 100%float)]
  ∧ name <$> rendered (updateAvatar (Json Samples.seenThree) p)
    = ["joyful"; "perplexed"; "joyful"].
Proof.
  cbv zeta.
  assert (steady (Client.run Samples.randoms initialPlayer [Poll Samples.seenOnce; Timeout 1]))
    as H by (apply run_steady; left; reflexivity).
  destruct (new_batch_poll_restarts _ Samples.seenThree Samples.threeFrames H eq_refl)
    as (_ & Hid & _ & _ & (Ht & _ & Hr) & _).
  { vm_compute. discriminate. }
  split; [vm_compute; reflexivity|]. split; [vm_compute; reflexivity|].
  split; [exact Hid|]. split; [rewrite Ht; vm_compute; reflexivity|].
  rewrite Hr. vm_compute. reflexivity.
Defined.

Lemma plain_loop_replays_in_order_witness :
  let p := Client.run Samples.randoms initialPlayer
             [Poll (Json (Samples.polled (Samples.twoSeen true))); Timeout 1] in
  name <$> rendered p = ["joyful"; "perplexed"]
  ∧ name <$> rendered (Nat.iter 4 (Client.tick Samples.randoms) p)
    = ["joyful"; "perplexed"; "joyful"; "perplexed"; "joyful"; "perplexed"]
  ∧ randomCalls (Nat.iter 4 (Client.tick Samples.randoms) p) = 0.
Proof.
  cbv zeta.
  destruct (plain_loop_replays_in_order Samples.randoms
              (Client.run Samples.randoms initialPlayer
                 [Poll (Json (Samples.polled (Samples.twoSeen true))); Timeout 1])
              (Samples.twoSeen true) 2%positive 200%float 2)
    as (Hr & _ & _ & Hcalls & _); try (vm_compute; reflexivity).
  split; [vm_compute; reflexivity|].
  split; [|exact Hcalls].
  change (2 * length (Batch.actions (Samples.twoSeen true))) with 4 in Hr.
  rewrite Hr. vm_compute. reflexivity.
Defined.

Lemma batch_without_loop_plays_once_witness :
  let played := Nat.iter 2 (Client.tick Samples.randoms)
                  (updateAvatar (Json (Samples.polled (Samples.twoSeen false)))
                     initialPlayer) in
  name <$> rendered played = ["joyful"; "perplexed"]
  ∧ timers played = []
  ∧ currentBatchId played = None
  ∧ Client.tick Samples.randoms played = played.
Proof.
  cbv zeta.
  destruct (batch_without_loop_plays_once Samples.randoms initialPlayer
              (Samples.polled (Samples.twoSeen false)) (Samples.twoSeen false))
    as (Hr & Ht & _ & Hid & Hidle);
    [left; reflexivity|reflexivity|discriminate|reflexivity|discriminate|].
  change (length (Batch.actions (Samples.twoSeen false))) with 2 in *.
  split; [rewrite Hr; vm_compute; reflexivity|].
  split; [exact Ht|]. split; [exact Hid|exact Hidle].
Defined.

End PlayerInvariants.

(** ** The page against the store *)
Module PageAndStore.
Import Server Invariants CatalogFacts PlayerInvariants.

Section Page.

Variable expressions : list Expression.

Abbreviation resolves := (Invariants.resolves expressions).
Abbreviation batch_ok := (Invariants.batch_ok expressions).
Abbreviation fetch := (Wire.fetch expressions).

(** X18: what the page draws on a poll of the store.  While the store
    holds no batch the page stops playing and draws the catalog entry of
    the current expression with the avatar state of the store.  While it
    holds a batch the page, unless it tracks that [batchId] already, draws
    the first action of the batch, arms one timer and tracks the stored
    [batchId]; the current expression of the store is not looked at. *)
Theorem page_draws_what_the_store_holds (st : Store) (p : Client.Player) :
  plain_catalog expressions →
  resolves st →
  batch_ok st →
  steady p →
  let p' := Client.updateAvatar (fetch st) p in
  match batchExpressionsState st with
  | None =>
      ∃ e, e ∈ expressions
           ∧ name e = currentExpression st
           ∧ Client.rendered p'
             = Client.rendered p
               ++ [{| Client.name := name e;
                      Client.imageUrl := imageUrl e;
                      Client.description := description e;
                      Client.direction := direction (avatarState st);
                      Client.posX := Client.json_number (posX (avatarState st));
                      Client.posY := Client.json_number (posY (avatarState st));
                      Client.rotation := Client.json_number (rotation (avatarState st));
                      Client.scale := Client.json_number (scale (avatarState st)) |}]
           ∧ Client.timers p' = []
           ∧ Client.currentBatchId p' = None
  | Some b =>
      (Client.currentBatchId p = batchId b ∧ p' = p)
      ∨ (Client.currentBatchId p ≠ batchId b
         ∧ ∃ first,
             head (actions b) = Some first
             ∧ Invariants.accepted expressions (Action.expression first)
             ∧ Client.rendered p'
               = Client.rendered p ++ [Client.expressionData_of (Wire.json_action first)]
             ∧ Client.currentBatchId p' = batchId b
             ∧ Client.timers p'
               = [(Client.nextTimer p,
                   default 0%float (Client.json_number (Action.duration first)))])
  end.
Proof.
  intros _ [e He] Hok Hp. cbv zeta. unfold Wire.fetch, get_api_current_expression.
  rewrite He. cbn [snd].
  destruct (batchExpressionsState st) as [b|] eqn:Hb.
  - destruct (Hok b Hb) as [(Hsome & Hall & _ & _ & [id Hid]) _].
    set (data := Wire.json_body _).
    assert (Client.batchExpressions data = Some (Wire.json_batch b)) as Hdata
      by reflexivity.
    assert (Client.Batch.batchId (Wire.json_batch b) = id) as Hjid
      by (unfold Wire.json_batch; cbn; rewrite Hid; reflexivity).
    destruct (decide (Client.currentBatchId p = batchId b)) as [Hsame|Hdiff].
    + left. split; [exact Hsame|]. unfold Client.updateAvatar. rewrite Hdata, Hjid.
      rewrite bool_decide_eq_false_2; [reflexivity|].
      intros Hne. apply Hne. rewrite Hsame. exact Hid.
    + right. split; [exact Hdiff|].
      destruct (new_batch_fields p data (Wire.json_batch b) Hp Hdata)
        as (_ & Hid' & _ & _ & Hstart).
      { rewrite Hjid, <- Hid. exact Hdiff. }
      destruct (actions b) as [|first rest] eqn:Hactions; [congruence|].
      unfold Wire.json_batch in Hstart. cbn [Client.Batch.actions] in Hstart.
      rewrite Hactions in Hstart. cbn [fmap list_fmap] in Hstart.
      destruct Hstart as (Ht & _ & Hr).
      exists first. split; [reflexivity|].
      split; [apply Forall_cons in Hall as [Hfirst _]; exact Hfirst|].
      split; [exact Hr|]. split; [rewrite Hid', Hjid; symmetry; exact Hid|exact Ht].
  - apply expressionMap_lookup in He as [Hname Hin].
    exists e. split; [exact Hin|]. split; [exact Hname|].
    set (data := Wire.json_body _).
    destruct (plain_poll_fields p data Hp eq_refl) as (Ht & Hid & Hr).
    split; [exact Hr|]. split; [exact Ht|exact Hid].
Qed.

End Page.

Lemma finite_not_nan (x : JS.number) :
  PrimFloat.is_finite x = true -> PrimFloat.is_nan x = false.
Proof.
  unfold PrimFloat.is_finite. intros H. apply negb_true_iff, orb_false_iff in H. apply H.
Qed.

(** [x || fallback] on a number that has come through JSON. *)
Lemma shown_number (x fallback : JS.number) :
  PrimFloat.is_finite fallback = true ->
  let v := number_or (Client.json_number x) fallback in
  PrimFloat.is_finite v = true
  ∧ (JS.truthy fallback = true → JS.truthy v = true)
  ∧ (PrimFloat.is_finite x = false ∨ JS.truthy x = false → v = fallback)
  ∧ (PrimFloat.is_finite x = true → JS.truthy x = true → v = x).
Proof.
  intros Hf. cbv zeta. unfold Client.json_number, number_or.
  destruct (PrimFloat.is_finite x) eqn:Hx.
  - pose proof (finite_not_nan x Hx) as Hnan.
    destruct (PrimFloat.is_zero x) eqn:Hz.
    + assert (JS.truthy x = false) as Ht by (unfold JS.truthy; rewrite Hz; reflexivity).
      change (JS.truthy PrimFloat.zero) with false. cbv iota. rewrite Ht.
      split; [exact Hf|]. split; [tauto|]. split; [reflexivity|discriminate].
    + assert (JS.truthy x = true) as Ht
        by (unfold JS.truthy; rewrite Hz, Hnan; reflexivity).
      rewrite Ht. split; [exact Hx|]. split; [intros _; exact Ht|].
      split; [intros [H|H]; discriminate H|reflexivity].
  - split; [exact Hf|]. split; [tauto|]. split; [reflexivity|discriminate].
Qed.

(** X20: whatever avatar state an action of a stored batch carries, the
    frame the page builds for it has numbers in all four places: a value
    that is [NaN] or infinite reaches the page as [null], and [null] and
    [0] are replaced by the defaults (0, 0, 0 and 1.0), so the scale drawn
    is never 0; a number that is finite and not 0 is drawn as it is. *)
Theorem batch_frame_has_only_numbers (action : Action.t) :
  let data := Client.expressionData_of (Wire.json_action action) in
  ∃ x y r k,
    Client.posX data = Some x ∧ Client.posY data = Some y
    ∧ Client.rotation data = Some r ∧ Client.scale data = Some k
    ∧ Forall (fun v => PrimFloat.is_finite v = true) [x; y; r; k]
    ∧ JS.truthy k = true
    ∧ Forall (fun '(stored, drawn, fallback) =>
                (PrimFloat.is_finite stored = false ∨ JS.truthy stored = false
                 → drawn = fallback)
                ∧ (PrimFloat.is_finite stored = true → JS.truthy stored = true
                   → drawn = stored))
             [(Action.posX action, x, 0%float); (Action.posY action, y, 0%float);
              (Action.rotation action, r, 0%float); (Action.scale action, k, 1%float)].
Proof.
  cbv zeta. unfold Client.expressionData_of, Wire.json_action.
  cbn [Client.posX Client.posY Client.rotation Client.scale
       Client.Action.posX Client.Action.posY Client.Action.rotation Client.Action.scale].
  destruct (shown_number (Action.posX action) 0 eq_refl) as (Hx1 & _ & Hx2 & Hx3).
  destruct (shown_number (Action.posY action) 0 eq_refl) as (Hy1 & _ & Hy2 & Hy3).
  destruct (shown_number (Action.rotation action) 0 eq_refl) as (Hr1 & _ & Hr2 & Hr3).
  destruct (shown_number (Action.scale action) 1 eq_refl) as (Hk1 & Hk0 & Hk2 & Hk3).
  eexists _, _, _, _. repeat (split; [reflexivity|]).
  split; [repeat constructor; assumption|]. split; [apply Hk0; reflexivity|].
  repeat constructor; assumption.
Qed.

Lemma page_draws_what_the_store_holds_witness :
  let st := Invariants.serve_all Samples.catalog Samples.ids Samples.traffic initialStore in
  let p := Client.updateAvatar (Wire.fetch Samples.catalog st) Client.initialPlayer in
  plain_catalog Samples.catalog
  ∧ Invariants.resolves Samples.catalog st
  ∧ Invariants.batch_ok Samples.catalog st
  ∧ currentExpression st = "perplexed"
  ∧ Client.name <$> Client.rendered p = ["perplexed"]
  ∧ Client.currentBatchId p = Some "b-0000"
  ∧ Client.timers p = [(1%positive, 250%float)].
Proof.
  cbv zeta.
  assert (Invariants.resolves Samples.catalog
            (Invariants.serve_all Samples.catalog Samples.ids Samples.traffic initialStore))
    as Hres by (eexists; vm_compute; reflexivity).
  assert (Invariants.batch_ok Samples.catalog
            (Invariants.serve_all Samples.catalog Samples.ids Samples.traffic initialStore))
    as Hok.
  { apply StoreInvariants.serve_all_batch_ok. intros b Hb. discriminate Hb. }
  pose proof (page_draws_what_the_store_holds Samples.catalog _ Client.initialPlayer
                CatalogFacts.catalog_plain Hres Hok ltac:(left; reflexivity)) as H.
  cbv zeta in H.
  destruct (batchExpressionsState
              (Invariants.serve_all Samples.catalog Samples.ids Samples.traffic initialStore))
    as [b|] eqn:Hb; [|vm_compute in Hb; discriminate Hb].
  vm_compute in Hb. injection Hb as <-.
  destruct H as [[Hsame _]|(_ & first & Hfirst & _ & Hr & Hid & Ht)];
    [discriminate Hsame|].
  injection Hfirst as <-.
  split; [exact CatalogFacts.catalog_plain|]. split; [exact Hres|]. split; [exact Hok|]. split; [vm_compute; reflexivity|].
  split; [rewrite Hr; vm_compute; reflexivity|].
  split; [rewrite Hid; reflexivity|rewrite Ht; vm_compute; reflexivity].
Defined.

End PageAndStore.

(** ** The debug panel *)
Module DebugPanel.
Import Client Invariants.

Lemma presses_snoc (keys : list string) (key : string) :
  presses (keys ++ [key])
  = presses keys + (if bool_decide (key = "d") || bool_decide (key = "D") then 1 else 0).
Proof.
  unfold presses. rewrite filter_app, length_app. f_equal.
  rewrite filter_cons, filter_nil.
  destruct (decide (key = "d" ∨ key = "D")) as [[->| ->]|Hno]; [reflexivity..|].
  rewrite !bool_decide_eq_false_2 by tauto. reflexivity.
Qed.

Lemma display_after (keys : list string) :
  foldl (fun display key => keydown key display) initialDisplay keys
  = if bool_decide (presses keys = 0) then ""
    else if Nat.even (presses keys) then "block" else "none".
Proof.
  induction keys as [|key keys IH] using rev_ind; [reflexivity|].
  rewrite foldl_snoc, IH, presses_snoc. unfold keydown.
  destruct (bool_decide (key = "d") || bool_decide (key = "D")).
  - rewrite Nat.add_1_r, Nat.even_succ, <- Nat.negb_even.
    rewrite (bool_decide_eq_false_2 (S (presses keys) = 0)) by discriminate.
    case_bool_decide as Hzero; [rewrite Hzero; reflexivity|].
    destruct (Nat.even (presses keys)); reflexivity.
  - rewrite Nat.add_0_r. reflexivity.
Qed.

(** X19: the key [d] (or [D]) toggles the style of the debug panel, and
    the first press writes [none] over a style that is empty: the panel,
    hidden by the style sheet, is on the page exactly after an even number
    of presses that is not zero.  Other keys change nothing. *)
Theorem debug_panel_needs_two_presses (keys : list string) :
  panel_visible (foldl (fun display key => keydown key display) initialDisplay keys) = true
  ↔ presses keys ≠ 0 ∧ Nat.even (presses keys) = true.
Proof.
  rewrite display_after. unfold panel_visible.
  destruct (bool_decide (presses keys = 0)) eqn:Hzero.
  - apply bool_decide_eq_true in Hzero.
    cbn. split; [discriminate|]. intros [Hne _]. destruct (Hne Hzero).
  - apply bool_decide_eq_false in Hzero.
    destruct (Nat.even (presses keys)); cbn; split; try discriminate; try tauto.
Qed.

End DebugPanel.
